(** * The Nebula landing page: countdown, parallax, orbs and subscribe form

    A shallow embedding of [assets/js/countdown.js] and [assets/js/main.js].

    Conventions used throughout:
    - DOM writes and timer calls are recorded as a list of effects, in the
      order the script performs them, and interpreted on a record that
      stands for the part of the page the script touches;
    - the host supplies what the script reads from it (the clock, the parsed
      target date, [Math.random], the remote call's outcome) as arguments;
    - JavaScript numbers are modelled with exact arithmetic: integers (or
      [NaN]) in the countdown, where every value is a millisecond count, and
      rationals (or [NaN], [Infinity]) in the parallax and orb code.  That
      model does not round; where the rounding of IEEE-754 doubles decides
      a property, the two arithmetic helpers ([lerp], [randBetween]) are
      also given on binary64 numbers, in [Binary64], and with a rounding
      after every operation of which only order-keeping is assumed, in
      [Rounded]. *)

From Stdlib Require Import ZArith QArith Qround Qabs List String Ascii Bool Lia Lqa.
From Stdlib Require Import DecimalString.
From Stdlib Require PrimFloat DecimalPos.
Import ListNotations.

Local Open Scope Z_scope.

(* ================================================================== *)
(** * countdown.js *)
(* ================================================================== *)

Module Countdown.

Local Open Scope string_scope.
Local Open Scope list_scope.
Local Open Scope Z_scope.

(** ** Numbers

    [Date.prototype.getTime] is an integral millisecond count or [NaN] (for
    an invalid date); [Date.now] is integral.  Every value [tick] computes
    from them is again an integer or [NaN]. *)
Inductive num : Type :=
| Int (z : Z)
| NaN.

(** [a - b] *)
Definition sub (a b : num) : num :=
  match a, b with
  | Int x, Int y => Int (x - y)
  | _, _ => NaN
  end.

(** [a <= 0]; a comparison with [NaN] is false. *)
Definition le0 (a : num) : bool :=
  match a with
  | Int x => x <=? 0
  | NaN => false
  end.

(** [Math.floor(a / k)] for a positive integer literal [k]. *)
Definition floor_div (a : num) (k : Z) : num :=
  match a with
  | Int x => Int (x / k)
  | NaN => NaN
  end.

(** [a % k]: JavaScript's remainder takes the sign of the dividend. *)
Definition rem (a : num) (k : Z) : num :=
  match a with
  | Int x => Int (Z.rem x k)
  | NaN => NaN
  end.

(** [a !== b] on numbers: [NaN] is different from everything, itself
    included. *)
Definition strict_ne (a b : num) : bool :=
  match a, b with
  | Int x, Int y => negb (x =? y)
  | _, _ => true
  end.

(** [String(n)] *)
Definition String_ (n : num) : string :=
  match n with
  | Int z => NilZero.string_of_int (Z.to_int z)
  | NaN => "NaN"
  end.

(** [s.padStart(len, "0")] *)
Fixpoint zeros (k : nat) : string :=
  match k with
  | O => ""
  | S k' => String "0"%char (zeros k')
  end.

Definition padStart (len : nat) (s : string) : string :=
  (zeros (len - String.length s) ++ s)%string.

(** ** The page *)

Inductive slot : Type := Days | Hours | Mins | Secs.

Definition slot_eqb (a b : slot) : bool :=
  match a, b with
  | Days, Days | Hours, Hours | Mins, Mins | Secs, Secs => true
  | _, _ => false
  end.

Inductive effect : Type :=
| SetText (el : slot) (s : string)        (* el.textContent = s *)
| ClassRemove (el : slot) (c : string)    (* el.classList.remove(c) *)
| Reflow (el : slot)                      (* void el.offsetWidth *)
| ClassAdd (el : slot) (c : string)       (* el.classList.add(c) *)
| ClearInterval (h : option nat)          (* clearInterval(h); None is undefined *)
| SetAriaLabel (s : string).              (* container.setAttribute('aria-label', s) *)

(** The element an effect writes to, if it writes to a digit element. *)
Definition target_of (e : effect) : option slot :=
  match e with
  | SetText el _ | ClassRemove el _ | Reflow el | ClassAdd el _ => Some el
  | ClearInterval _ | SetAriaLabel _ => None
  end.

Definition touches (el : slot) (e : effect) : bool :=
  match target_of e with
  | Some el' => slot_eqb el el'
  | None => false
  end.

(** The effects of a trace that write to [el]. *)
Definition effects_on (el : slot) (tr : list effect) : list effect :=
  filter (touches el) tr.

(** ** Helpers of the script *)

(** [const pad2 = (n) => String(n).padStart(2, '0')] *)
Definition pad2 (n : num) : string := padStart 2 (String_ n).

(** [triggerFlip]: remove the class, force a reflow, add the class again. *)
Definition triggerFlip (el : slot) : list effect :=
  [ClassRemove el "is-flipping"; Reflow el; ClassAdd el "is-flipping"].

(** [updateDigit]: returns [newVal] and the writes it performed. *)
Definition updateDigit (el : slot) (newVal oldVal : num) : num * list effect :=
  (newVal,
   if strict_ne newVal oldVal
   then SetText el (pad2 newVal) :: triggerFlip el
   else []).

(** ** The closure of [init] *)

Record prev_t : Type := { d : num; h : num; m : num; s : num }.

Record closure : Type := {
  prev : prev_t;
  intervalId : option nat        (* None is undefined *)
}.

Definition component (el : slot) (p : prev_t) : num :=
  match el with
  | Days => d p
  | Hours => h p
  | Mins => m p
  | Secs => s p
  end.

(** [let prev = { d: -1, h: -1, m: -1, s: -1 }; let intervalId;] *)
Definition closure0 : closure :=
  {| prev := {| d := Int (-1); h := Int (-1); m := Int (-1); s := Int (-1) |};
     intervalId := None |}.

(** [tick].  [target] is [new Date(container.dataset.targetDate).getTime()]
    and [now] is [Date.now()], both read afresh at every tick. *)
Definition tick (target : num) (now : Z) (c : closure) : closure * list effect :=
  let diff := sub target (Int now) in
  if le0 diff then
    (c, [ClearInterval (intervalId c);
         SetText Secs "00"; SetText Mins "00"; SetText Hours "00"; SetText Days "00";
         SetAriaLabel "We have launched!"])
  else
    let totalSecs := floor_div diff 1000 in
    let d_ := floor_div totalSecs 86400 in
    let h_ := floor_div (rem totalSecs 86400) 3600 in
    let m_ := floor_div (rem totalSecs 3600) 60 in
    let s_ := rem totalSecs 60 in
    let '(pd, e1) := updateDigit Days d_ (d (prev c)) in
    let '(ph, e2) := updateDigit Hours h_ (h (prev c)) in
    let '(pm, e3) := updateDigit Mins m_ (m (prev c)) in
    let '(ps, e4) := updateDigit Secs s_ (s (prev c)) in
    ({| prev := {| d := pd; h := ph; m := pm; s := ps |};
        intervalId := intervalId c |},
     e1 ++ e2 ++ e3 ++ e4).

(** ** Interpreting the effects on the page *)

Record element : Type := {
  textContent : string;
  flipping : bool;            (* classList contains 'is-flipping' *)
  restarts : nat              (* how often the flip animation was restarted *)
}.

Record world : Type := {
  daysEl : element;
  hoursEl : element;
  minsEl : element;
  secsEl : element;
  ariaLabel : option string;
  intervals : list nat;        (* handles of the repeating timers still scheduled *)
  nextHandle : nat;
  clo : closure;
  ticks : nat                  (* how many times [tick] has run *)
}.

Definition get (el : slot) (w : world) : element :=
  match el with
  | Days => daysEl w
  | Hours => hoursEl w
  | Mins => minsEl w
  | Secs => secsEl w
  end.

Definition set (el : slot) (x : element) (w : world) : world :=
  match el with
  | Days => {| daysEl := x; hoursEl := hoursEl w; minsEl := minsEl w; secsEl := secsEl w;
               ariaLabel := ariaLabel w; intervals := intervals w;
               nextHandle := nextHandle w; clo := clo w; ticks := ticks w |}
  | Hours => {| daysEl := daysEl w; hoursEl := x; minsEl := minsEl w; secsEl := secsEl w;
               ariaLabel := ariaLabel w; intervals := intervals w;
               nextHandle := nextHandle w; clo := clo w; ticks := ticks w |}
  | Mins => {| daysEl := daysEl w; hoursEl := hoursEl w; minsEl := x; secsEl := secsEl w;
               ariaLabel := ariaLabel w; intervals := intervals w;
               nextHandle := nextHandle w; clo := clo w; ticks := ticks w |}
  | Secs => {| daysEl := daysEl w; hoursEl := hoursEl w; minsEl := minsEl w; secsEl := x;
               ariaLabel := ariaLabel w; intervals := intervals w;
               nextHandle := nextHandle w; clo := clo w; ticks := ticks w |}
  end.

Definition with_timers (ivs : list nat) (nx : nat) (c : closure) (k : nat) (w : world) : world :=
  {| daysEl := daysEl w; hoursEl := hoursEl w; minsEl := minsEl w; secsEl := secsEl w;
     ariaLabel := ariaLabel w; intervals := ivs; nextHandle := nx; clo := c; ticks := k |}.

Definition with_aria (a : option string) (w : world) : world :=
  {| daysEl := daysEl w; hoursEl := hoursEl w; minsEl := minsEl w; secsEl := secsEl w;
     ariaLabel := a; intervals := intervals w; nextHandle := nextHandle w;
     clo := clo w; ticks := ticks w |}.

Definition apply_effect (e : effect) (w : world) : world :=
  match e with
  | SetText el txt =>
      let x := get el w in
      set el {| textContent := txt; flipping := flipping x; restarts := restarts x |} w
  | ClassRemove el _ =>
      let x := get el w in
      set el {| textContent := textContent x; flipping := false; restarts := restarts x |} w
  | Reflow _ => w
  | ClassAdd el _ =>
      let x := get el w in
      set el {| textContent := textContent x; flipping := true;
                restarts := if flipping x then restarts x else S (restarts x) |} w
  | ClearInterval None => w
  | ClearInterval (Some hd) =>
      with_timers (filter (fun i => negb (Nat.eqb i hd)) (intervals w))
                  (nextHandle w) (clo w) (ticks w) w
  | SetAriaLabel a => with_aria (Some a) w
  end.

Definition apply_effects (tr : list effect) (w : world) : world :=
  fold_left (fun acc e => apply_effect e acc) tr w.

(** One run of [tick] on the page. *)
Definition run_tick (target : num) (now : Z) (w : world) : world :=
  let '(c', tr) := tick target now (clo w) in
  let w1 := apply_effects tr w in
  with_timers (intervals w1) (nextHandle w1) c' (S (ticks w1)) w1.

(** What [document] holds when [init] runs. *)
Record document : Type := {
  has_container : bool;       (* '.countdown[data-target-date]' *)
  has_days : bool;
  has_hours : bool;
  has_mins : bool;
  has_secs : bool
}.

Definition full_document : document :=
  {| has_container := true; has_days := true; has_hours := true;
     has_mins := true; has_secs := true |}.

(** The page as loaded: the digit elements show [txt], nothing is
    scheduled, [tick] has not run. *)
Definition loaded (txt : string) : world :=
  let x := {| textContent := txt; flipping := false; restarts := 0 |} in
  {| daysEl := x; hoursEl := x; minsEl := x; secsEl := x;
     ariaLabel := None; intervals := []; nextHandle := 1%nat;
     clo := closure0; ticks := 0 |}.

(** [init]: the guards, the immediate first [tick()], then
    [intervalId = setInterval(tick, 1000)]. *)
Definition init (doc : document) (target : num) (now : Z) (w : world) : world :=
  if negb (has_container doc) then w
  else if negb (has_days doc) || negb (has_hours doc)
          || negb (has_mins doc) || negb (has_secs doc) then w
  else
    let w1 := run_tick target now w in
    let hd := nextHandle w1 in
    with_timers (hd :: intervals w1) (S hd)
                {| prev := prev (clo w1); intervalId := Some hd |} (ticks w1) w1.

(** The repeating timer fires: [tick] runs if an interval is still
    scheduled; otherwise nothing runs. *)
Definition fire (target : num) (now : Z) (w : world) : option world :=
  match intervals w with
  | [] => None
  | _ :: _ => Some (run_tick target now w)
  end.

(** A page session after [init]: the timer fires once per reading of the
    clock, as long as it is scheduled. *)
Fixpoint session (clock : list (num * Z)) (w : world) : world :=
  match clock with
  | [] => w
  | (target, now) :: rest =>
      match fire target now w with
      | Some w' => session rest w'
      | None => session rest w
      end
  end.

(** ** The specification's wording

    The decomposition of the remaining whole seconds [R] as the
    specification states it, with floored division and modulus on
    integers; compared with what [tick] computes in [CountdownFacts]. *)
Definition spec_components (R : Z) : prev_t :=
  {| d := Int (R / 86400);
     h := Int ((R mod 86400) / 3600);
     m := Int ((R mod 3600) / 60);
     s := Int (R mod 60) |}.

(** The remaining whole seconds at a tick. *)
Definition remaining_secs (t now : Z) : Z := (t - now) / 1000.

(** All four digit updates, as the first tick of a running timer performs
    them. *)
Definition all_updates (p : prev_t) : list effect :=
  (SetText Days (pad2 (d p)) :: triggerFlip Days) ++
  (SetText Hours (pad2 (h p)) :: triggerFlip Hours) ++
  (SetText Mins (pad2 (m p)) :: triggerFlip Mins) ++
  (SetText Secs (pad2 (s p)) :: triggerFlip Secs).

(** The text of the four digit elements, days first. *)
Definition texts (w : world) : string * string * string * string :=
  (textContent (daysEl w), textContent (hoursEl w),
   textContent (minsEl w), textContent (secsEl w)).

(** What the closure remembers once the target date is invalid. *)
Definition nan_prev : prev_t := {| d := NaN; h := NaN; m := NaN; s := NaN |}.

(** The trace of the Finished branch. *)
Definition finish_trace (c : closure) : list effect :=
  [ClearInterval (intervalId c);
   SetText Secs "00"; SetText Mins "00"; SetText Hours "00"; SetText Days "00";
   SetAriaLabel "We have launched!"].

(** What one effect does to the element it writes to. *)
Definition on_element (e : effect) (x : element) : element :=
  match e with
  | SetText _ txt => {| textContent := txt; flipping := flipping x; restarts := restarts x |}
  | ClassRemove _ _ => {| textContent := textContent x; flipping := false; restarts := restarts x |}
  | ClassAdd _ _ => {| textContent := textContent x; flipping := true;
                       restarts := if flipping x then restarts x else S (restarts x) |}
  | Reflow _ | ClearInterval _ | SetAriaLabel _ => x
  end.

End Countdown.

(* ================================================================== *)
(** * main.js *)
(* ================================================================== *)

(** ** What the host provides: strings, numbers, [toFixed], [parseFloat] *)

Module JS.

Local Open Scope list_scope.
Local Open Scope Q_scope.

(** A JavaScript string is a sequence of UTF-16 code units. *)
Definition jsstring : Type := list N.

(** An ASCII literal as a JavaScript string. *)
Definition js (lit : string) : jsstring :=
  map N_of_ascii (list_ascii_of_string lit).

(** The characters [\s] matches and [trim] strips: WhiteSpace and
    LineTerminator of ECMA-262. *)
Definition is_space (c : N) : bool :=
  ((9 <=? c) && (c <=? 13) || (c =? 32) || (c =? 160) || (c =? 5760)
   || (8192 <=? c) && (c <=? 8202) || (c =? 8232) || (c =? 8233)
   || (c =? 8239) || (c =? 8287) || (c =? 12288) || (c =? 65279))%N.

Fixpoint trimStart (str : jsstring) : jsstring :=
  match str with
  | [] => []
  | c :: rest => if is_space c then trimStart rest else str
  end.

Definition trimEnd (str : jsstring) : jsstring := rev (trimStart (rev str)).

(** [str.trim()] *)
Definition trim (str : jsstring) : jsstring := trimEnd (trimStart str).

(** Numbers of the parallax and orb code: exact rationals and the three
    special values of a double. *)
Inductive num : Type :=
| Fin (q : Q)
| PInf
| NInf
| NaN.

Definition neg (a : num) : num :=
  match a with
  | Fin q => Fin (- q)
  | PInf => NInf
  | NInf => PInf
  | NaN => NaN
  end.

Definition add (a b : num) : num :=
  match a, b with
  | NaN, _ | _, NaN => NaN
  | Fin x, Fin y => Fin (x + y)
  | PInf, NInf | NInf, PInf => NaN
  | PInf, _ | _, PInf => PInf
  | NInf, _ | _, NInf => NInf
  end.

Definition sub (a b : num) : num := add a (neg b).

(** The sign of a rational: [Lt], [Eq] or [Gt] as it compares with 0. *)
Definition sign (q : Q) : comparison := Qcompare q 0.

Definition inf_times (positive : bool) (sg : comparison) : num :=
  match sg with
  | Eq => NaN
  | Gt => if positive then PInf else NInf
  | Lt => if positive then NInf else PInf
  end.

Definition mul (a b : num) : num :=
  match a, b with
  | NaN, _ | _, NaN => NaN
  | Fin x, Fin y => Fin (x * y)
  | PInf, Fin y => inf_times true (sign y)
  | NInf, Fin y => inf_times false (sign y)
  | Fin x, PInf => inf_times true (sign x)
  | Fin x, NInf => inf_times false (sign x)
  | PInf, PInf | NInf, NInf => PInf
  | PInf, NInf | NInf, PInf => NInf
  end.

Definition div (a b : num) : num :=
  match a, b with
  | NaN, _ | _, NaN => NaN
  | Fin x, Fin y =>
      match sign y with
      | Eq => inf_times true (sign x)
      | _ => Fin (x / y)
      end
  | Fin _, (PInf | NInf) => Fin 0
  | (PInf | NInf), (PInf | NInf) => NaN
  | PInf, Fin y => match sign y with Lt => NInf | _ => PInf end
  | NInf, Fin y => match sign y with Lt => PInf | _ => NInf end
  end.

(** Decimal digits of a natural number, as [String] prints them. *)
Definition digits (n : Z) : string :=
  NilZero.string_of_uint (N.to_uint (Z.to_N n)).

Fixpoint zeros (k : nat) : string :=
  match k with
  | O => EmptyString
  | S k' => String "0"%char (zeros k')
  end.

(** The integer [n] of [Number.prototype.toFixed]: the one for which
    [n / 10^f] is closest to the magnitude of [x], the larger one on a
    tie. *)
Definition toFixed_n (f : nat) (x : Q) : Z :=
  Qfloor (Qabs x * inject_Z (10 ^ Z.of_nat f) + (1 # 2)).

(** [x.toFixed(f)] for a finite [x] below 10^21. *)
Definition toFixedQ (f : nat) (x : Q) : string :=
  let n := toFixed_n f x in
  let m := digits n in
  let body :=
    match f with
    | O => m
    | _ =>
        let k := String.length m in
        let m' := if (k <=? f)%nat then append (zeros (f + 1 - k)) m else m in
        let k' := String.length m' in
        append (substring 0 (k' - f) m')
               (String "."%char (substring (k' - f) f m'))
    end in
  match Qcompare x 0 with
  | Lt => String "-"%char body
  | _ => body
  end.

Definition toFixed (f : nat) (x : num) : string :=
  match x with
  | Fin q => toFixedQ f q
  | PInf => "Infinity"%string
  | NInf => "-Infinity"%string
  | NaN => "NaN"%string
  end.

(** The number a [toFixed] string denotes. *)
Definition toFixed_value (f : nat) (x : Q) : Q :=
  let v := inject_Z (toFixed_n f x) / inject_Z (10 ^ Z.of_nat f) in
  match Qcompare x 0 with
  | Lt => - v
  | _ => v
  end.

(** *** [parseFloat] on strings

    The longest prefix of the trimmed string that is a StrDecimalLiteral:
    an optional sign, then [Infinity] or decimal digits with an optional
    fraction and an optional exponent.  No such prefix gives [NaN]. *)

Definition is_digit (c : N) : bool := ((48 <=? c) && (c <=? 57))%N.

Fixpoint span_digits (str : jsstring) : list N * jsstring :=
  match str with
  | c :: rest =>
      if is_digit c
      then let '(ds, tl) := span_digits rest in (c :: ds, tl)
      else ([], str)
  | [] => ([], [])
  end.

Definition digits_value (ds : list N) : Z :=
  fold_left (fun acc c => 10 * acc + (Z.of_N c - 48))%Z ds 0%Z.

Fixpoint starts_with (pre str : jsstring) : bool :=
  match pre, str with
  | [], _ => true
  | p :: pre', c :: str' => (p =? c)%N && starts_with pre' str'
  | _ :: _, [] => false
  end.

(** The exponent part, if a well-formed one follows. *)
Definition exponent (str : jsstring) : Z :=
  match str with
  | c :: rest =>
      if ((c =? 101) || (c =? 69))%N then      (* e, E *)
        let '(minus, rest') :=
          match rest with
          | sg :: tl =>
              if (sg =? 45)%N then (true, tl)          (* - *)
              else if (sg =? 43)%N then (false, tl)    (* + *)
              else (false, rest)
          | [] => (false, rest)
          end in
        let '(ds, _) := span_digits rest' in
        match ds with
        | [] => 0%Z
        | _ => if minus then (- digits_value ds)%Z else digits_value ds
        end
      else 0%Z
  | [] => 0%Z
  end.

(** The unsigned part. *)
Definition parse_unsigned (str : jsstring) : option Q :=
  let '(ip, rest) := span_digits str in
  let '(fp, rest') :=
    match rest with
    | c :: tl => if (c =? 46)%N then span_digits tl else ([], rest)   (* . *)
    | [] => ([], rest)
    end in
  match ip, fp with
  | [], [] => None
  | _, _ =>
      let mant := inject_Z (digits_value (ip ++ fp))
                  / inject_Z (10 ^ Z.of_nat (List.length fp)) in
      Some (Qred (mant * Qpower (10 # 1) (exponent rest')))
  end.

Definition parse_magnitude (str : jsstring) : num :=
  if starts_with (js "Infinity") str then PInf
  else match parse_unsigned str with
       | Some q => Fin q
       | None => NaN
       end.

Definition parseFloat_str (str : jsstring) : num :=
  match trimStart str with
  | c :: rest =>
      if (c =? 45)%N then neg (parse_magnitude rest)
      else if (c =? 43)%N then parse_magnitude rest
      else parse_magnitude (c :: rest)
  | [] => NaN
  end.

End JS.

(** ** 1. Utils *)

Module Utils.
Import JS.

Local Open Scope list_scope.
Local Open Scope Q_scope.

(** Regular expressions over code units, as far as the email pattern
    needs them, matched by derivatives. *)
Inductive regex : Type :=
| Void                                   (* matches nothing *)
| Eps                                    (* the empty string *)
| Class (p : N -> bool)                  (* one code unit satisfying [p] *)
| Seq (r1 r2 : regex)
| Alt (r1 r2 : regex)
| Star (r : regex).

(** [r+] and [r{2,}] *)
Definition Plus (r : regex) : regex := Seq r (Star r).
Definition AtLeast2 (r : regex) : regex := Seq r (Seq r (Star r)).

Fixpoint nullable (r : regex) : bool :=
  match r with
  | Void => false
  | Eps => true
  | Class _ => false
  | Seq r1 r2 => nullable r1 && nullable r2
  | Alt r1 r2 => nullable r1 || nullable r2
  | Star _ => true
  end.

Fixpoint deriv (c : N) (r : regex) : regex :=
  match r with
  | Void => Void
  | Eps => Void
  | Class p => if p c then Eps else Void
  | Seq r1 r2 =>
      if nullable r1
      then Alt (Seq (deriv c r1) r2) (deriv c r2)
      else Seq (deriv c r1) r2
  | Alt r1 r2 => Alt (deriv c r1) (deriv c r2)
  | Star r1 => Seq (deriv c r1) (Star r1)
  end.

(** [/^r$/.test(str)]: the whole string is in the language of [r]. *)
Definition test (r : regex) (str : jsstring) : bool :=
  nullable (fold_left (fun acc c => deriv c acc) str r).

(** [[^\s@]] *)
Definition not_space_at (c : N) : bool := negb (is_space c) && negb (c =? 64)%N.

Definition is_at (c : N) : bool := (c =? 64)%N.
Definition is_dot (c : N) : bool := (c =? 46)%N.

(** [/^[^\s@]+@[^\s@]+\.[^\s@]{2,}$/] *)
Definition email_pattern : regex :=
  Seq (Plus (Class not_space_at))
      (Seq (Class is_at)
           (Seq (Plus (Class not_space_at))
                (Seq (Class is_dot)
                     (AtLeast2 (Class not_space_at))))).

(** [isValidEmail] *)
Definition isValidEmail (email : jsstring) : bool :=
  test email_pattern (trim email).

(** [randBetween]; [u] is the value [Math.random()] returns, in [0, 1).
    Exact arithmetic; [Binary64.randBetween] and [Rounded.randBetween] are
    the same formula on doubles and under a rounding. *)
Definition randBetween (u min max : Q) : Q := u * (max - min) + min.

(** *** For comparison with the specification *)

(** The language of a regular expression. *)
Inductive lang : regex -> jsstring -> Prop :=
| LEps : lang Eps []
| LClass p c : p c = true -> lang (Class p) [c]
| LSeq r1 r2 s1 s2 : lang r1 s1 -> lang r2 s2 -> lang (Seq r1 r2) (s1 ++ s2)
| LAltL r1 r2 s1 : lang r1 s1 -> lang (Alt r1 r2) s1
| LAltR r1 r2 s2 : lang r2 s2 -> lang (Alt r1 r2) s2
| LStarNil r : lang (Star r) []
| LStarCons r s1 s2 : lang r s1 -> lang (Star r) s2 -> lang (Star r) (s1 ++ s2).

(** The shape the pattern accepts: [local @ domain . rest], none of the
    three parts containing whitespace or [@], [local] and [domain] not
    empty, [rest] of at least two code units. *)
Definition email_shape (str : jsstring) : Prop :=
  exists local domain rest : jsstring,
    str = local ++ [64%N] ++ domain ++ [46%N] ++ rest /\
    forallb not_space_at local = true /\
    forallb not_space_at domain = true /\
    forallb not_space_at rest = true /\
    local <> [] /\ domain <> [] /\ (2 <= List.length rest)%nat.

(** What follows the last dot of a string (the whole string if it has no
    dot). *)
Fixpoint after_last_dot (str : jsstring) : jsstring :=
  match str with
  | [] => []
  | c :: rest =>
      if existsb is_dot rest then after_last_dot rest
      else if is_dot c then rest else str
  end.

End Utils.

(** ** 2. OrbInit *)

Module OrbInit.
Import JS.

Local Open Scope Q_scope.

(** The two custom properties [init] sets on an element. *)
Record style : Type := {
  orb_duration : string;      (* --orb-duration *)
  orb_delay : string          (* --orb-delay *)
}.

(** The sampled values, before [toFixed]. *)
Definition sampled_duration (u : Q) : Q := Utils.randBetween u 10 26.
Definition sampled_delay (u : Q) : Q := Utils.randBetween u 0 12.

(** The body of the [forEach]: [u1] and [u2] are the two values
    [Math.random()] returns for this element. *)
Definition init_element (u1 u2 : Q) : style :=
  let duration := toFixedQ 1 (sampled_duration u1) in
  let delay := toFixedQ 1 (sampled_delay u2) in
  {| orb_duration := append duration "s";
     orb_delay := append "-" (append delay "s") |}.

(** [init]: one pair of random values per element matching '.orb, .geo'. *)
Definition init (randoms : list (Q * Q)) : list style :=
  map (fun '(u1, u2) => init_element u1 u2) randoms.

(** The durations the two property strings denote, in seconds. *)
Definition applied_duration (u1 : Q) : Q := toFixed_value 1 (sampled_duration u1).
Definition applied_delay (u2 : Q) : Q := - toFixed_value 1 (sampled_delay u2).

End OrbInit.

(** ** 3. ParallaxField *)

Module ParallaxField.
Import JS.

Local Open Scope list_scope.
Local Open Scope Q_scope.

(** An orb or geo node of the document. *)
Record element : Type := {
  depth_attr : option jsstring;     (* el.dataset.depth; None is undefined *)
  transform : string                (* el.style.transform *)
}.

(** Listeners and frame callbacks are compared by identity: the module's
    own functions, or somebody else's. *)
Inductive listener : Type := OnMouseMove | OnResize | ForeignListener (id : nat).
Inductive callback : Type := Animate | ForeignCallback (id : nat).

Definition listener_eqb (a b : listener) : bool :=
  match a, b with
  | OnMouseMove, OnMouseMove | OnResize, OnResize => true
  | ForeignListener i, ForeignListener j => Nat.eqb i j
  | _, _ => false
  end.

Definition is_animate (cb : callback) : bool :=
  match cb with
  | Animate => true
  | ForeignCallback _ => false
  end.

(** The window, the document and the module's variables. *)
Record world : Type := {
  innerWidth : num;
  innerHeight : num;
  hover_none : bool;                        (* matchMedia('(hover: none)').matches *)
  mousemove : list listener;                (* listeners of 'mousemove' *)
  resize : list listener;                   (* listeners of 'resize' *)
  frames : list (nat * callback);           (* pending animation frame requests *)
  next_frame : nat;                         (* the next request handle; never 0 *)
  nodes : list element;                     (* the '.orb' and '.geo' nodes *)
  elements : option (list nat);             (* indices into [nodes]; None is undefined *)
  cx : num;
  cy : num;
  currentX : num;
  currentY : num;
  targetX : num;
  targetY : num;
  rafId : option nat                        (* None is undefined *)
}.

(** A call either completes or throws. *)
Inductive error : Type := TypeError.

Inductive outcome : Type :=
| Done (w : world)
| Throws (e : error).

Definition bind (o : outcome) (k : world -> outcome) : outcome :=
  match o with
  | Done w => k w
  | Throws e => Throws e
  end.

Notation "x <- o ;; k" := (bind o (fun x => k))
  (at level 61, o at next level, right associativity).

(** *** Host operations *)

Definition set_listeners (mm rs : list listener) (w : world) : world :=
  {| innerWidth := innerWidth w; innerHeight := innerHeight w;
     hover_none := hover_none w; mousemove := mm; resize := rs;
     frames := frames w; next_frame := next_frame w; nodes := nodes w;
     elements := elements w; cx := cx w; cy := cy w;
     currentX := currentX w; currentY := currentY w;
     targetX := targetX w; targetY := targetY w; rafId := rafId w |}.

Definition set_frames (fs : list (nat * callback)) (nx : nat) (w : world) : world :=
  {| innerWidth := innerWidth w; innerHeight := innerHeight w;
     hover_none := hover_none w; mousemove := mousemove w; resize := resize w;
     frames := fs; next_frame := nx; nodes := nodes w;
     elements := elements w; cx := cx w; cy := cy w;
     currentX := currentX w; currentY := currentY w;
     targetX := targetX w; targetY := targetY w; rafId := rafId w |}.

Definition set_rafId (r : option nat) (w : world) : world :=
  {| innerWidth := innerWidth w; innerHeight := innerHeight w;
     hover_none := hover_none w; mousemove := mousemove w; resize := resize w;
     frames := frames w; next_frame := next_frame w; nodes := nodes w;
     elements := elements w; cx := cx w; cy := cy w;
     currentX := currentX w; currentY := currentY w;
     targetX := targetX w; targetY := targetY w; rafId := r |}.

Definition set_scene (ns : list element) (els : option (list nat)) (w : world) : world :=
  {| innerWidth := innerWidth w; innerHeight := innerHeight w;
     hover_none := hover_none w; mousemove := mousemove w; resize := resize w;
     frames := frames w; next_frame := next_frame w; nodes := ns;
     elements := els; cx := cx w; cy := cy w;
     currentX := currentX w; currentY := currentY w;
     targetX := targetX w; targetY := targetY w; rafId := rafId w |}.

Definition set_centre (x y : num) (w : world) : world :=
  {| innerWidth := innerWidth w; innerHeight := innerHeight w;
     hover_none := hover_none w; mousemove := mousemove w; resize := resize w;
     frames := frames w; next_frame := next_frame w; nodes := nodes w;
     elements := elements w; cx := x; cy := y;
     currentX := currentX w; currentY := currentY w;
     targetX := targetX w; targetY := targetY w; rafId := rafId w |}.

Definition set_current (x y : num) (w : world) : world :=
  {| innerWidth := innerWidth w; innerHeight := innerHeight w;
     hover_none := hover_none w; mousemove := mousemove w; resize := resize w;
     frames := frames w; next_frame := next_frame w; nodes := nodes w;
     elements := elements w; cx := cx w; cy := cy w;
     currentX := x; currentY := y;
     targetX := targetX w; targetY := targetY w; rafId := rafId w |}.

Definition set_target (x y : num) (w : world) : world :=
  {| innerWidth := innerWidth w; innerHeight := innerHeight w;
     hover_none := hover_none w; mousemove := mousemove w; resize := resize w;
     frames := frames w; next_frame := next_frame w; nodes := nodes w;
     elements := elements w; cx := cx w; cy := cy w;
     currentX := currentX w; currentY := currentY w;
     targetX := x; targetY := y; rafId := rafId w |}.

Definition set_size (wd ht : num) (w : world) : world :=
  {| innerWidth := wd; innerHeight := ht;
     hover_none := hover_none w; mousemove := mousemove w; resize := resize w;
     frames := frames w; next_frame := next_frame w; nodes := nodes w;
     elements := elements w; cx := cx w; cy := cy w;
     currentX := currentX w; currentY := currentY w;
     targetX := targetX w; targetY := targetY w; rafId := rafId w |}.

(** [addEventListener]: a listener already registered is not added again. *)
Definition add_listener (l : listener) (ls : list listener) : list listener :=
  if existsb (listener_eqb l) ls then ls else ls ++ [l].

(** [removeEventListener]: nothing happens if the listener is not
    registered.  Listeners are matched by type, callback and capture flag,
    so the [passive] option given at registration plays no part. *)
Definition remove_listener (l : listener) (ls : list listener) : list listener :=
  filter (fun l' => negb (listener_eqb l l')) ls.

(** [requestAnimationFrame(cb)]: returns a fresh handle. *)
Definition requestAnimationFrame (cb : callback) (w : world) : nat * world :=
  let hd := next_frame w in
  (hd, set_frames (frames w ++ [(hd, cb)]) (S hd) w).

(** [cancelAnimationFrame(h)]: [undefined] converts to the handle 0, which
    no request has. *)
Definition cancelAnimationFrame (hd : option nat) (w : world) : world :=
  match hd with
  | None => w
  | Some i => set_frames (filter (fun f => negb (Nat.eqb (fst f) i)) (frames w))
                         (next_frame w) w
  end.

(** *** The module *)

(** [const LERP = 0.065] *)
Definition LERP : num := Fin (65 # 1000).

(** [const lerp = (a, b, t) => a + (b - a) * t].  Exact arithmetic;
    [Binary64.lerp] and [Rounded.lerp] are the same formula on doubles and
    under a rounding. *)
Definition lerp (a b t : num) : num := add a (mul (sub b a) t).

(** [parseFloat(el.dataset.depth || 0.05)]: an undefined or empty attribute
    is falsy and gives way to the number 0.05, which [parseFloat] turns
    into the string "0.05" before parsing it. *)
Definition depth_of (el : element) : num :=
  match depth_attr el with
  | Some (c :: rest) => parseFloat_str (c :: rest)
  | Some [] | None => parseFloat_str (js "0.05")
  end.

(** The pixel offsets of an element and the transform written to it. *)
Definition offset (current : num) (el : element) : num :=
  mul (mul current (depth_of el)) (Fin 80).

Definition translate3d (dx dy : num) : string :=
  append "translate3d("
    (append (toFixed 2 dx) (append "px, " (append (toFixed 2 dy) "px, 0)"))).

Definition place (curX curY : num) (el : element) : element :=
  {| depth_attr := depth_attr el;
     transform := translate3d (offset curX el) (offset curY el) |}.

Fixpoint update_nth {A : Type} (i : nat) (f : A -> A) (l : list A) : list A :=
  match l, i with
  | [], _ => []
  | x :: tl, O => f x :: tl
  | x :: tl, S i' => x :: update_nth i' f tl
  end.

(** [animate]: calling [forEach] on an undefined [elements] throws. *)
Definition animate (w : world) : outcome :=
  let w1 := set_current (lerp (currentX w) (targetX w) LERP)
                        (lerp (currentY w) (targetY w) LERP) w in
  match elements w1 with
  | None => Throws TypeError
  | Some idx =>
      let ns := fold_left
                  (fun acc i => update_nth i (place (currentX w1) (currentY w1)) acc)
                  idx (nodes w1) in
      let w2 := set_scene ns (elements w1) w1 in
      let '(hd, w3) := requestAnimationFrame Animate w2 in
      Done (set_rafId (Some hd) w3)
  end.

(** [onMouseMove] *)
Definition onMouseMove (clientX clientY : num) (w : world) : world :=
  set_target (div (sub clientX (cx w)) (cx w))
             (div (sub clientY (cy w)) (cy w)) w.

(** [onResize] *)
Definition onResize (w : world) : world :=
  set_centre (div (innerWidth w) (Fin 2)) (div (innerHeight w) (Fin 2)) w.

(** [isTouchOnly] *)
Definition isTouchOnly (w : world) : bool := hover_none w.

(** The indices of the nodes that carry a [data-depth] attribute. *)
Fixpoint tagged_from (i : nat) (ns : list element) : list nat :=
  match ns with
  | [] => []
  | el :: tl =>
      match depth_attr el with
      | Some _ => i :: tagged_from (S i) tl
      | None => tagged_from (S i) tl
      end
  end.

(** [init] *)
Definition init (w : world) : outcome :=
  let idx := tagged_from 0 (nodes w) in
  let w1 := set_scene (nodes w) (Some idx) w in
  match idx with
  | [] => Done w1
  | _ :: _ =>
      if isTouchOnly w1 then Done w1
      else
        let w2 := set_listeners (add_listener OnMouseMove (mousemove w1))
                                (resize w1) w1 in
        let w3 := set_listeners (mousemove w2)
                                (add_listener OnResize (resize w2)) w2 in
        let '(hd, w4) := requestAnimationFrame Animate w3 in
        Done (set_rafId (Some hd) w4)
  end.

(** [destroy] *)
Definition destroy (w : world) : outcome :=
  let w1 := set_listeners (remove_listener OnMouseMove (mousemove w)) (resize w) w in
  let w2 := set_listeners (mousemove w1) (remove_listener OnResize (resize w1)) w1 in
  Done (cancelAnimationFrame (rafId w2) w2).

(** *** The page around the module *)

(** The module as the script's top level leaves it, on a window of the
    given size with the given nodes. *)
Definition loaded (wd ht : num) (touch : bool) (ns : list element) : world :=
  {| innerWidth := wd; innerHeight := ht; hover_none := touch;
     mousemove := []; resize := []; frames := []; next_frame := 1%nat;
     nodes := ns; elements := None;
     cx := div wd (Fin 2); cy := div ht (Fin 2);
     currentX := Fin 0; currentY := Fin 0; targetX := Fin 0; targetY := Fin 0;
     rafId := None |}.

(** What happens on the page after [DOMContentLoaded]. *)
Inductive event : Type :=
| Frame                               (* the browser runs a pending frame request *)
| MouseMove (clientX clientY : num)
| Resize (wd ht : num)
| Destroy.                            (* somebody calls ParallaxField.destroy() *)

(** The first pending request for [animate], if any. *)
Definition pending_animate (w : world) : option nat :=
  match filter (fun f => is_animate (snd f)) (frames w) with
  | [] => None
  | f :: _ => Some (fst f)
  end.

Definition step (ev : event) (w : world) : outcome :=
  match ev with
  | Frame =>
      match pending_animate w with
      | Some hd =>
          animate (set_frames (filter (fun f => negb (Nat.eqb (fst f) hd)) (frames w))
                              (next_frame w) w)
      | None => Done w
      end
  | MouseMove x y =>
      if existsb (listener_eqb OnMouseMove) (mousemove w)
      then Done (onMouseMove x y w) else Done w
  | Resize wd ht =>
      let w1 := set_size wd ht w in
      if existsb (listener_eqb OnResize) (resize w1)
      then Done (onResize w1) else Done w1
  | Destroy => destroy w
  end.

Fixpoint run (evs : list event) (w : world) : outcome :=
  match evs with
  | [] => Done w
  | ev :: rest => w' <- step ev w ;; run rest w'
  end.

(** A page session: the boot sequence calls [init] once (or, with
    [boot = false], not at all), then events arrive. *)
Definition session (boot : bool) (evs : list event) (w : world) : outcome :=
  if boot then (w' <- init w ;; run evs w') else run evs w.

(** The world a call leaves behind; [w] if it threw. *)
Definition after (o : outcome) (w : world) : world :=
  match o with
  | Done w' => w'
  | Throws _ => w
  end.

(** [n] frames in a row, nothing else happening in between. *)
Definition frames_run (n : nat) (w : world) : outcome :=
  run (repeat Frame n) w.

(** Repeated interpolation toward a constant target. *)
Fixpoint lerp_iter (n : nat) (a b t : num) : num :=
  match n with
  | O => a
  | S n' => lerp (lerp_iter n' a b t) b t
  end.

(** The same on rationals. *)
Definition lerpQ (a b t : Q) : Q := a + (b - a) * t.

Fixpoint lerpQ_iter (n : nat) (a b t : Q) : Q :=
  match n with
  | O => a
  | S n' => lerpQ (lerpQ_iter n' a b t) b t
  end.

(** The distance to the target after [n] steps. *)
Definition distance (n : nat) (a b t : Q) : Q := Qabs (lerpQ_iter n a b t - b).

(** *** The two states of the frame loop *)


(** Exactly one request is pending: the one [rafId] remembers, for
    [animate], with [elements] assigned. *)
Definition looping (w : world) : Prop :=
  exists hd idx,
    frames w = [(hd, Animate)] /\ rafId w = Some hd /\ elements w = Some idx.

End ParallaxField.

(** ** 4. SubscribeForm *)

Module SubscribeForm.
Import JS.

Local Open Scope list_scope.

(** The message element's modifier class: [is-success] or [is-error]. *)
Inductive kind : Type := Success | Error.

Record input : Type := {
  value : jsstring;                 (* emailInput.value *)
  focused : bool                    (* emailInput.focus() was the last focus change *)
}.

Record field : Type := {
  is_valid : bool;                  (* fieldWrap.classList has 'is-valid' *)
  is_error : bool                   (* fieldWrap.classList has 'is-error' *)
}.

Record message : Type := {
  text : jsstring;                  (* messageEl.textContent *)
  modifier : option kind;           (* 'is-success' or 'is-error' *)
  visible : bool                    (* 'is-visible' *)
}.

Record button : Type := {
  disabled : bool;                  (* submitBtn.disabled *)
  label : jsstring                  (* text of '.subscribe-form__btn-text' *)
}.

Record form : Type := {
  emailInput : input;
  fieldWrap : field;
  messageEl : message;
  submitBtn : button;
  sent : list jsstring              (* the arguments of the calls to the remote, latest first *)
}.

(** The outcome of awaiting the remote call. *)
Inductive reply : Type :=
| Resolved (ok : bool) (msg : jsstring)   (* the promise resolves to { ok, message } *)
| Rejected                                (* the promise rejects *)
| Threw.                                  (* the call itself throws *)

Definition with_input (x : input) (st : form) : form :=
  {| emailInput := x; fieldWrap := fieldWrap st; messageEl := messageEl st;
     submitBtn := submitBtn st; sent := sent st |}.

Definition with_field (x : field) (st : form) : form :=
  {| emailInput := emailInput st; fieldWrap := x; messageEl := messageEl st;
     submitBtn := submitBtn st; sent := sent st |}.

Definition with_message (x : message) (st : form) : form :=
  {| emailInput := emailInput st; fieldWrap := fieldWrap st; messageEl := x;
     submitBtn := submitBtn st; sent := sent st |}.

Definition with_button (x : button) (st : form) : form :=
  {| emailInput := emailInput st; fieldWrap := fieldWrap st; messageEl := messageEl st;
     submitBtn := x; sent := sent st |}.

Definition with_sent (x : list jsstring) (st : form) : form :=
  {| emailInput := emailInput st; fieldWrap := fieldWrap st; messageEl := messageEl st;
     submitBtn := submitBtn st; sent := x |}.

(** The literals of the script. *)
Definition ellipsis : jsstring := [8230%N].
Definition msg_empty : jsstring := js "Please enter your email address.".
Definition msg_invalid : jsstring := js "Please enter a valid email address.".
Definition msg_sending : jsstring := js "Sending" ++ ellipsis.
Definition msg_transmitting : jsstring :=
  js "Transmitting signal into the cosmos" ++ ellipsis.
Definition msg_connection : jsstring :=
  js "Connection lost. Please check your network and retry.".
Definition msg_notify : jsstring := js "Notify Me".

(** [setMessage(text, type)]; the empty type is [None]. *)
Definition setMessage (txt : jsstring) (type : option kind) (st : form) : form :=
  with_message
    {| text := txt; modifier := type;
       visible := match type with Some _ => true | None => false end |} st.

(** [resetState] *)
Definition resetState (st : form) : form :=
  setMessage [] None (with_field {| is_valid := false; is_error := false |} st).

Definition add_is_error (st : form) : form :=
  with_field {| is_valid := is_valid (fieldWrap st); is_error := true |} st.

Definition add_is_valid (st : form) : form :=
  with_field {| is_valid := true; is_error := is_error (fieldWrap st) |} st.

Definition focus (st : form) : form :=
  with_input {| value := value (emailInput st); focused := true |} st.

(** A validation failure: the field is marked, the message shown, the
    input focused, and the handler returns. *)
Definition reject_input (msg : jsstring) (st : form) : form :=
  focus (setMessage msg (Some Error) (add_is_error st)).

(** The loading state, up to the call of the remote. *)
Definition loading (email : jsstring) (st : form) : form :=
  let st1 := with_button {| disabled := true; label := msg_sending |} st in
  let st2 := setMessage msg_transmitting None st1 in
  let st3 := with_message {| text := text (messageEl st2);
                             modifier := modifier (messageEl st2);
                             visible := true |} st2 in
  with_sent (email :: sent st3) st3.

(** The [try] and [catch] blocks, once the remote call has settled. *)
Definition handle (r : reply) (st : form) : form :=
  match r with
  | Resolved true msg =>
      let st1 := setMessage msg (Some Success) (add_is_valid st) in
      with_input {| value := []; focused := focused (emailInput st1) |} st1
  | Resolved false msg =>
      setMessage msg (Some Error) (add_is_error st)
  | Rejected | Threw =>
      setMessage msg_connection (Some Error) (add_is_error st)
  end.

(** The [finally] block. *)
Definition cleanup (st : form) : form :=
  with_button {| disabled := false; label := msg_notify |} st.

(** [onSubmit], with the remote call given by [remote]. *)
Definition onSubmit (remote : jsstring -> reply) (st : form) : form :=
  let st0 := resetState st in
  let email := trim (value (emailInput st0)) in
  match email with
  | [] => reject_input msg_empty st0
  | _ :: _ =>
      if negb (Utils.isValidEmail email) then reject_input msg_invalid st0
      else cleanup (handle (remote email) (loading email st0))
  end.

(** [sendToApi] as shipped: a mock that succeeds when the random draw [u]
    exceeds 0.05. *)
Definition sendToApi (u : Q) (email : jsstring) : reply :=
  if Qle_bool u (5 # 100)
  then Resolved false
         (js "Oops " ++ [8212%N] ++ js " something went wrong. Please try again.")
  else Resolved true
         (js "You're on the list! We'll notify " ++ email ++ js " at launch. "
          ++ [55357%N; 56960%N]).

(** A form as the page shows it before any submission, with [txt] typed into
    the input and [lbl] on the button. *)
Definition fresh (txt lbl : jsstring) : form :=
  {| emailInput := {| value := txt; focused := false |};
     fieldWrap := {| is_valid := false; is_error := false |};
     messageEl := {| text := []; modifier := None; visible := false |};
     submitBtn := {| disabled := false; label := lbl |};
     sent := [] |}.

End SubscribeForm.

(* ================================================================== *)
(** * Further definitions *)
(* ================================================================== *)

(** ** Sessions of the countdown *)

Module CountdownSessions.
Import Countdown.

Local Open Scope string_scope.
Local Open Scope list_scope.
Local Open Scope Z_scope.

(** Whether [init] finds everything it looks up. *)
Definition complete (doc : document) : bool :=
  has_container doc && has_days doc && has_hours doc
  && has_mins doc && has_secs doc.

(** Clock readings with a valid target date: pairs of the target's time
    value and [Date.now()]. *)
Definition valid_readings (clock : list (Z * Z)) : list (num * Z) :=
  map (fun r => (Int (fst r), snd r)) clock.

(** A reading at which the countdown is still running. *)
Definition running (r : Z * Z) : Prop := 0 < fst r - snd r.

(** The two-digit texts of a set of components, days first. *)
Definition shown (p : prev_t) : string * string * string * string :=
  (pad2 (d p), pad2 (h p), pad2 (m p), pad2 (s p)).

(** An effect that writes to one of the four digit elements. *)
Definition digit_effect (e : effect) : Prop := target_of e <> None.

(** The page once the Finished branch has run. *)
Definition launched (w : world) : Prop :=
  intervals w = [] /\
  texts w = ("00", "00", "00", "00") /\
  ariaLabel w = Some "We have launched!".

(** The page while the timer is scheduled under the handle [init] got. *)
Definition scheduled (w : world) : Prop :=
  intervals w = [1%nat] /\ intervalId (clo w) = Some 1%nat.

(** Every digit element shows the two-digit text of the component the
    closure remembers for it. *)
Definition in_step (w : world) : Prop :=
  forall el, textContent (get el w) = pad2 (component el (prev (clo w))).

End CountdownSessions.

(** ** Sessions of the parallax field *)

Module ParallaxSessions.
Import JS ParallaxField.

Local Open Scope list_scope.
Local Open Scope Q_scope.

(** A finite number between -1 and 1. *)
Definition normalised (x : num) : Prop :=
  exists q, x = Fin q /\ -1 <= q <= 1.

(** The nodes still carry the depth attributes of [ns], and those of them
    without the attribute are as they were in [ns]. *)
Definition scene_kept (ns : list element) (w : world) : Prop :=
  map depth_attr (nodes w) = map depth_attr ns /\
  (forall idx, elements w = Some idx -> idx = tagged_from 0 ns) /\
  (forall i el, nth_error ns i = Some el -> depth_attr el = None ->
                nth_error (nodes w) i = Some el).

(** Both of the module's listeners are registered. *)
Definition attached (w : world) : Prop :=
  In OnMouseMove (mousemove w) /\ In OnResize (resize w).

(** The world [init] leaves when it starts the effect, with [idx] the
    indices of the tagged nodes. *)
Definition started (idx : list nat) (w : world) : world :=
  let w1 := set_scene (nodes w) (Some idx) w in
  let w2 := set_listeners (add_listener OnMouseMove (mousemove w1))
                          (resize w1) w1 in
  let w3 := set_listeners (mousemove w2)
                          (add_listener OnResize (resize w2)) w2 in
  set_rafId (Some (next_frame w3)) (snd (requestAnimationFrame Animate w3)).

End ParallaxSessions.

(** ** 5. GearSwitcher *)

Module GearSwitcher.
Import JS.

Local Open Scope list_scope.

(** A link of the panel: its [href] attribute ([None] when
    [getAttribute] returns null) and whether it carries [is-active]. *)
Record link : Type := {
  href : option jsstring;
  is_active : bool
}.

Record state : Type := {
  has_btn : bool;                    (* getElementById('gearBtn') found an element *)
  has_panel : bool;                  (* getElementById('gearPanel') found an element *)
  is_open : bool;                    (* switcher.classList has 'is-open' *)
  aria_expanded : option jsstring;   (* the button's attribute *)
  aria_hidden : option jsstring;     (* the panel's attribute *)
  links : list link;                 (* the panel's '.gear-switcher__item' elements *)
  btn_click : bool;                  (* the button's click listener is registered *)
  doc_click : bool;                  (* the document's click listener is registered *)
  doc_keydown : bool                 (* the document's keydown listener is registered *)
}.

(** A call completes, or throws a TypeError on a null element, in the
    state reached until then. *)
Inductive result : Type :=
| Done (st : state)
| Throws (st : state).

Definition after (r : result) : state :=
  match r with
  | Done st => st
  | Throws st => st
  end.

Definition set_open (b : bool) (st : state) : state :=
  {| has_btn := has_btn st; has_panel := has_panel st; is_open := b;
     aria_expanded := aria_expanded st; aria_hidden := aria_hidden st;
     links := links st; btn_click := btn_click st; doc_click := doc_click st;
     doc_keydown := doc_keydown st |}.

Definition set_expanded (a : jsstring) (st : state) : state :=
  {| has_btn := has_btn st; has_panel := has_panel st; is_open := is_open st;
     aria_expanded := Some a; aria_hidden := aria_hidden st;
     links := links st; btn_click := btn_click st; doc_click := doc_click st;
     doc_keydown := doc_keydown st |}.

Definition set_hidden (a : jsstring) (st : state) : state :=
  {| has_btn := has_btn st; has_panel := has_panel st; is_open := is_open st;
     aria_expanded := aria_expanded st; aria_hidden := Some a;
     links := links st; btn_click := btn_click st; doc_click := doc_click st;
     doc_keydown := doc_keydown st |}.

Definition set_links (ls : list link) (st : state) : state :=
  {| has_btn := has_btn st; has_panel := has_panel st; is_open := is_open st;
     aria_expanded := aria_expanded st; aria_hidden := aria_hidden st;
     links := ls; btn_click := btn_click st; doc_click := doc_click st;
     doc_keydown := doc_keydown st |}.

Definition set_wired (b d k : bool) (st : state) : state :=
  {| has_btn := has_btn st; has_panel := has_panel st; is_open := is_open st;
     aria_expanded := aria_expanded st; aria_hidden := aria_hidden st;
     links := links st; btn_click := b; doc_click := d; doc_keydown := k |}.

(** [String(b)] *)
Definition String_bool (b : bool) : jsstring :=
  if b then js "true" else js "false".

Fixpoint jsstring_eqb (a b : jsstring) : bool :=
  match a, b with
  | [], [] => true
  | x :: a', y :: b' => (x =? y)%N && jsstring_eqb a' b'
  | _, _ => false
  end.

(** [str.split('/').pop()]: what follows the last slash, the whole string
    if it has none. *)
Fixpoint last_segment (str : jsstring) : jsstring :=
  match str with
  | [] => []
  | c :: rest =>
      if existsb (N.eqb 47) rest then last_segment rest
      else if (c =? 47)%N then rest else str
  end.

(** [btn.setAttribute('aria-expanded', a); panel.setAttribute('aria-hidden', b)] *)
Definition set_aria (expanded hidden : jsstring) (st : state) : result :=
  if has_btn st then
    let st1 := set_expanded expanded st in
    if has_panel st1 then Done (set_hidden hidden st1) else Throws st1
  else Throws st.

(** [toggle] *)
Definition toggle (st : state) : result :=
  let isOpen := negb (is_open st) in
  set_aria (String_bool isOpen) (String_bool (negb isOpen)) (set_open isOpen st).

(** [close] *)
Definition close (st : state) : result :=
  set_aria (js "false") (js "true") (set_open false st).

(** The body of [highlightCurrentPage]'s [forEach], link by link; the
    flag tells whether a link without [href] made [split] throw. *)
Fixpoint mark (currentFile : jsstring) (ls : list link) : list link * bool :=
  match ls with
  | [] => ([], false)
  | l :: rest =>
      match href l with
      | None => (l :: rest, true)
      | Some target =>
          let l' := {| href := href l;
                       is_active := jsstring_eqb (last_segment target) currentFile |} in
          let '(rest', threw) := mark currentFile rest in
          (l' :: rest', threw)
      end
  end.

(** [window.location.pathname.split('/').pop() || 'index-01.html'] *)
Definition current_file (pathname : jsstring) : jsstring :=
  match last_segment pathname with
  | [] => js "index-01.html"
  | c :: rest => c :: rest
  end.

(** [highlightCurrentPage] *)
Definition highlightCurrentPage (pathname : jsstring) (st : state) : result :=
  if has_panel st then
    let '(ls, threw) := mark (current_file pathname) (links st) in
    if threw then Throws (set_links ls st) else Done (set_links ls st)
  else Throws st.

(** [init]; [has_switcher] tells whether 'gearSwitcher' exists. *)
Definition init (has_switcher : bool) (pathname : jsstring) (st : state) : result :=
  if negb has_switcher then Done st
  else if negb (has_btn st) then Throws st
  else highlightCurrentPage pathname (set_wired true true true st).

(** Where a click lands: inside the button, and inside the switcher's
    root ([switcher.contains(e.target)]). *)
Record click : Type := {
  on_button : bool;
  in_switcher : bool
}.

Inductive event : Type :=
| Click (c : click)
| KeyDown (key : jsstring).

(** A click inside the button reaches the button's listener, which stops
    the propagation before toggling; any other click bubbles to the
    document's listener. *)
Definition dispatch (ev : event) (st : state) : result :=
  match ev with
  | Click c =>
      if on_button c && btn_click st then toggle st
      else if doc_click st then
        (if negb (in_switcher c) then close st else Done st)
      else Done st
  | KeyDown key =>
      if doc_keydown st then
        (if jsstring_eqb key (js "Escape") then close st else Done st)
      else Done st
  end.

(** Events one after the other; an exception in a listener does not keep
    later events from being dispatched. *)
Fixpoint run (evs : list event) (st : state) : state :=
  match evs with
  | [] => st
  | ev :: rest => run rest (after (dispatch ev st))
  end.

(** *** For the statements *)

(** The switcher as the markup has it, found complete. *)
Definition markup (expanded hidden : option jsstring) (ls : list link) : state :=
  {| has_btn := true; has_panel := true; is_open := false;
     aria_expanded := expanded; aria_hidden := hidden; links := ls;
     btn_click := false; doc_click := false; doc_keydown := false |}.

(** Button and panel exist and the three listeners are registered. *)
Definition ready (st : state) : Prop :=
  has_btn st = true /\ has_panel st = true /\
  btn_click st = true /\ doc_click st = true /\ doc_keydown st = true.

(** The two accessibility attributes say what the class says. *)
Definition mirrored (st : state) : Prop :=
  aria_expanded st = Some (String_bool (is_open st)) /\
  aria_hidden st = Some (String_bool (negb (is_open st))).

(** What the specification says an event does to the panel. *)
Definition next_open (b : bool) (ev : event) : bool :=
  match ev with
  | Click c => if on_button c then negb b
               else if in_switcher c then b else false
  | KeyDown key => if jsstring_eqb key (js "Escape") then false else b
  end.

(** An event that toggles or closes. *)
Definition effective (ev : event) : Prop :=
  match ev with
  | Click c => on_button c = true \/ in_switcher c = false
  | KeyDown key => jsstring_eqb key (js "Escape") = true
  end.

(** The file a link points to. *)
Definition link_file (l : link) : option jsstring :=
  option_map last_segment (href l).

End GearSwitcher.

(** ** 6. CopyrightYear *)

Module CopyrightYear.

(** [init]: [year] is [new Date().getFullYear()], [txt] the text of the
    'copyrightYear' element, if there is one. *)
Definition init (year : Z) (txt : option string) : option string :=
  match txt with
  | Some _ => Some (NilZero.string_of_int (Z.to_int year))
  | None => None
  end.

End CopyrightYear.

(** ** 7. Boot *)

Module Boot.
Import JS.

Local Open Scope list_scope.

(** The listeners [SubscribeForm.init] registers. *)
Record form_wiring : Type := {
  has_emailInput : bool;             (* getElementById('emailInput') found an element *)
  submit_listener : bool;            (* on the form *)
  input_listener : bool              (* on the email input *)
}.

(** The page as far as the boot sequence reaches it. *)
Record page : Type := {
  orb_styles : list OrbInit.style;   (* the custom properties of the orbs and geos *)
  parallax : ParallaxField.world;
  form : form_wiring;
  gear : GearSwitcher.state;
  year_text : option string          (* the text of 'copyrightYear', if present *)
}.

(** What the boot sequence reads from its surroundings. *)
Record surroundings : Type := {
  randoms : list (Q * Q);            (* the draws of [Math.random], two per orb *)
  has_form : bool;                   (* 'subscribeForm' exists *)
  has_switcher : bool;               (* 'gearSwitcher' exists *)
  pathname : jsstring;               (* window.location.pathname *)
  year : Z                           (* new Date().getFullYear() *)
}.

Inductive result : Type :=
| Done (p : page)
| Throws (p : page).

(** [SubscribeForm.init] *)
Definition form_init (present : bool) (f : form_wiring) : form_wiring * bool :=
  if negb present then (f, false)
  else
    let f1 := {| has_emailInput := has_emailInput f; submit_listener := true;
                 input_listener := input_listener f |} in
    if has_emailInput f1
    then ({| has_emailInput := has_emailInput f1; submit_listener := submit_listener f1;
             input_listener := true |}, false)
    else (f1, true).

(** The [DOMContentLoaded] handler of main.js: the five [init] calls in
    order; an exception leaves the handler. *)
Definition boot (env : surroundings) (p : page) : result :=
  let p1 := {| orb_styles := OrbInit.init (randoms env); parallax := parallax p;
               form := form p; gear := gear p; year_text := year_text p |} in
  match ParallaxField.init (parallax p1) with
  | ParallaxField.Throws _ => Throws p1
  | ParallaxField.Done w =>
      let p2 := {| orb_styles := orb_styles p1; parallax := w;
                   form := form p1; gear := gear p1; year_text := year_text p1 |} in
      let '(f, threw) := form_init (has_form env) (form p2) in
      let p3 := {| orb_styles := orb_styles p2; parallax := parallax p2;
                   form := f; gear := gear p2; year_text := year_text p2 |} in
      if threw then Throws p3
      else
        match GearSwitcher.init (has_switcher env) (pathname env) (gear p3) with
        | GearSwitcher.Throws g =>
            Throws {| orb_styles := orb_styles p3; parallax := parallax p3;
                      form := form p3; gear := g; year_text := year_text p3 |}
        | GearSwitcher.Done g =>
            Done {| orb_styles := orb_styles p3; parallax := parallax p3;
                    form := form p3; gear := g;
                    year_text := CopyrightYear.init (year env) (year_text p3) |}
        end
  end.

End Boot.

(** ** The arithmetic helpers on binary64 numbers *)

Module Binary64.
Import PrimFloat.

Local Open Scope float_scope.

(** [const LERP = 0.065]: the double nearest to 0.065. *)
Definition LERP : float := 0x1.0a3d70a3d70a4p-4.

(** [const lerp = (a, b, t) => a + (b - a) * t], every operation rounded
    to binary64. *)
Definition lerp (a b t : float) : float := a + (b - a) * t.

(** The current offset after [n] frames with a constant target. *)
Fixpoint lerp_iter (n : nat) (a b t : float) : float :=
  match n with
  | O => a
  | S n' => lerp (lerp_iter n' a b t) b t
  end.

(** [const randBetween = (min, max) => Math.random() * (max - min) + min],
    with [u] the value [Math.random()] returns. *)
Definition randBetween (u min max : float) : float := u * (max - min) + min.

(** The largest value [Math.random()] can return: 1 - 2^-53. *)
Definition largest_draw : float := 0x1.fffffffffffffp-1.


(** The bounds [OrbInit.init] samples between. *)
Definition ten : float := 10.
Definition twelve : float := 12.
Definition twenty_six : float := 26.




End Binary64.

(** ** The arithmetic helpers under an arbitrary rounding *)

(** Between the exact formulas and one concrete run on doubles: the two
    helpers with every operation followed by a rounding [rnd] of
    rationals, of which only the properties collected in [faithful] are
    used.  Rounding to the nearest double has them on the range the
    scripts work in, and so has exact arithmetic, where [rnd] changes
    nothing. *)
Module Rounded.

Local Open Scope Q_scope.

(** [a + (b - a) * t] *)
Definition lerp (rnd : Q -> Q) (a b t : Q) : Q := rnd (a + rnd (rnd (b - a) * t)).

Fixpoint lerp_iter (rnd : Q -> Q) (n : nat) (a b t : Q) : Q :=
  match n with
  | O => a
  | S n' => lerp rnd (lerp_iter rnd n' a b t) b t
  end.

(** [Math.random() * (max - min) + min] *)
Definition randBetween (rnd : Q -> Q) (u min max : Q) : Q :=
  rnd (rnd (u * rnd (max - min)) + min).

(** A rounding keeps the order, keeps zero, and moves a value by no more
    than the value itself. *)
Record faithful (rnd : Q -> Q) : Prop := {
  rnd_mono : forall x y, x <= y -> rnd x <= rnd y;
  rnd_zero : rnd 0 == 0;
  rnd_idem : forall x, rnd (rnd x) == rnd x;
  rnd_pos : forall x, 0 <= x -> rnd x <= 2 * x;
  rnd_neg : forall x, x <= 0 -> 2 * x <= rnd x
}.

(** A value the rounding leaves as it is. *)
Definition representable (rnd : Q -> Q) (x : Q) : Prop := rnd x == x.

(** Exact arithmetic. *)
Definition exact (x : Q) : Q := x.

(** The orb initializer over it: the sampled values, and the body of the
    [forEach] for the two draws [u1] and [u2]. *)
Definition sampled_duration (rnd : Q -> Q) (u : Q) : Q := randBetween rnd u 10 26.
Definition sampled_delay (rnd : Q -> Q) (u : Q) : Q := randBetween rnd u 0 12.

Definition init_element (rnd : Q -> Q) (u1 u2 : Q) : OrbInit.style :=
  let duration := JS.toFixedQ 1 (sampled_duration rnd u1) in
  let delay := JS.toFixedQ 1 (sampled_delay rnd u2) in
  {| OrbInit.orb_duration := append duration "s";
     OrbInit.orb_delay := append "-" (append delay "s") |}.

End Rounded.

(** ** What the countdown displays *)

Module CountdownRendering.
Import Countdown CountdownSessions.

Local Open Scope string_scope.
Local Open Scope list_scope.
Local Open Scope Z_scope.

(** The character of a decimal digit. *)
Definition digit (k : Z) : ascii := ascii_of_nat (48 + Z.to_nat k).

(** A number zero-padded to two digits, as the specification words it:
    tens and units below 100, and the plain decimal numeral from 100 on. *)
Definition two_digits (n : Z) : string :=
  if n <? 100
  then String (digit (n / 10)) (String (digit (n mod 10)) "")
  else String_ (Int n).

(** The four displays for [R] remaining seconds, days first. *)
Definition spec_display (R : Z) : string * string * string * string :=
  (two_digits (R / 86400),
   two_digits ((R mod 86400) / 3600),
   two_digits ((R mod 3600) / 60),
   two_digits (R mod 60)).

(** Every digit element shows what the closure remembers for it, unless
    the closure still holds the initial [-1]. *)
Definition synced (w : world) : Prop :=
  forall el,
    component el (prev (clo w)) = Int (-1) \/
    textContent (get el w) = pad2 (component el (prev (clo w))).

(** The page after [init] and after any timer firings: the timer is
    scheduled and the displays are in step, or the countdown has ended. *)
Definition settled (w : world) : Prop :=
  (scheduled w /\ synced w) \/ launched w.

End CountdownRendering.

(** ** What the orb initializer writes *)

Module OrbReading.

Local Open Scope string_scope.
Local Open Scope Z_scope.

(** The value of a decimal digit character. *)
Definition digit_value (c : ascii) : option Z :=
  let k := Z.of_nat (nat_of_ascii c) in
  if (48 <=? k) && (k <=? 57) then Some (k - 48) else None.

(** The digits at the start of a text: their value, how many there are,
    and the rest. *)
Fixpoint read_digits (acc : Z) (count : nat) (txt : string) : Z * nat * string :=
  match txt with
  | String c rest =>
      match digit_value c with
      | Some k => read_digits (10 * acc + k) (S count) rest
      | None => (acc, count, txt)
      end
  | EmptyString => (acc, count, txt)
  end.

(** A time with one decimal, [digits . digit s]: its value in tenths of
    a second. *)
Definition read_unsigned (txt : string) : option Z :=
  match read_digits 0 0 txt with
  | (whole, S _, String "." (String c (String "s" EmptyString))) =>
      match digit_value c with
      | Some k => Some (10 * whole + k)
      | None => None
      end
  | _ => None
  end.

(** The same with an optional minus sign, as a CSS time is read. *)
Definition read_seconds (txt : string) : option Z :=
  match txt with
  | String "-" rest => option_map Z.opp (read_unsigned rest)
  | _ => read_unsigned txt
  end.

End OrbReading.

(* ================================================================== *)
(** * Facts about the countdown *)
(* ================================================================== *)

Module CountdownFacts.
Import Countdown.

Local Open Scope string_scope.
Local Open Scope list_scope.
Local Open Scope Z_scope.

(** ** Arithmetic of the decomposition *)

Lemma remaining_nonneg (t now : Z) : 0 < t - now -> 0 <= remaining_secs t now.
Proof. intros H. unfold remaining_secs. apply Z.div_pos; lia. Qed.

Lemma running_not_finished (t now : Z) :
  0 < t - now -> le0 (sub (Int t) (Int now)) = false.
Proof. intros H. simpl. apply Z.leb_gt. exact H. Qed.

Lemma finished_iff (t now : Z) :
  le0 (sub (Int t) (Int now)) = true <-> t <= now.
Proof. simpl. rewrite Z.leb_le. lia. Qed.

(** On a running tick the closure remembers exactly the specification's
    components: JavaScript's [%] agrees with the floored modulus because
    the dividend is not negative. *)
Lemma tick_running_prev (t now : Z) (c : closure) :
  0 < t - now ->
  prev (fst (tick (Int t) now c)) = spec_components (remaining_secs t now).
Proof.
  intros H. pose proof (remaining_nonneg t now H) as HR.
  unfold tick. rewrite (running_not_finished t now H).
  unfold updateDigit, spec_components, remaining_secs in *. simpl.
  rewrite !Z.rem_mod_nonneg by lia. reflexivity.
Qed.

Lemma tick_running_id (t now : Z) (c : closure) :
  0 < t - now -> intervalId (fst (tick (Int t) now c)) = intervalId c.
Proof.
  intros H. unfold tick. rewrite (running_not_finished t now H). reflexivity.
Qed.

(** The writes of a running tick, one block per component. *)
Lemma tick_running_trace (t now : Z) (c : closure) :
  0 < t - now ->
  let p := spec_components (remaining_secs t now) in
  snd (tick (Int t) now c) =
    snd (updateDigit Days (d p) (d (prev c))) ++
    snd (updateDigit Hours (h p) (h (prev c))) ++
    snd (updateDigit Mins (m p) (m (prev c))) ++
    snd (updateDigit Secs (s p) (s (prev c))).
Proof.
  intros H. pose proof (remaining_nonneg t now H) as HR.
  unfold tick. rewrite (running_not_finished t now H).
  unfold updateDigit, spec_components, remaining_secs in *. simpl.
  rewrite !Z.rem_mod_nonneg by lia. reflexivity.
Qed.

Lemma spec_components_ranges (R : Z) :
  0 <= R ->
  exists dd hh mm ss,
    spec_components R = {| d := Int dd; h := Int hh; m := Int mm; s := Int ss |} /\
    0 <= dd /\ 0 <= hh < 24 /\ 0 <= mm < 60 /\ 0 <= ss < 60 /\
    R = dd * 86400 + hh * 3600 + mm * 60 + ss.
Proof.
  intros HR.
  exists (R / 86400), ((R mod 86400) / 3600), ((R mod 3600) / 60), (R mod 60).
  split; [reflexivity|].
  pose proof (Z.mod_pos_bound R 86400 ltac:(lia)).
  pose proof (Z.mod_pos_bound R 3600 ltac:(lia)).
  pose proof (Z.mod_pos_bound R 60 ltac:(lia)).
  pose proof (Z.div_mod R 86400 ltac:(lia)).
  pose proof (Z.div_mod (R mod 86400) 3600 ltac:(lia)).
  pose proof (Z.div_mod R 3600 ltac:(lia)).
  pose proof (Z.div_mod (R mod 3600) 60 ltac:(lia)).
  pose proof (Z.div_mod R 60 ltac:(lia)).
  assert (E1 : (R mod 86400) mod 3600 = R mod 3600).
  { apply Z.mod_mod_divide. exists 24. reflexivity. }
  assert (E2 : (R mod 3600) mod 60 = R mod 60).
  { apply Z.mod_mod_divide. exists 60. reflexivity. }
  pose proof (Z.mod_pos_bound (R mod 86400) 3600 ltac:(lia)).
  pose proof (Z.mod_pos_bound (R mod 3600) 60 ltac:(lia)).
  repeat split; try lia;
    solve [apply Z.div_pos; lia | apply Z.div_lt_upper_bound; lia].
Qed.

(** ** The page under a trace of effects *)

Lemma slot_eqb_eq (a b : slot) : slot_eqb a b = true <-> a = b.
Proof. destruct a, b; simpl; split; intros E; try reflexivity; discriminate. Qed.

Lemma slot_eqb_refl (a : slot) : slot_eqb a a = true.
Proof. destruct a; reflexivity. Qed.

Lemma get_set (el el' : slot) (x : element) (w : world) :
  get el (set el' x w) = if slot_eqb el el' then x else get el w.
Proof. destruct el, el'; reflexivity. Qed.

Lemma get_apply_effect (el : slot) (e : effect) (w : world) :
  get el (apply_effect e w) =
  if touches el e then on_element e (get el w) else get el w.
Proof.
  destruct e as [el' txt|el' cl|el'|el' cl|[hd|]|a]; unfold touches; simpl;
    try rewrite get_set; try (destruct el; reflexivity);
    destruct (slot_eqb el el') eqn:E; try reflexivity;
    apply slot_eqb_eq in E; subst el'; reflexivity.
Qed.

Lemma get_apply_effects (el : slot) (tr : list effect) (w : world) :
  get el (apply_effects tr w) =
  fold_left (fun x e => on_element e x) (effects_on el tr) (get el w).
Proof.
  unfold apply_effects, effects_on. revert w.
  induction tr as [|e tr IH]; intros w; simpl; [reflexivity|].
  rewrite IH, get_apply_effect.
  destruct (touches el e); reflexivity.
Qed.

(** An element no effect of the trace writes to is the same record
    afterwards. *)
Lemma untouched_same (el : slot) (tr : list effect) (w : world) :
  effects_on el tr = [] -> get el (apply_effects tr w) = get el w.
Proof. intros E. rewrite get_apply_effects, E. reflexivity. Qed.

Lemma effects_on_app (el : slot) (a b : list effect) :
  effects_on el (a ++ b) = effects_on el a ++ effects_on el b.
Proof. apply filter_app. Qed.

(** [updateDigit] writes to its own element only. *)
Lemma effects_on_updateDigit (el el' : slot) (v old : num) :
  effects_on el (snd (updateDigit el' v old)) =
  if slot_eqb el el' then snd (updateDigit el' v old) else [].
Proof.
  unfold updateDigit, effects_on, touches. simpl.
  destruct (strict_ne v old); simpl.
  - destruct (slot_eqb el el'); reflexivity.
  - destruct (slot_eqb el el'); reflexivity.
Qed.

(** The writes of a running tick that reach [el] are those of [el]'s own
    [updateDigit] call. *)
Lemma effects_on_running (el : slot) (t now : Z) (c : closure) :
  0 < t - now ->
  effects_on el (snd (tick (Int t) now c)) =
  snd (updateDigit el (component el (spec_components (remaining_secs t now)))
                      (component el (prev c))).
Proof.
  intros H. rewrite (tick_running_trace t now c H). cbv zeta.
  rewrite !effects_on_app, !effects_on_updateDigit.
  destruct el; simpl; rewrite ?app_nil_r; reflexivity.
Qed.

(** What a digit update leaves behind on its element. *)
Lemma flipped_element (el : slot) (txt : string) (x : element) :
  fold_left (fun y e => on_element e y) (SetText el txt :: triggerFlip el) x =
  {| textContent := txt; flipping := true; restarts := S (restarts x) |}.
Proof. reflexivity. Qed.

Lemma strict_ne_Int (a b : Z) : strict_ne (Int a) (Int b) = true <-> a <> b.
Proof. simpl. rewrite negb_true_iff, Z.eqb_neq. reflexivity. Qed.

Lemma strict_ne_Int_false (a b : Z) : strict_ne (Int a) (Int b) = false <-> a = b.
Proof. simpl. rewrite negb_false_iff, Z.eqb_eq. reflexivity. Qed.

Lemma spec_component_Int (el : slot) (R : Z) :
  exists v, component el (spec_components R) = Int v.
Proof. destruct el; simpl; eexists; reflexivity. Qed.

(** The components of a running tick are never the initial [-1]. *)
Lemma spec_component_nonneg (el : slot) (R : Z) :
  0 <= R -> strict_ne (component el (spec_components R)) (Int (-1)) = true.
Proof.
  intros HR. destruct (spec_components_ranges R HR)
    as (dd & hh & mm & ss & E & Hd & Hh & Hm & Hs & _).
  rewrite E. destruct el; simpl; apply negb_true_iff, Z.eqb_neq; lia.
Qed.

(** The text the first tick leaves on the page for R = 90061. *)
Example first_tick_90061 :
  let w := run_tick (Int 90061999) 0 (loaded "--") in
  (textContent (daysEl w), textContent (hoursEl w),
   textContent (minsEl w), textContent (secsEl w)) = ("01", "01", "01", "01").
Proof. reflexivity. Qed.

(** ** C4 *)

(** With valid target dates the update policy holds: on a Running tick
    that follows a Running tick, a component's digit
    element is written to (text set to the two-digit value, the flip class
    removed and added again, the animation restarted) exactly when the
    component's value differs from the one computed at the previous tick;
    if the value is the same, no effect of the tick reaches the element and
    its record on the page is unchanged. *)
Theorem updateDigit_only_on_change
    (t1 now1 t2 now2 : Z) (c0 : closure) (el : slot) :
  0 < t1 - now1 ->
  0 < t2 - now2 ->
  let v1 := component el (spec_components (remaining_secs t1 now1)) in
  let v2 := component el (spec_components (remaining_secs t2 now2)) in
  let c1 := fst (tick (Int t1) now1 c0) in
  let tr := snd (tick (Int t2) now2 c1) in
  (v2 <> v1 ->
     effects_on el tr = SetText el (pad2 v2) :: triggerFlip el /\
     forall w, get el (apply_effects tr w) =
               {| textContent := pad2 v2; flipping := true;
                  restarts := S (restarts (get el w)) |}) /\
  (v2 = v1 ->
     effects_on el tr = [] /\
     forall w, get el (apply_effects tr w) = get el w) /\
  (effects_on el tr <> [] <-> v2 <> v1).
Proof.
  intros H1 H2 v1 v2 c1 tr.
  assert (P : component el (prev c1) = v1).
  { unfold c1. rewrite (tick_running_prev t1 now1 c0 H1). reflexivity. }
  assert (T : effects_on el tr = snd (updateDigit el v2 v1)).
  { unfold tr. rewrite (effects_on_running el t2 now2 c1 H2), P. reflexivity. }
  destruct (spec_component_Int el (remaining_secs t1 now1)) as [a1 Ea1].
  destruct (spec_component_Int el (remaining_secs t2 now2)) as [a2 Ea2].
  fold v1 in Ea1. fold v2 in Ea2.
  assert (Chg : v2 <> v1 -> effects_on el tr = SetText el (pad2 v2) :: triggerFlip el).
  { intros N. rewrite T. unfold updateDigit. simpl.
    rewrite Ea1, Ea2 in N |- *.
    assert (S : strict_ne (Int a2) (Int a1) = true)
      by (apply strict_ne_Int; congruence).
    rewrite S. reflexivity. }
  assert (Same : v2 = v1 -> effects_on el tr = []).
  { intros N. rewrite T. unfold updateDigit. simpl.
    rewrite Ea1, Ea2 in N |- *.
    assert (S : strict_ne (Int a2) (Int a1) = false)
      by (apply strict_ne_Int_false; congruence).
    rewrite S. reflexivity. }
  split; [|split].
  - intros N. split; [exact (Chg N)|].
    intros w. rewrite get_apply_effects, (Chg N). apply flipped_element.
  - intros N. split; [exact (Same N)|].
    intros w. apply untouched_same. exact (Same N).
  - split.
    + intros NE E. apply NE. exact (Same E).
    + intros N. rewrite (Chg N). discriminate.
Qed.

Lemma updateDigit_only_on_change_witness :
  (* 61 s left, then 60 s left: the seconds digit changes, the minutes
     digit does not *)
  let c1 := fst (tick (Int 61000) 0 closure0) in
  let tr := snd (tick (Int 61000) 1000 c1) in
  effects_on Secs tr = SetText Secs "00" :: triggerFlip Secs /\
  effects_on Mins tr = [].
Proof.
  pose proof (updateDigit_only_on_change 61000 0 61000 1000 closure0 Secs
                ltac:(lia) ltac:(lia)) as (A & _ & _).
  pose proof (updateDigit_only_on_change 61000 0 61000 1000 closure0 Mins
                ltac:(lia) ltac:(lia)) as (_ & B & _).
  split.
  - apply A. discriminate.
  - apply B. reflexivity.
Defined.

Lemma tick_NaN (now : Z) (c : closure) :
  tick NaN now c =
  ({| prev := nan_prev; intervalId := intervalId c |}, all_updates nan_prev).
Proof. reflexivity. Qed.

(** C4, evaluated where it fails: with a target date that does not parse,
    every component is [NaN] at every tick, so its value does not change
    from one tick to the next; yet [NaN !== NaN] holds, and each tick writes
    the text "NaN" to every digit element again and restarts its flip
    animation. *)
Theorem unchanged_NaN_is_rewritten (now1 now2 : Z) (c0 : closure) (el : slot) :
  let c1 := fst (tick NaN now1 c0) in
  let c2 := fst (tick NaN now2 c1) in
  let tr := snd (tick NaN now2 c1) in
  component el (prev c1) = NaN /\
  component el (prev c2) = NaN /\
  effects_on el tr = SetText el "NaN" :: triggerFlip el /\
  forall w, get el (apply_effects tr w) =
            {| textContent := "NaN"; flipping := true;
               restarts := S (restarts (get el w)) |}.
Proof.
  cbv zeta. rewrite !tick_NaN. cbn [fst snd prev].
  assert (E : effects_on el (all_updates nan_prev) = SetText el "NaN" :: triggerFlip el)
    by (destruct el; reflexivity).
  split; [destruct el; reflexivity|]. split; [destruct el; reflexivity|].
  split; [exact E|].
  intros w. rewrite get_apply_effects, E. apply flipped_element.
Qed.

(** ** C2 *)

Lemma tick_finished (t now : Z) (c : closure) :
  t <= now -> tick (Int t) now c = (c, finish_trace c).
Proof.
  intros H. unfold tick.
  replace (le0 (sub (Int t) (Int now))) with true
    by (symmetry; apply finished_iff; exact H).
  reflexivity.
Qed.

Lemma session_idle (clock : list (num * Z)) (w : world) :
  intervals w = [] -> session clock w = w.
Proof.
  intros E. induction clock as [|[target now] rest IH]; simpl; [reflexivity|].
  unfold fire. rewrite E. exact IH.
Qed.

(** A tick run by the timer, once the target is reached: the schedule is
    cancelled, the displays read "00", the label is set, and [tick] never
    runs again. *)
Lemma scheduled_finish (t now : Z) (hd : nat) (w : world) :
  intervals w = [hd] ->
  intervalId (clo w) = Some hd ->
  t <= now ->
  exists w',
    fire (Int t) now w = Some w' /\
    intervals w' = [] /\
    texts w' = ("00", "00", "00", "00") /\
    ariaLabel w' = Some "We have launched!" /\
    ticks w' = S (ticks w) /\
    forall clock, session clock w' = w'.
Proof.
  intros Ei Eh H. unfold fire. rewrite Ei.
  eexists. split; [reflexivity|].
  unfold run_tick. rewrite (tick_finished t now (clo w) H).
  unfold finish_trace. rewrite Eh.
  assert (F : intervals
    (let w1 := apply_effects
       [ClearInterval (Some hd); SetText Secs "00"; SetText Mins "00";
        SetText Hours "00"; SetText Days "00";
        SetAriaLabel "We have launched!"] w in
     with_timers (intervals w1) (nextHandle w1) (clo w) (S (ticks w1)) w1) = []).
  { simpl. rewrite Ei. simpl. rewrite Nat.eqb_refl. reflexivity. }
  repeat split; try reflexivity.
  - exact F.
  - intros clock. apply session_idle. exact F.
Qed.

(** When the target is already reached at load, the first tick calls
    [clearInterval] on the still undefined handle, and [init] goes on to
    schedule the timer. *)
Lemma init_finished_keeps_schedule (t now : Z) (txt : string) :
  t <= now ->
  let w := init full_document (Int t) now (loaded txt) in
  snd (tick (Int t) now closure0) = finish_trace closure0 /\
  intervals w = [1%nat] /\
  intervalId (clo w) = Some 1%nat /\
  ticks w = 1%nat /\
  texts w = ("00", "00", "00", "00").
Proof.
  intros H w. unfold w, init. simpl.
  unfold run_tick. cbn [clo loaded].
  rewrite (tick_finished t now closure0 H).
  repeat split; reflexivity.
Qed.

(** C2, evaluated where it fails: the page loads one second after the
    target.  The first tick takes the Finished branch, writes "00" four
    times and the label, but its [clearInterval] gets [undefined]; the timer
    is scheduled afterwards, so [tick] runs a second time one second later,
    and only that run cancels the schedule. *)
Theorem finished_at_load_ticks_again :
  let w := init full_document (Int 0) 1000 (loaded "--") in
  snd (tick (Int 0) 1000 closure0)
    = [ClearInterval None;
       SetText Secs "00"; SetText Mins "00"; SetText Hours "00"; SetText Days "00";
       SetAriaLabel "We have launched!"] /\
  texts w = ("00", "00", "00", "00") /\
  ariaLabel w = Some "We have launched!" /\
  intervals w = [1%nat] /\
  ticks w = 1%nat /\
  exists w',
    fire (Int 0) 2000 w = Some w' /\ ticks w' = 2%nat /\ intervals w' = [].
Proof.
  cbv zeta. repeat split; try reflexivity.
  eexists. split; [reflexivity|]. split; reflexivity.
Qed.

(** ** C10 *)

Lemma run_tick_NaN (now : Z) (w : world) :
  let w' := run_tick NaN now w in
  intervals w' = intervals w /\
  nextHandle w' = nextHandle w /\
  ariaLabel w' = ariaLabel w /\
  intervalId (clo w') = intervalId (clo w) /\
  ticks w' = S (ticks w) /\
  texts w' = ("NaN", "NaN", "NaN", "NaN").
Proof.
  unfold run_tick. rewrite tick_NaN. destruct w. repeat split; reflexivity.
Qed.

Lemma session_NaN (nows : list Z) (w : world) (hd : nat) :
  intervals w = [hd] ->
  texts w = ("NaN", "NaN", "NaN", "NaN") ->
  let w' := session (map (fun n => (NaN, n)) nows) w in
  intervals w' = [hd] /\
  ariaLabel w' = ariaLabel w /\
  ticks w' = (ticks w + List.length nows)%nat /\
  texts w' = ("NaN", "NaN", "NaN", "NaN").
Proof.
  cbv zeta. revert w. induction nows as [|n nows IH]; intros w Ei Et; simpl.
  - repeat split; try assumption. lia.
  - unfold fire. rewrite Ei.
    pose proof (run_tick_NaN n w) as X. cbv zeta in X.
    destruct X as (A & _ & B & _ & C & D).
    rewrite Ei in A.
    destruct (IH (run_tick NaN n w) A D) as (A' & B' & C' & D').
    split; [exact A'|]. split; [rewrite B'; exact B|].
    split; [rewrite C', C; lia|exact D'].
Qed.

(** C10: with a target date that does not parse (its time value is [NaN]),
    the difference is [NaN] at every tick and the Finished test is false; no
    tick calls [clearInterval]; the first tick writes "NaN" to all four digit
    elements; and however often the timer fires, it is still scheduled,
    [tick] has run every time, and the completion label was never set. *)
Theorem invalid_date_never_finishes (now0 : Z) (nows : list Z) (txt : string) :
  let w0 := init full_document NaN now0 (loaded txt) in
  let w := session (map (fun n => (NaN, n)) nows) w0 in
  (forall now, sub NaN (Int now) = NaN /\ le0 (sub NaN (Int now)) = false) /\
  (forall now c hd, ~ In (ClearInterval hd) (snd (tick NaN now c))) /\
  texts w0 = ("NaN", "NaN", "NaN", "NaN") /\
  intervals w = [1%nat] /\
  ticks w = S (List.length nows) /\
  texts w = ("NaN", "NaN", "NaN", "NaN") /\
  ariaLabel w = None.
Proof.
  intros w0 w.
  assert (E0 : intervals w0 = [1%nat] /\ ticks w0 = 1%nat /\
               texts w0 = ("NaN", "NaN", "NaN", "NaN") /\ ariaLabel w0 = None).
  { repeat split; reflexivity. }
  destruct E0 as (Ei & Et & Ex & Ea).
  pose proof (session_NaN nows w0 1%nat Ei Ex) as X. cbv zeta in X.
  destruct X as (A & B & C & D).
  split; [intros now; split; reflexivity|].
  split.
  { intros now c hd. rewrite tick_NaN. simpl.
    intros F. repeat (destruct F as [F|F]; [discriminate F|]). exact F. }
  split; [exact Ex|]. split; [exact A|]. split.
  { fold w in C. rewrite C, Et. reflexivity. }
  split; [exact D|]. fold w in B. rewrite B. exact Ea.
Qed.

End CountdownFacts.

(* ================================================================== *)
(** * Facts about the orb initializer *)
(* ================================================================== *)

Module OrbFacts.
Import JS OrbInit.

Local Open Scope Q_scope.

Section Rounding.

(** [toFixed(1)] on a value that is not negative: the tenths [n] satisfy
    [10 x - 1/2 < n <= 10 x + 1/2]. *)
Variable x : Q.
Hypothesis x_nonneg : 0 <= x.

Lemma tenths_eq : toFixed_n 1 x = Qfloor (x * 10 + (1 # 2)).
Proof.
  unfold toFixed_n. apply Qfloor_comp.
  rewrite (Qabs_pos x x_nonneg).
  change (inject_Z (10 ^ Z.of_nat 1)) with (10 # 1). reflexivity.
Qed.

Lemma tenths_upper : inject_Z (toFixed_n 1 x) <= x * 10 + (1 # 2).
Proof. rewrite tenths_eq. apply Qfloor_le. Qed.

Lemma tenths_lower : x * 10 - (1 # 2) < inject_Z (toFixed_n 1 x).
Proof.
  rewrite tenths_eq.
  pose proof (Qlt_floor (x * 10 + (1 # 2))) as H.
  rewrite inject_Z_plus in H. change (inject_Z 1) with 1 in H. lra.
Qed.

Lemma value_tenths : toFixed_value 1 x == inject_Z (toFixed_n 1 x) / 10.
Proof.
  unfold toFixed_value.
  change (inject_Z (10 ^ Z.of_nat 1)) with (10 # 1).
  destruct (Qcompare x 0) eqn:E; try reflexivity.
  apply Qlt_alt in E. lra.
Qed.

Lemma value_close : Qabs (toFixed_value 1 x - x) <= 1 # 20.
Proof.
  rewrite value_tenths.
  pose proof tenths_upper as U. pose proof tenths_lower as L.
  apply Qabs_Qle_condition. split.
  - assert (x - (1 # 20) <= inject_Z (toFixed_n 1 x) / 10).
    { apply Qle_shift_div_l; lra. }
    lra.
  - assert (inject_Z (toFixed_n 1 x) / 10 <= x + (1 # 20)).
    { apply Qle_shift_div_r; lra. }
    lra.
Qed.

(** Rounding to tenths keeps a value inside integer bounds [lo <= x < hi],
    except that the upper bound itself can be reached. *)
Lemma value_between (lo hi : Z) :
  inject_Z lo <= x -> x < inject_Z hi ->
  inject_Z lo <= toFixed_value 1 x <= inject_Z hi.
Proof.
  intros Hlo Hhi. rewrite value_tenths.
  pose proof tenths_upper as U. pose proof tenths_lower as L.
  assert (A : (lo * 10 <= toFixed_n 1 x)%Z).
  { assert (inject_Z (lo * 10) < inject_Z (toFixed_n 1 x + 1)) as K.
    { rewrite inject_Z_plus, inject_Z_mult.
      change (inject_Z 10) with 10. change (inject_Z 1) with 1. lra. }
    rewrite <- Zlt_Qlt in K. lia. }
  assert (B : (toFixed_n 1 x <= hi * 10)%Z).
  { assert (inject_Z (toFixed_n 1 x) < inject_Z (hi * 10 + 1)) as K.
    { rewrite inject_Z_plus, inject_Z_mult.
      change (inject_Z 10) with 10. change (inject_Z 1) with 1. lra. }
    rewrite <- Zlt_Qlt in K. lia. }
  rewrite Zle_Qle, inject_Z_mult in A, B. change (inject_Z 10) with 10 in A, B.
  split.
  - apply Qle_shift_div_l; lra.
  - apply Qle_shift_div_r; lra.
Qed.

End Rounding.

Lemma sampled_duration_range (u : Q) :
  0 <= u < 1 -> 10 <= sampled_duration u < 26.
Proof. unfold sampled_duration, Utils.randBetween. intros H. lra. Qed.

Lemma sampled_delay_range (u : Q) :
  0 <= u < 1 -> 0 <= sampled_delay u < 12.
Proof. unfold sampled_delay, Utils.randBetween. intros H. lra. Qed.

(** [randBetween] stays in [min, max) whatever the bounds. *)
Lemma randBetween_range (u lo hi : Q) :
  0 <= u < 1 -> lo < hi -> lo <= Utils.randBetween u lo hi < hi.
Proof. unfold Utils.randBetween. intros H L. nra. Qed.

(** C8 as stated fails: a draw of 0.999 samples 25.984 seconds, inside
    [10, 26), but [toFixed(1)] rounds it and the property is set to
    "26.0s", outside.  The delay is rounded likewise: a draw of 0.057
    samples 0.684 seconds and the property is set to "-0.7s", which is not
    the negation of the sample. *)
Lemma applied_duration_reaches_26 :
  0 <= (999 # 1000) < 1 /\
  sampled_duration (999 # 1000) == 25984 # 1000 /\
  orb_duration (init_element (999 # 1000) 0) = "26.0s"%string /\
  applied_duration (999 # 1000) == 26 /\
  ~ (10 <= applied_duration (999 # 1000) < 26) /\
  0 <= (57 # 1000) < 1 /\
  sampled_delay (57 # 1000) == 684 # 1000 /\
  orb_delay (init_element (999 # 1000) (57 # 1000)) = "-0.7s"%string /\
  OrbReading.read_seconds (orb_delay (init_element (999 # 1000) (57 # 1000)))
    = Some (-7)%Z /\
  ~ (applied_delay (57 # 1000) == - sampled_delay (57 # 1000)).
Proof.
  split; [lra|]. split; [reflexivity|]. split; [reflexivity|].
  assert (E : applied_duration (999 # 1000) == 26) by reflexivity.
  split; [exact E|]. split; [rewrite E; lra|].
  split; [lra|]. split; [reflexivity|]. split; [reflexivity|].
  split; [reflexivity|]. discriminate.
Qed.

(** ** Sampling under rounding *)

Section RoundedSampling.

Variable rnd : Q -> Q.
Hypothesis F : Rounded.faithful rnd.

Lemma rnd_proper (x y : Q) : x == y -> rnd x == rnd y.
Proof.
  intros E. apply Qle_antisym; apply (Rounded.rnd_mono rnd F); rewrite E; apply Qle_refl.
Qed.

Variables lo hi : Q.
Hypothesis lo_rep : Rounded.representable rnd lo.
Hypothesis hi_rep : Rounded.representable rnd hi.
Hypothesis width_rep : Rounded.representable rnd (hi - lo).
Hypothesis lo_le_hi : lo <= hi.

(** A larger draw never gives a smaller value. *)
Lemma rounded_randBetween_mono (u u' : Q) :
  u <= u' -> Rounded.randBetween rnd u lo hi <= Rounded.randBetween rnd u' lo hi.
Proof.
  intros L. unfold Rounded.randBetween, Rounded.representable in *.
  apply (Rounded.rnd_mono rnd F).
  assert (rnd (u * rnd (hi - lo)) <= rnd (u' * rnd (hi - lo))).
  { apply (Rounded.rnd_mono rnd F). rewrite width_rep. nra. }
  lra.
Qed.

Lemma rounded_randBetween_at_0 : Rounded.randBetween rnd 0 lo hi == lo.
Proof.
  unfold Rounded.randBetween, Rounded.representable in *.
  assert (E : rnd (0 * rnd (hi - lo)) == 0).
  { rewrite <- (Rounded.rnd_zero rnd F) at 2. apply rnd_proper. ring. }
  apply Qeq_trans with (rnd lo); [|exact lo_rep].
  apply rnd_proper. rewrite E. ring.
Qed.

(** Both bounds are kept, and both can be reached. *)
Lemma rounded_randBetween_range (u : Q) :
  0 <= u <= 1 -> lo <= Rounded.randBetween rnd u lo hi <= hi.
Proof.
  intros [U0 U1]. unfold Rounded.randBetween, Rounded.representable in *.
  set (p := rnd (u * rnd (hi - lo))).
  assert (P0 : 0 <= p).
  { unfold p. apply Qle_trans with (rnd 0);
      [rewrite (Rounded.rnd_zero rnd F); apply Qle_refl|].
    apply (Rounded.rnd_mono rnd F). rewrite width_rep. nra. }
  assert (P1 : p <= hi - lo).
  { unfold p. apply Qle_trans with (rnd (hi - lo));
      [|rewrite width_rep; apply Qle_refl].
    apply (Rounded.rnd_mono rnd F). rewrite width_rep. nra. }
  split.
  - apply Qle_trans with (rnd lo); [rewrite lo_rep; apply Qle_refl|].
    apply (Rounded.rnd_mono rnd F). lra.
  - apply Qle_trans with (rnd hi); [|rewrite hi_rep; apply Qle_refl].
    apply (Rounded.rnd_mono rnd F). lra.
Qed.

End RoundedSampling.

Lemma exact_rounding : Rounded.faithful Rounded.exact.
Proof.
  split; unfold Rounded.exact; intros; try reflexivity; try assumption; lra.
Qed.

(** ** Sampling on doubles *)

(** The largest value [Math.random()] can return samples the upper bound
    of the duration itself, and a delay below its upper bound. *)
Lemma largest_draw_samples :
  PrimFloat.ltb Binary64.largest_draw PrimFloat.one = true /\
  Binary64.randBetween Binary64.largest_draw Binary64.ten Binary64.twenty_six
    = Binary64.twenty_six /\
  PrimFloat.ltb (Binary64.randBetween Binary64.largest_draw PrimFloat.zero Binary64.twelve)
                Binary64.twelve = true /\
  Binary64.randBetween PrimFloat.zero Binary64.ten Binary64.twenty_six = Binary64.ten.
Proof. repeat split; vm_compute; reflexivity. Qed.

(** ** Reading back what was written *)

(** The texts for 0.0 to 26.0 seconds read back as the tenths they were
    made from, with and without the minus sign. *)
Lemma tenths_read_back :
  forallb (fun k : nat =>
             let n := Z.of_nat k in
             let txt := append (toFixedQ 1 (inject_Z n / 10)) "s" in
             Z.eqb (toFixed_n 1 (inject_Z n / 10)) n &&
             match OrbReading.read_seconds txt, OrbReading.read_seconds (append "-" txt) with
             | Some a, Some b => Z.eqb a n && Z.eqb b (- n)
             | _, _ => false
             end)
          (seq 0 261) = true.
Proof. vm_compute. reflexivity. Qed.

(** [toFixed(1)] of a value that is not negative only depends on its
    tenths. *)
Lemma toFixedQ_by_tenths (x y : Q) :
  0 <= x -> 0 <= y -> toFixed_n 1 x = toFixed_n 1 y -> toFixedQ 1 x = toFixedQ 1 y.
Proof.
  intros X Y E. unfold toFixedQ. rewrite E.
  destruct (Qcompare x 0) eqn:Cx; [| apply Qlt_alt in Cx; lra |];
    (destruct (Qcompare y 0) eqn:Cy; [| apply Qlt_alt in Cy; lra |]); reflexivity.
Qed.

Lemma tenths_range (x : Q) (lo hi : Z) :
  0 <= x -> inject_Z lo <= x <= inject_Z hi ->
  (10 * lo <= toFixed_n 1 x <= 10 * hi)%Z.
Proof.
  intros X [L H].
  pose proof (tenths_upper x X) as U. pose proof (tenths_lower x X) as W.
  split.
  - assert (inject_Z (10 * lo) < inject_Z (toFixed_n 1 x + 1)) as K.
    { rewrite inject_Z_plus, inject_Z_mult.
      change (inject_Z 10) with 10. change (inject_Z 1) with 1. lra. }
    rewrite <- Zlt_Qlt in K. lia.
  - assert (inject_Z (toFixed_n 1 x) < inject_Z (10 * hi + 1)) as K.
    { rewrite inject_Z_plus, inject_Z_mult.
      change (inject_Z 10) with 10. change (inject_Z 1) with 1. lra. }
    rewrite <- Zlt_Qlt in K. lia.
Qed.

Lemma tenths_close (x : Q) :
  0 <= x -> Qabs (inject_Z (toFixed_n 1 x) / 10 - x) <= 1 # 20.
Proof.
  intros X. rewrite <- (value_tenths x X). apply (value_close x X).
Qed.

(** What [toFixed(1)] writes for a value between 0 and 26, followed by
    "s", reads back as the tenths of the value. *)
Lemma written_reads_back (x : Q) :
  0 <= x <= 26 ->
  OrbReading.read_seconds (append (toFixedQ 1 x) "s") = Some (toFixed_n 1 x) /\
  OrbReading.read_seconds (append "-" (append (toFixedQ 1 x) "s"))
    = Some (- toFixed_n 1 x)%Z.
Proof.
  intros [X0 X1].
  destruct (tenths_range x 0 26 X0) as [N0 N1].
  { split; [exact X0 | exact X1]. }
  set (n := toFixed_n 1 x) in *.
  pose proof tenths_read_back as B. rewrite forallb_forall in B.
  specialize (B (Z.to_nat n)).
  rewrite Z2Nat.id in B by lia. cbv zeta in B.
  assert (I : In (Z.to_nat n) (seq 0 261)) by (apply in_seq; lia).
  specialize (B I).
  apply andb_prop in B. destruct B as [E B].
  apply Z.eqb_eq in E.
  assert (T : toFixedQ 1 x = toFixedQ 1 (inject_Z n / 10)).
  { apply toFixedQ_by_tenths; [exact X0| |].
    - apply Qle_shift_div_l; [reflexivity|].
      rewrite Qmult_0_l. change 0 with (inject_Z 0). rewrite <- Zle_Qle. lia.
    - rewrite E. reflexivity. }
  rewrite T.
  destruct (OrbReading.read_seconds (append (toFixedQ 1 (inject_Z n / 10)) "s")) as [a|];
    [|discriminate B].
  destruct (OrbReading.read_seconds
              (append "-" (append (toFixedQ 1 (inject_Z n / 10)) "s"))) as [b|];
    [|discriminate B].
  apply andb_prop in B. destruct B as [A1 B1].
  apply Z.eqb_eq in A1. apply Z.eqb_eq in B1. subst a b. split; reflexivity.
Qed.

(** ** C8, amended *)

(** C8, amended: for random draws in [0, 1), under exact arithmetic and
    under any rounding that keeps the order and the integers up to 26, the
    sampled duration lies in [10, 26] and the sampled delay in [0, 12],
    and neither gets smaller with a larger draw, so that the delay stays
    below 12 wherever the largest draw samples less than 12; in exact
    arithmetic both upper bounds are strict, on doubles the largest draw
    samples a duration of 26 itself and a delay below 12.  What is written is each sample
    rounded to one decimal by [toFixed(1)]: the duration text reads as a
    number of tenths between 100 and 260, the delay text as minus a number
    of tenths between 0 and 120, each within 0.05 seconds of its sample. *)
Theorem orb_timing_ranges (rnd : Q -> Q) (u1 u2 : Q) :
  Rounded.faithful rnd ->
  (forall z : Z, (0 <= z <= 26)%Z -> Rounded.representable rnd (inject_Z z)) ->
  0 <= u1 < 1 ->
  0 <= u2 < 1 ->
  let duration := Rounded.sampled_duration rnd u1 in
  let delay := Rounded.sampled_delay rnd u2 in
  let written := Rounded.init_element rnd u1 u2 in
  10 <= duration <= 26 /\
  0 <= delay <= 12 /\
  (forall u, u1 <= u -> duration <= Rounded.sampled_duration rnd u) /\
  (forall u, u2 <= u -> delay <= Rounded.sampled_delay rnd u) /\
  (forall u, u2 <= u -> Rounded.sampled_delay rnd u < 12 -> delay < 12) /\
  (exists n1 n2 : Z,
     OrbReading.read_seconds (orb_duration written) = Some n1 /\
     OrbReading.read_seconds (orb_delay written) = Some (- n2)%Z /\
     (100 <= n1 <= 260)%Z /\ (0 <= n2 <= 120)%Z /\
     Qabs (inject_Z n1 / 10 - duration) <= 1 # 20 /\
     Qabs (inject_Z n2 / 10 - delay) <= 1 # 20) /\
  (Rounded.init_element Rounded.exact u1 u2 = init_element u1 u2 /\
   sampled_duration u1 < 26 /\ sampled_delay u2 < 12) /\
  (Binary64.randBetween Binary64.largest_draw Binary64.ten Binary64.twenty_six
     = Binary64.twenty_six /\
   PrimFloat.ltb (Binary64.randBetween Binary64.largest_draw PrimFloat.zero Binary64.twelve)
                 Binary64.twelve = true).
Proof.
  intros F I H1 H2 duration delay written.
  assert (R10 : Rounded.representable rnd 10) by (apply (I 10%Z); lia).
  assert (R26 : Rounded.representable rnd 26) by (apply (I 26%Z); lia).
  assert (R12 : Rounded.representable rnd 12) by (apply (I 12%Z); lia).
  assert (R0 : Rounded.representable rnd 0) by (apply (I 0%Z); lia).
  assert (R16 : Rounded.representable rnd (26 - 10)).
  { unfold Rounded.representable.
    apply Qeq_trans with (rnd (inject_Z 16)); [apply (rnd_proper rnd F); reflexivity|].
    apply Qeq_trans with (inject_Z 16); [apply (I 16%Z); lia | reflexivity]. }
  assert (R12' : Rounded.representable rnd (12 - 0)).
  { unfold Rounded.representable.
    apply Qeq_trans with (rnd (inject_Z 12)); [apply (rnd_proper rnd F); reflexivity|].
    apply Qeq_trans with (inject_Z 12); [apply (I 12%Z); lia | reflexivity]. }
  assert (D : 10 <= duration <= 26).
  { apply (rounded_randBetween_range rnd F 10 26 R10 R26 R16); [discriminate|lra]. }
  assert (L : 0 <= delay <= 12).
  { apply (rounded_randBetween_range rnd F 0 12 R0 R12 R12'); [discriminate|lra]. }
  split; [exact D|]. split; [exact L|].
  split.
  { intros u Hu. apply (rounded_randBetween_mono rnd F 10 26 R16 ltac:(discriminate) u1 u Hu). }
  assert (M : forall u, u2 <= u -> delay <= Rounded.sampled_delay rnd u).
  { intros u Hu. apply (rounded_randBetween_mono rnd F 0 12 R12' ltac:(discriminate) u2 u Hu). }
  split; [exact M|].
  split.
  { intros u Hu B. pose proof (M u Hu). lra. }
  split.
  { assert (D0 : 0 <= duration) by lra.
    destruct (written_reads_back duration) as [Rd _]; [lra|].
    destruct (written_reads_back delay) as [_ Rl]; [lra|].
    exists (toFixed_n 1 duration), (toFixed_n 1 delay).
    split; [exact Rd|]. split; [exact Rl|].
    split.
    { apply (tenths_range duration 10 26 D0). exact D. }
    split.
    { apply (tenths_range delay 0 12); [lra | exact L]. }
    split; [apply tenths_close; lra | apply tenths_close; lra]. }
  split.
  { split; [reflexivity|].
    split; [apply sampled_duration_range; exact H1 | apply sampled_delay_range; exact H2]. }
  destruct largest_draw_samples as (_ & A & B & _). split; [exact A | exact B].
Qed.

Lemma orb_timing_ranges_witness :
  (* the draws 0.5 and 0.057, in exact arithmetic *)
  init_element (1 # 2) (57 # 1000) = {| orb_duration := "18.0s"; orb_delay := "-0.7s" |} /\
  10 <= sampled_duration (1 # 2) <= 26 /\
  exists n1 n2 : Z,
    OrbReading.read_seconds "18.0s" = Some n1 /\
    OrbReading.read_seconds "-0.7s" = Some (- n2)%Z /\
    (100 <= n1 <= 260)%Z /\ (0 <= n2 <= 120)%Z.
Proof.
  destruct (orb_timing_ranges Rounded.exact (1 # 2) (57 # 1000) exact_rounding)
    as (A & _ & _ & _ & _ & (n1 & n2 & R1 & R2 & B1 & B2 & _) & _).
  - intros z _. reflexivity.
  - split; [discriminate | reflexivity].
  - split; [discriminate | reflexivity].
  - split; [reflexivity|]. split; [exact A|].
    exists n1, n2. split; [exact R1|]. split; [exact R2|]. split; [exact B1 | exact B2].
Defined.

End OrbFacts.

(* ================================================================== *)
(** * Facts about the parallax field *)
(* ================================================================== *)

Module ParallaxFacts.
Import JS ParallaxField.

Local Open Scope list_scope.
Local Open Scope Q_scope.

(** ** Interpolation on rationals *)

Lemma lerp_Fin (a b t : Q) : lerp (Fin a) (Fin b) (Fin t) = Fin (lerpQ a b t).
Proof. reflexivity. Qed.

Lemma lerp_iter_Fin (n : nat) (a b t : Q) :
  lerp_iter n (Fin a) (Fin b) (Fin t) = Fin (lerpQ_iter n a b t).
Proof.
  induction n as [|n IH]; simpl; [reflexivity|].
  rewrite IH. apply lerp_Fin.
Qed.

Lemma lerp_iter_shift (n : nat) (a b t : num) :
  lerp_iter (S n) a b t = lerp_iter n (lerp a b t) b t.
Proof.
  induction n as [|n IH]; [reflexivity|].
  change (lerp_iter (S (S n)) a b t) with (lerp (lerp_iter (S n) a b t) b t).
  rewrite IH. reflexivity.
Qed.

Section Convergence.

Variables a b t : Q.
Hypothesis t_pos : 0 < t.
Hypothesis t_lt_1 : t < 1.

Lemma step_unfold (n : nat) : lerpQ_iter (S n) a b t = lerpQ_iter n a b t + (b - lerpQ_iter n a b t) * t.
Proof. reflexivity. Qed.



Lemma dist_nonneg (n : nat) : 0 <= distance n a b t.
Proof. apply Qabs_nonneg. Qed.

Lemma dist_step (n : nat) : distance (S n) a b t == (1 - t) * distance n a b t.
Proof.
  unfold distance. rewrite step_unfold.
  assert (E : lerpQ_iter n a b t + (b - lerpQ_iter n a b t) * t - b == (1 - t) * (lerpQ_iter n a b t - b)) by ring.
  rewrite E, Qabs_Qmult. rewrite (Qabs_pos (1 - t)) by lra. reflexivity.
Qed.

Lemma dist_le_start (n : nat) : distance n a b t <= distance 0 a b t.
Proof.
  induction n as [|n IH]; [apply Qle_refl|].
  rewrite dist_step. pose proof (dist_nonneg n). nra.
Qed.

(** A bound of Bernoulli's kind, without division. *)
Lemma dist_bound (n : nat) :
  distance n a b t * ((1 - t) + inject_Z (Z.of_nat n) * t) <= distance 0 a b t * (1 - t).
Proof.
  induction n as [|n IH].
  - change (inject_Z (Z.of_nat 0)) with 0. lra.
  - rewrite dist_step.
    rewrite Nat2Z.inj_succ. unfold Z.succ. rewrite inject_Z_plus.
    change (inject_Z 1) with 1.
    pose proof (dist_nonneg n) as P. pose proof (dist_le_start n) as M.
    set (k := inject_Z (Z.of_nat n)) in *.
    set (dn := distance n a b t) in *. set (d0 := distance 0 a b t) in *.
    assert (K : 0 <= k).
    { unfold k. change 0 with (inject_Z 0). rewrite <- Zle_Qle. lia. }
    assert (S1 : dn * (1 - t + (k + 1) * t) <= d0).
    { assert (E : dn * (1 - t + (k + 1) * t) == dn * (1 - t + k * t) + dn * t) by ring.
      rewrite E. nra. }
    assert (E2 : (1 - t) * dn * (1 - t + (k + 1) * t)
                 == (1 - t) * (dn * (1 - t + (k + 1) * t))) by ring.
    rewrite E2. nra.
Qed.

(** In exact arithmetic the sequence comes as close to the target as one
    likes; on doubles it does not. *)
Lemma converges (eps : Q) :
  0 < eps -> exists N : nat, forall n, (N <= n)%nat -> distance n a b t < eps.
Proof.
  intros He.
  set (d0 := distance 0 a b t).
  assert (D0 : 0 <= d0) by apply dist_nonneg.
  set (c := Qceiling (d0 / (t * eps))).
  exists (S (Z.to_nat c)). intros n Hn.
  assert (Hte : 0 < t * eps) by nra.
  assert (C1 : d0 / (t * eps) <= inject_Z c) by apply Qle_ceiling.
  assert (C0 : (0 <= c)%Z).
  { assert (0 <= d0 / (t * eps)) as Q0.
    { apply Qle_shift_div_l; [exact Hte|lra]. }
    assert (inject_Z (-1) < inject_Z c) as K.
    { change (inject_Z (-1)) with (-1). lra. }
    rewrite <- Zlt_Qlt in K. lia. }
  assert (C2 : inject_Z c + 1 <= inject_Z (Z.of_nat n)).
  { change 1 with (inject_Z 1). rewrite <- inject_Z_plus, <- Zle_Qle. lia. }
  assert (C3 : d0 <= inject_Z c * (t * eps)).
  { assert (E : d0 == d0 / (t * eps) * (t * eps)) by (field; lra).
    set (q := d0 / (t * eps)) in *. rewrite E.
    apply Qmult_le_compat_r; [exact C1|lra]. }
  pose proof (dist_bound n) as B. fold d0 in B.
  pose proof (dist_nonneg n) as P.
  set (k := inject_Z (Z.of_nat n)) in *.
  set (dn := distance n a b t) in *.
  assert (K1 : 1 <= k) by (assert (0 <= inject_Z c)
    by (change 0 with (inject_Z 0); rewrite <- Zle_Qle; exact C0); lra).
  (* dn * k * t <= d0 * (1 - t) <= d0 < k * t * eps *)
  assert (U : dn * (k * t) < eps * (k * t)).
  { assert (dn * (k * t) <= d0 * (1 - t)) by nra.
    assert (d0 * (1 - t) <= d0) by nra.
    assert (d0 < k * (t * eps)) by nra.
    nra. }
  assert (KT : 0 < k * t) by nra.
  apply Qmult_lt_r in U; assumption.
Qed.

End Convergence.

(** ** One frame *)

Lemma animate_runs (w : world) (idx : list nat) :
  elements w = Some idx ->
  exists w',
    animate w = Done w' /\
    currentX w' = lerp (currentX w) (targetX w) LERP /\
    currentY w' = lerp (currentY w) (targetY w) LERP /\
    targetX w' = targetX w /\ targetY w' = targetY w /\
    elements w' = Some idx /\
    frames w' = frames w ++ [(next_frame w, Animate)] /\
    rafId w' = Some (next_frame w) /\
    next_frame w' = S (next_frame w) /\
    mousemove w' = mousemove w /\ resize w' = resize w /\
    nodes w' =
      fold_left (fun acc i => update_nth i (place (currentX w') (currentY w')) acc)
                idx (nodes w).
Proof.
  intros E. unfold animate. cbn [elements set_current]. rewrite E.
  eexists. split; [reflexivity|]. cbn. repeat split; reflexivity.
Qed.

(** ** The frame loop *)

Lemma frame_looping (w : world) :
  looping w ->
  exists w',
    step Frame w = Done w' /\ looping w' /\
    currentX w' = lerp (currentX w) (targetX w) LERP /\
    currentY w' = lerp (currentY w) (targetY w) LERP /\
    targetX w' = targetX w /\ targetY w' = targetY w.
Proof.
  intros (hd & idx & Ef & Er & Ee).
  unfold step, pending_animate. rewrite Ef. cbn [filter is_animate snd fst].
  rewrite Nat.eqb_refl. cbn [negb].
  destruct (animate_runs (set_frames [] (next_frame w) w) idx Ee)
    as (w' & Ea & X & Y & TX & TY & El & Fr & Rf & _).
  exists w'. split; [exact Ea|]. split.
  - exists (next_frame w), idx. repeat split; assumption.
  - repeat split; assumption.
Qed.


(** [n] frames with nothing in between interpolate [n] times toward the
    same target. *)
Lemma frames_run_looping (n : nat) (w : world) :
  looping w ->
  exists w',
    frames_run n w = Done w' /\ looping w' /\
    currentX w' = lerp_iter n (currentX w) (targetX w) LERP /\
    currentY w' = lerp_iter n (currentY w) (targetY w) LERP /\
    targetX w' = targetX w /\ targetY w' = targetY w.
Proof.
  revert w. induction n as [|n IH]; intros w L.
  - exists w. repeat split; try reflexivity. exact L.
  - destruct (frame_looping w L) as (w1 & S1 & L1 & X1 & Y1 & TX1 & TY1).
    destruct (IH w1 L1) as (w' & R & L' & X & Y & TX & TY).
    exists w'. unfold frames_run in *. cbn [repeat run]. rewrite S1. cbn [bind].
    split; [exact R|]. split; [exact L'|].
    rewrite !lerp_iter_shift, X, Y, TX, TY, X1, Y1, TX1, TY1.
    repeat split; reflexivity.
Qed.

(** ** Interpolation under rounding *)

Section RoundedInterpolation.

Variable rnd : Q -> Q.
Hypothesis F : Rounded.faithful rnd.
Variables a b t : Q.
Hypothesis t_pos : 0 < t.
Hypothesis t_small : t <= 1 # 4.
Hypothesis a_rep : Rounded.representable rnd a.
Hypothesis b_rep : Rounded.representable rnd b.






End RoundedInterpolation.

Lemma exact_lerp_iter (n : nat) (a b t : Q) :
  Rounded.lerp_iter Rounded.exact n a b t = lerpQ_iter n a b t.
Proof. induction n as [|n IH]; [reflexivity|]. simpl. rewrite IH. reflexivity. Qed.

(** ** Interpolation on doubles, from 0 toward 1 *)






(** ** C3 *)




(** ** Which nodes a frame writes to *)

Lemma nth_error_update_nth {A : Type} (f : A -> A) (l : list A) (i j : nat) :
  nth_error (update_nth j f l) i =
  if Nat.eqb i j then option_map f (nth_error l i) else nth_error l i.
Proof.
  revert i j. induction l as [|y l IH]; intros i j.
  - destruct i, j; simpl; try reflexivity. destruct (Nat.eqb i j); reflexivity.
  - destruct i, j; simpl; try reflexivity. apply IH.
Qed.

Lemma nth_error_fold_update {A : Type} (f : A -> A) (idx : list nat) :
  (forall y, f (f y) = f y) ->
  forall (l : list A) (i : nat),
    nth_error (fold_left (fun acc j => update_nth j f acc) idx l) i =
    if existsb (Nat.eqb i) idx then option_map f (nth_error l i)
    else nth_error l i.
Proof.
  intros Idem. induction idx as [|j idx IH]; intros l i; simpl; [reflexivity|].
  rewrite IH, nth_error_update_nth.
  destruct (Nat.eqb i j); simpl.
  - destruct (existsb (Nat.eqb i) idx); [|reflexivity].
    destruct (nth_error l i); simpl; [rewrite Idem|]; reflexivity.
  - reflexivity.
Qed.

Lemma place_idempotent (x y : num) (el : element) :
  place x y (place x y el) = place x y el.
Proof. reflexivity. Qed.

Lemma tagged_from_spec (ns : list element) (k i : nat) :
  In i (tagged_from k ns) <->
  exists el, (k <= i)%nat /\ nth_error ns (i - k) = Some el /\ depth_attr el <> None.
Proof.
  revert k. induction ns as [|y ns IH]; intros k; simpl.
  - split; [intros []|]. intros (el & _ & E & _).
    destruct (i - k)%nat; discriminate.
  - assert (Tail : In i (tagged_from (S k) ns) <->
                   exists el, (S k <= i)%nat /\
                              nth_error (y :: ns) (i - k) = Some el /\
                              depth_attr el <> None).
    { rewrite IH. split; intros (el & L & E & D); exists el;
        (split; [exact L|]; split; [|exact D]).
      - replace (i - k)%nat with (S (i - S k)) by lia. exact E.
      - replace (i - k)%nat with (S (i - S k)) in E by lia. exact E. }
    destruct (depth_attr y) eqn:Ey.
    + simpl. rewrite Tail. split.
      * intros [->|(el & L & E & D)].
        -- exists y. rewrite Nat.sub_diag. simpl. rewrite Ey.
           repeat split; [lia|discriminate].
        -- exists el. repeat split; try assumption. lia.
      * intros (el & L & E & D).
        destruct (Nat.eq_dec k i) as [->|N]; [left; reflexivity|].
        right. exists el. repeat split; try assumption. lia.
    + rewrite Tail. split.
      * intros (el & L & E & D). exists el. repeat split; try assumption. lia.
      * intros (el & L & E & D).
        destruct (Nat.eq_dec k i) as [->|N].
        -- rewrite Nat.sub_diag in E. simpl in E. congruence.
        -- exists el. repeat split; try assumption. lia.
Qed.

(** ** C7 *)

(** C7 as stated fails: a depth attribute that is present but does not
    parse is not replaced by 0.05; the coefficient is [NaN], and so is the
    offset written to the element. *)
Lemma unparseable_depth_is_NaN :
  let el := {| depth_attr := Some (js "abc"); transform := "" |} in
  parseFloat_str (js "abc") = NaN /\
  depth_of el = NaN /\
  depth_of el <> Fin (1 # 20) /\
  transform (place (Fin (1 # 2)) (Fin (1 # 2)) el) = "translate3d(NaNpx, NaNpx, 0)"%string.
Proof. cbv zeta. repeat split; try reflexivity. discriminate. Qed.

(** C7, amended: on every frame, every element selected by [init] (the
    nodes that carry a depth attribute) gets the transform built from
    [current * depth * 80] on both axes, where [depth] is what [parseFloat]
    makes of a non-empty depth attribute, and 0.05 when the attribute is
    absent or empty. *)
Theorem depth_coefficient :
  (forall (curX curY : num) (el : element),
     transform (place curX curY el) =
       translate3d (mul (mul curX (depth_of el)) (Fin 80))
                   (mul (mul curY (depth_of el)) (Fin 80))) /\
  (forall el, depth_attr el = None \/ depth_attr el = Some [] ->
     depth_of el = Fin (1 # 20)) /\
  (forall el c rest, depth_attr el = Some (c :: rest) ->
     depth_of el = parseFloat_str (c :: rest)) /\
  (forall w w' idx, elements w = Some idx -> animate w = Done w' ->
     forall i el, In i idx -> nth_error (nodes w) i = Some el ->
       nth_error (nodes w') i = Some (place (currentX w') (currentY w') el)) /\
  (forall w w', init w = Done w' ->
     exists idx, elements w' = Some idx /\
       forall i, In i idx <->
         exists el, nth_error (nodes w) i = Some el /\ depth_attr el <> None).
Proof.
  split; [reflexivity|]. split; [|split; [|split]].
  - intros el [E|E]; unfold depth_of; rewrite E; reflexivity.
  - intros el c rest E. unfold depth_of. rewrite E. reflexivity.
  - intros w w' idx Ee Ea i el Hi Hn.
    destruct (animate_runs w idx Ee) as (w1 & Ea1 & _ & _ & _ & _ & _ & _ & _ & _ & _ & _ & Nd).
    rewrite Ea in Ea1. injection Ea1 as <-.
    rewrite Nd, (nth_error_fold_update _ idx (place_idempotent _ _)), Hn.
    replace (existsb (Nat.eqb i) idx) with true; [reflexivity|].
    symmetry. apply existsb_exists. exists i. split; [exact Hi|apply Nat.eqb_refl].
  - intros w w' Ei. exists (tagged_from 0 (nodes w)). split.
    + unfold init in Ei.
      destruct (tagged_from 0 (nodes w)) eqn:Et.
      * injection Ei as <-. reflexivity.
      * cbn [isTouchOnly hover_none set_scene] in Ei.
        destruct (hover_none w); injection Ei as <-; reflexivity.
    + intros i. rewrite tagged_from_spec. rewrite Nat.sub_0_r.
      split; intros (el & H); exists el.
      * destruct H as (_ & H). exact H.
      * split; [lia|exact H].
Qed.

Lemma depth_coefficient_witness :
  depth_of {| depth_attr := None; transform := "" |} = Fin (1 # 20) /\
  depth_of {| depth_attr := Some (js "0.08"); transform := "" |} = Fin (2 # 25) /\
  transform (place (Fin (1 # 2)) (Fin 0)
                   {| depth_attr := Some (js "0.08"); transform := "" |})
    = "translate3d(3.20px, 0.00px, 0)"%string.
Proof.
  destruct depth_coefficient as (P & A & B & _).
  split; [apply A; left; reflexivity|].
  split; [apply (B _ 48%N (js ".08")); reflexivity|].
  rewrite P. reflexivity.
Defined.

(** ** The life cycle *)

Lemma listener_eqb_eq (a b : listener) : listener_eqb a b = true <-> a = b.
Proof.
  destruct a, b; simpl; split; intros E; try reflexivity; try discriminate.
  - apply Nat.eqb_eq in E. congruence.
  - injection E as ->. apply Nat.eqb_refl.
Qed.

Lemma remove_listener_spec (l x : listener) (ls : list listener) :
  In x (remove_listener l ls) <-> In x ls /\ x <> l.
Proof.
  unfold remove_listener. rewrite filter_In. split; intros [I N]; split; try exact I.
  - intros ->. rewrite (proj2 (listener_eqb_eq l l) eq_refl) in N. discriminate.
  - destruct (listener_eqb l x) eqn:E; [|reflexivity].
    apply listener_eqb_eq in E. congruence.
Qed.

(** What [destroy] does, in any state of the window and of the module. *)
Lemma destroy_effect (w : world) :
  exists w',
    destroy w = Done w' /\
    mousemove w' = remove_listener OnMouseMove (mousemove w) /\
    resize w' = remove_listener OnResize (resize w) /\
    frames w' = match rafId w with
                | Some hd => filter (fun f => negb (Nat.eqb (fst f) hd)) (frames w)
                | None => frames w
                end /\
    rafId w' = rafId w /\ elements w' = elements w /\ nodes w' = nodes w.
Proof.
  unfold destroy. eexists. split; [reflexivity|].
  destruct w as [? ? ? ? ? ? ? ? ? ? ? ? ? ? ? [hd|]]; repeat split; reflexivity.
Qed.







(** ** C9 *)




End ParallaxFacts.

(* ================================================================== *)
(** * Facts about the email check and the subscribe form *)
(* ================================================================== *)

Module UtilsFacts.
Import JS Utils.

Local Open Scope list_scope.

(** ** The matcher decides the language *)

Lemma lang_Void_inv (str : jsstring) : lang Void str -> False.
Proof. intros H. inversion H. Qed.

Lemma lang_Eps_inv (str : jsstring) : lang Eps str -> str = [].
Proof. intros H. inversion H. reflexivity. Qed.

Lemma lang_Class_inv (p : N -> bool) (str : jsstring) :
  lang (Class p) str -> exists c, str = [c] /\ p c = true.
Proof. intros H. inversion H; subst. eauto. Qed.

Lemma lang_Seq_inv (r1 r2 : regex) (str : jsstring) :
  lang (Seq r1 r2) str ->
  exists s1 s2, str = s1 ++ s2 /\ lang r1 s1 /\ lang r2 s2.
Proof. intros H. inversion H; subst. eauto. Qed.

Lemma lang_Alt_inv (r1 r2 : regex) (str : jsstring) :
  lang (Alt r1 r2) str -> lang r1 str \/ lang r2 str.
Proof. intros H. inversion H; subst; auto. Qed.

(** A non-empty word of [r*] starts with a non-empty word of [r]. *)
Lemma lang_Star_cons (r : regex) (c : N) (str : jsstring) :
  lang (Star r) (c :: str) ->
  exists s1 s2, str = s1 ++ s2 /\ lang r (c :: s1) /\ lang (Star r) s2.
Proof.
  intros H. remember (Star r) as e eqn:Ee. remember (c :: str) as u eqn:Eu.
  revert c str Eu.
  induction H as [| | | | | |r' s1 s2 H1 _ H2 IH2]; try discriminate; intros c str Eu.
  injection Ee as ->.
  destruct s1 as [|c1 s1].
  - simpl in Eu. apply (IH2 eq_refl c str Eu).
  - simpl in Eu. injection Eu as -> <-. exists s1, s2. auto.
Qed.

Lemma nullable_lang (r : regex) : nullable r = true <-> lang r [].
Proof.
  induction r as [| |p|r1 IH1 r2 IH2|r1 IH1 r2 IH2|r IH]; simpl.
  - split; [discriminate|]. intros H. destruct (lang_Void_inv _ H).
  - split; [intros _; constructor|reflexivity].
  - split; [discriminate|]. intros H.
    destruct (lang_Class_inv _ _ H) as (c & E & _). discriminate.
  - rewrite andb_true_iff, IH1, IH2. split.
    + intros [H1 H2]. apply (LSeq _ _ [] [] H1 H2).
    + intros H. destruct (lang_Seq_inv _ _ _ H) as (s1 & s2 & E & H1 & H2).
      symmetry in E. apply app_eq_nil in E. destruct E as [-> ->]. auto.
  - rewrite orb_true_iff, IH1, IH2. split.
    + intros [H|H]; [apply LAltL|apply LAltR]; exact H.
    + apply lang_Alt_inv.
  - split; [intros _; constructor|reflexivity].
Qed.

Lemma deriv_lang (c : N) (r : regex) (str : jsstring) :
  lang (deriv c r) str <-> lang r (c :: str).
Proof.
  revert str.
  induction r as [| |p|r1 IH1 r2 IH2|r1 IH1 r2 IH2|r IH]; intros str; simpl.
  - split; intros H; destruct (lang_Void_inv _ H).
  - split; intros H; [destruct (lang_Void_inv _ H)|].
    apply lang_Eps_inv in H. discriminate.
  - destruct (p c) eqn:Ep; split; intros H.
    + apply lang_Eps_inv in H. subst. constructor. exact Ep.
    + destruct (lang_Class_inv _ _ H) as (c' & E & _).
      injection E as -> ->. constructor.
    + destruct (lang_Void_inv _ H).
    + destruct (lang_Class_inv _ _ H) as (c' & E & P).
      injection E as -> ->. congruence.
  - assert (Left : lang (Seq (deriv c r1) r2) str -> lang (Seq r1 r2) (c :: str)).
    { intros H. destruct (lang_Seq_inv _ _ _ H) as (s1 & s2 & -> & H1 & H2).
      apply IH1 in H1. apply (LSeq _ _ (c :: s1) s2 H1 H2). }
    assert (Back : lang (Seq r1 r2) (c :: str) ->
                   lang (Seq (deriv c r1) r2) str \/
                   (lang r1 [] /\ lang r2 (c :: str))).
    { intros H. destruct (lang_Seq_inv _ _ _ H) as (s1 & s2 & E & H1 & H2).
      destruct s1 as [|c1 s1].
      - simpl in E. subst s2. right. auto.
      - simpl in E. injection E as -> ->. left.
        apply LSeq; [apply IH1; exact H1|exact H2]. }
    destruct (nullable r1) eqn:En.
    + split.
      * intros H. apply lang_Alt_inv in H. destruct H as [H|H]; [auto|].
        apply IH2 in H. apply (LSeq _ _ [] (c :: str)); [|exact H].
        apply nullable_lang. exact En.
      * intros H. destruct (Back H) as [K|[_ K]].
        -- apply LAltL. exact K.
        -- apply LAltR. apply IH2. exact K.
    + split; [exact Left|]. intros H. destruct (Back H) as [K|[K _]]; [exact K|].
      apply nullable_lang in K. congruence.
  - split; intros H; apply lang_Alt_inv in H; destruct H as [H|H].
    + apply LAltL. apply IH1. exact H.
    + apply LAltR. apply IH2. exact H.
    + apply LAltL. apply IH1. exact H.
    + apply LAltR. apply IH2. exact H.
  - split; intros H.
    + destruct (lang_Seq_inv _ _ _ H) as (s1 & s2 & -> & H1 & H2).
      apply IH in H1. apply (LStarCons r (c :: s1) s2 H1 H2).
    + destruct (lang_Star_cons _ _ _ H) as (s1 & s2 & -> & H1 & H2).
      apply LSeq; [apply IH; exact H1|exact H2].
Qed.

Lemma test_lang (r : regex) (str : jsstring) : test r str = true <-> lang r str.
Proof.
  unfold test. revert r. induction str as [|c str IH]; intros r; simpl.
  - apply nullable_lang.
  - rewrite IH. apply deriv_lang.
Qed.

(** ** The language of the email pattern *)

Lemma lang_Star_Class (p : N -> bool) (str : jsstring) :
  lang (Star (Class p)) str <-> forallb p str = true.
Proof.
  induction str as [|c str IH]; simpl.
  - split; [reflexivity|intros _; constructor].
  - rewrite andb_true_iff, <- IH. split.
    + intros H. destruct (lang_Star_cons _ _ _ H) as (s1 & s2 & -> & H1 & H2).
      destruct (lang_Class_inv _ _ H1) as (c' & E & P).
      injection E as -> ->. simpl. auto.
    + intros [P H]. apply (LStarCons (Class p) [c] str); [constructor; exact P|exact H].
Qed.

Lemma lang_Plus_Class (p : N -> bool) (str : jsstring) :
  lang (Plus (Class p)) str <-> str <> [] /\ forallb p str = true.
Proof.
  unfold Plus. split.
  - intros H. destruct (lang_Seq_inv _ _ _ H) as (s1 & s2 & -> & H1 & H2).
    destruct (lang_Class_inv _ _ H1) as (c & -> & P).
    apply lang_Star_Class in H2. simpl. rewrite P, H2.
    split; [discriminate|reflexivity].
  - intros [N F]. destruct str as [|c str]; [congruence|].
    simpl in F. apply andb_true_iff in F. destruct F as [P F].
    apply (LSeq _ _ [c] str); [constructor; exact P|].
    apply lang_Star_Class. exact F.
Qed.

Lemma lang_AtLeast2_Class (p : N -> bool) (str : jsstring) :
  lang (AtLeast2 (Class p)) str <->
  (2 <= List.length str)%nat /\ forallb p str = true.
Proof.
  unfold AtLeast2. split.
  - intros H. destruct (lang_Seq_inv _ _ _ H) as (s1 & s2 & -> & H1 & H2).
    destruct (lang_Class_inv _ _ H1) as (c & -> & P).
    apply lang_Plus_Class in H2. destruct H2 as [N F].
    simpl. rewrite P, F. split; [|reflexivity].
    destruct s2; [congruence|simpl; lia].
  - intros [L F]. destruct str as [|c str]; [simpl in L; lia|].
    simpl in F. apply andb_true_iff in F. destruct F as [P F].
    apply (LSeq _ _ [c] str); [constructor; exact P|].
    apply lang_Plus_Class. split; [|exact F].
    destruct str; [simpl in L; lia|discriminate].
Qed.

Lemma lang_single (p : N -> bool) (k : N) (str : jsstring) :
  (forall c, p c = true <-> c = k) ->
  lang (Class p) str <-> str = [k].
Proof.
  intros Hp. split.
  - intros H. destruct (lang_Class_inv _ _ H) as (c & -> & P).
    apply Hp in P. subst. reflexivity.
  - intros ->. constructor. apply Hp. reflexivity.
Qed.

Lemma is_at_spec (c : N) : is_at c = true <-> c = 64%N.
Proof. unfold is_at. apply N.eqb_eq. Qed.

Lemma is_dot_spec (c : N) : is_dot c = true <-> c = 46%N.
Proof. unfold is_dot. apply N.eqb_eq. Qed.

Lemma email_pattern_shape (str : jsstring) :
  lang email_pattern str <-> email_shape str.
Proof.
  unfold email_pattern, email_shape. split.
  - intros H.
    destruct (lang_Seq_inv _ _ _ H) as (lo & s1 & -> & Hlo & H1).
    destruct (lang_Seq_inv _ _ _ H1) as (at_ & s2 & -> & Hat & H2).
    destruct (lang_Seq_inv _ _ _ H2) as (dom & s3 & -> & Hdom & H3).
    destruct (lang_Seq_inv _ _ _ H3) as (dot & rest & -> & Hdot & Hrest).
    apply (lang_single _ _ _ is_at_spec) in Hat.
    apply (lang_single _ _ _ is_dot_spec) in Hdot. subst at_ dot.
    apply lang_Plus_Class in Hlo. apply lang_Plus_Class in Hdom.
    apply lang_AtLeast2_Class in Hrest.
    exists lo, dom, rest. tauto.
  - intros (lo & dom & rest & -> & Flo & Fdom & Frest & Nlo & Ndom & Lrest).
    apply LSeq; [apply lang_Plus_Class; auto|].
    apply LSeq; [apply (lang_single _ _ _ is_at_spec); reflexivity|].
    apply LSeq; [apply lang_Plus_Class; auto|].
    apply LSeq; [apply (lang_single _ _ _ is_dot_spec); reflexivity|].
    apply lang_AtLeast2_Class. auto.
Qed.

Lemma isValidEmail_shape (email : jsstring) :
  isValidEmail email = true <-> email_shape (trim email).
Proof. unfold isValidEmail. rewrite test_lang. apply email_pattern_shape. Qed.

(** ** [trim] *)

Lemma trimStart_idem (str : jsstring) : trimStart (trimStart str) = trimStart str.
Proof.
  induction str as [|c str IH]; simpl; [reflexivity|].
  destruct (is_space c) eqn:E; [exact IH|]. simpl. rewrite E. reflexivity.
Qed.

Lemma trimStart_head (str : jsstring) (c : N) (tl : jsstring) :
  trimStart str = c :: tl -> is_space c = false.
Proof.
  induction str as [|c' str IH]; simpl; [discriminate|].
  destruct (is_space c') eqn:E; [exact IH|]. intros K. injection K as -> _. exact E.
Qed.

Lemma trimStart_fix (str : jsstring) :
  match str with [] => True | c :: _ => is_space c = false end ->
  trimStart str = str.
Proof. destruct str as [|c tl]; simpl; [reflexivity|]. intros ->. reflexivity. Qed.

Lemma trimStart_suffix (str : jsstring) : exists sp, str = sp ++ trimStart str.
Proof.
  induction str as [|c str (sp & IH)]; simpl; [exists []; reflexivity|].
  destruct (is_space c).
  - exists (c :: sp). simpl. rewrite <- IH. reflexivity.
  - exists []. reflexivity.
Qed.

Lemma trimEnd_prefix (str : jsstring) : exists sp, str = trimEnd str ++ sp.
Proof.
  unfold trimEnd. destruct (trimStart_suffix (rev str)) as (sp & E).
  exists (rev sp). rewrite <- rev_app_distr, <- E, rev_involutive. reflexivity.
Qed.

Lemma trim_idem (str : jsstring) : trim (trim str) = trim str.
Proof.
  unfold trim. set (u := trimStart str).
  assert (S1 : trimStart (trimEnd u) = trimEnd u).
  { apply trimStart_fix. destruct (trimEnd_prefix u) as (sp & E).
    destruct (trimEnd u) as [|c tl] eqn:Et; [exact I|].
    apply (trimStart_head str c (tl ++ sp)). fold u. rewrite E. reflexivity. }
  rewrite S1. unfold trimEnd. rewrite rev_involutive, trimStart_idem. reflexivity.
Qed.

Lemma isValidEmail_trim (email : jsstring) :
  isValidEmail (trim email) = isValidEmail email.
Proof. unfold isValidEmail. rewrite trim_idem. reflexivity. Qed.

End UtilsFacts.

Module FormFacts.
Import JS Utils SubscribeForm.

Local Open Scope list_scope.

(** ** The three ways out of [onSubmit] *)

Lemma onSubmit_empty (remote : jsstring -> reply) (st : form) :
  trim (value (emailInput st)) = [] ->
  onSubmit remote st = reject_input msg_empty (resetState st).
Proof. intros E. unfold onSubmit. cbn [resetState setMessage with_message with_field emailInput]. rewrite E. reflexivity. Qed.

Lemma onSubmit_invalid (remote : jsstring -> reply) (st : form) :
  trim (value (emailInput st)) <> [] ->
  isValidEmail (value (emailInput st)) = false ->
  onSubmit remote st = reject_input msg_invalid (resetState st).
Proof.
  intros N V. unfold onSubmit.
  cbn [resetState setMessage with_message with_field emailInput].
  destruct (trim (value (emailInput st))) as [|c tl] eqn:E; [congruence|].
  rewrite <- E, UtilsFacts.isValidEmail_trim, V. reflexivity.
Qed.

Lemma onSubmit_valid (remote : jsstring -> reply) (st : form) :
  isValidEmail (value (emailInput st)) = true ->
  let email := trim (value (emailInput st)) in
  email <> [] /\
  onSubmit remote st =
    cleanup (handle (remote email) (loading email (resetState st))).
Proof.
  intros V email.
  assert (N : email <> []).
  { intros E. unfold isValidEmail in V. fold email in V. rewrite E in V. discriminate. }
  split; [exact N|]. unfold onSubmit.
  cbn [resetState setMessage with_message with_field emailInput].
  fold email. destruct email as [|c tl] eqn:E; [congruence|].
  rewrite <- E. unfold email at 1. rewrite UtilsFacts.isValidEmail_trim, V. reflexivity.
Qed.

Lemma reject_input_sent (msg : jsstring) (st : form) :
  sent (reject_input msg (resetState st)) = sent st.
Proof. reflexivity. Qed.

Lemma cleanup_button (st : form) :
  submitBtn (cleanup st) = {| disabled := false; label := msg_notify |}.
Proof. reflexivity. Qed.

(** ** C5 *)

(** C5 as stated fails: "a@b.c.d" has a single character after its last
    dot and passes the check, because the part after the pattern's dot may
    itself contain dots. *)
Lemma one_char_after_last_dot_accepted :
  isValidEmail (js "a@b.c.d") = true /\
  after_last_dot (js "a@b.c.d") = js "d" /\
  ~ (2 <= List.length (after_last_dot (js "a@b.c.d")))%nat.
Proof. split; [reflexivity|]. split; [reflexivity|]. simpl. lia. Qed.

(** C5, amended: the check accepts exactly the strings that, once trimmed,
    read [local @ domain . rest] with no whitespace and no further [@] in
    the three parts, [local] and [domain] not empty and [rest] of at least
    two characters, dots allowed in all three.  "a@b.co" passes; "",
    "no-at-sign", "a@b" and "a@b." fail.  The handler tests for an empty
    (trimmed) input first and answers it with its own message; both
    failures mark the field, show the message, focus the input and make no
    remote call. *)
Theorem email_check :
  (forall email, isValidEmail email = true <-> email_shape (trim email)) /\
  isValidEmail (js "a@b.co") = true /\
  isValidEmail (js "") = false /\
  isValidEmail (js "no-at-sign") = false /\
  isValidEmail (js "a@b") = false /\
  isValidEmail (js "a@b.") = false /\
  (forall remote st,
     trim (value (emailInput st)) = [] ->
     onSubmit remote st = reject_input msg_empty (resetState st)) /\
  (forall remote st,
     trim (value (emailInput st)) <> [] ->
     isValidEmail (value (emailInput st)) = false ->
     onSubmit remote st = reject_input msg_invalid (resetState st)) /\
  msg_empty <> msg_invalid /\
  (forall msg st,
     let st' := reject_input msg (resetState st) in
     sent st' = sent st /\
     is_error (fieldWrap st') = true /\
     messageEl st' = {| text := msg; modifier := Some Error; visible := true |} /\
     focused (emailInput st') = true /\
     submitBtn st' = submitBtn st).
Proof.
  split; [exact UtilsFacts.isValidEmail_shape|].
  do 5 (split; [reflexivity|]).
  split; [exact onSubmit_empty|]. split; [exact onSubmit_invalid|].
  split; [discriminate|].
  intros msg st. cbv zeta. repeat split; reflexivity.
Qed.

Lemma email_check_witness :
  (* three inputs: blank, malformed, well-formed *)
  let blank := fresh (js "   ") msg_notify in
  let bad := fresh (js "a@b") msg_notify in
  text (messageEl (onSubmit (fun _ => Rejected) blank)) = msg_empty /\
  text (messageEl (onSubmit (fun _ => Rejected) bad)) = msg_invalid /\
  sent (onSubmit (fun _ => Rejected) bad) = [] /\
  email_shape (trim (js " a@b.co ")).
Proof.
  destruct email_check as (Sh & _ & _ & _ & _ & _ & E & V & _ & R).
  cbv zeta. split; [|split; [|split]].
  - rewrite (E (fun _ => Rejected) (fresh (js "   ") msg_notify) eq_refl). reflexivity.
  - rewrite (V (fun _ => Rejected) (fresh (js "a@b") msg_notify)
               ltac:(discriminate) eq_refl).
    reflexivity.
  - rewrite (V (fun _ => Rejected) (fresh (js "a@b") msg_notify)
               ltac:(discriminate) eq_refl).
    reflexivity.
  - apply Sh. reflexivity.
Defined.

(** ** C6 *)

(** C6 as stated fails: the handler does not remember the button's label;
    a button labelled "Join" ends the attempt labelled "Notify Me". *)
Lemma label_not_restored :
  let st := fresh (js "a@b.co") (js "Join") in
  let st' := onSubmit (fun _ => Resolved true (js "ok")) st in
  isValidEmail (value (emailInput st)) = true /\
  label (submitBtn st) = js "Join" /\
  label (submitBtn st') = js "Notify Me" /\
  label (submitBtn st') <> label (submitBtn st).
Proof. cbv zeta. repeat split; try reflexivity. discriminate. Qed.

(** C6, amended: once validation has passed, the handler disables the
    button and labels it "Sending..." for the duration of the remote call
    and, whatever the call does (a success result, a failure result, a
    rejected promise, a thrown exception), ends with the button enabled and
    labelled with the fixed text "Notify Me", whatever its label was
    before. *)
Theorem submit_always_cleans_up (remote : jsstring -> reply) (st : form) :
  isValidEmail (value (emailInput st)) = true ->
  let email := trim (value (emailInput st)) in
  let busy := loading email (resetState st) in
  let st' := onSubmit remote st in
  submitBtn busy = {| disabled := true; label := msg_sending |} /\
  sent busy = email :: sent st /\
  st' = cleanup (handle (remote email) busy) /\
  (forall r, submitBtn (cleanup (handle r busy))
             = {| disabled := false; label := js "Notify Me" |}) /\
  submitBtn st' = {| disabled := false; label := js "Notify Me" |} /\
  (forall lbl, submitBtn (onSubmit remote
                 (with_button {| disabled := disabled (submitBtn st); label := lbl |} st))
               = submitBtn st').
Proof.
  intros V email busy st'.
  destruct (onSubmit_valid remote st V) as (N & E).
  fold email in E. fold busy in E. fold st' in E.
  split; [reflexivity|]. split; [reflexivity|]. split; [exact E|].
  split; [intros r; reflexivity|].
  split; [rewrite E; reflexivity|].
  intros lbl.
  destruct (onSubmit_valid remote
              (with_button {| disabled := disabled (submitBtn st); label := lbl |} st) V)
    as (_ & E').
  rewrite E', E. reflexivity.
Qed.

Lemma submit_always_cleans_up_witness :
  (* the remote call throws *)
  let st' := onSubmit (fun _ => Threw) (fresh (js "a@b.co") (js "Join")) in
  submitBtn st' = {| disabled := false; label := js "Notify Me" |} /\
  is_error (fieldWrap st') = true /\
  text (messageEl st') = msg_connection.
Proof.
  destruct (submit_always_cleans_up (fun _ => Threw)
              (fresh (js "a@b.co") (js "Join")) eq_refl)
    as (_ & _ & E & _ & B & _).
  cbv zeta. split; [exact B|].
  rewrite E. split; reflexivity.
Defined.

End FormFacts.

(* ================================================================== *)
(** * More about the countdown *)
(* ================================================================== *)

Module CountdownExtra.
Import Countdown CountdownSessions.

Local Open Scope string_scope.
Local Open Scope list_scope.
Local Open Scope Z_scope.

(** ** Effects on digit elements leave the timers alone *)

Lemma apply_digit_effect (e : effect) (w : world) :
  digit_effect e ->
  intervals (apply_effect e w) = intervals w /\
  nextHandle (apply_effect e w) = nextHandle w /\
  ariaLabel (apply_effect e w) = ariaLabel w /\
  clo (apply_effect e w) = clo w /\
  ticks (apply_effect e w) = ticks w.
Proof.
  unfold digit_effect.
  destruct e as [el txt|el cl|el|el cl|hd|a]; simpl; intros H;
    try congruence; destruct el; repeat split; reflexivity.
Qed.

Lemma apply_digit_effects (tr : list effect) (w : world) :
  Forall digit_effect tr ->
  intervals (apply_effects tr w) = intervals w /\
  nextHandle (apply_effects tr w) = nextHandle w /\
  ariaLabel (apply_effects tr w) = ariaLabel w /\
  clo (apply_effects tr w) = clo w /\
  ticks (apply_effects tr w) = ticks w.
Proof.
  unfold apply_effects. revert w.
  induction tr as [|e tr IH]; intros w F; simpl; [repeat split; reflexivity|].
  inversion F as [|e' tr' He Htr]; subst.
  destruct (apply_digit_effect e w He) as (A & B & C & D & E).
  destruct (IH (apply_effect e w) Htr) as (A' & B' & C' & D' & E').
  rewrite A', B', C', D', E'. repeat split; assumption.
Qed.

Lemma updateDigit_digit_effects (el : slot) (v old : num) :
  Forall digit_effect (snd (updateDigit el v old)).
Proof.
  unfold updateDigit, digit_effect. simpl.
  destruct (strict_ne v old); repeat constructor; discriminate.
Qed.

(** Outside the Finished branch, [tick] only writes to digit elements and
    keeps the timer handle. *)
Lemma tick_unfinished (target : num) (now : Z) (c : closure) :
  le0 (sub target (Int now)) = false ->
  Forall digit_effect (snd (tick target now c)) /\
  intervalId (fst (tick target now c)) = intervalId c.
Proof.
  intros H. unfold tick. rewrite H. cbv zeta.
  destruct (updateDigit Days _ _) as [pd e1] eqn:E1.
  destruct (updateDigit Hours _ _) as [ph e2] eqn:E2.
  destruct (updateDigit Mins _ _) as [pm e3] eqn:E3.
  destruct (updateDigit Secs _ _) as [ps e4] eqn:E4.
  split; [|reflexivity]. cbn [snd].
  pose proof (updateDigit_digit_effects Days
    (floor_div (floor_div (sub target (Int now)) 1000) 86400) (d (prev c))) as F1.
  pose proof (updateDigit_digit_effects Hours
    (floor_div (rem (floor_div (sub target (Int now)) 1000) 86400) 3600) (h (prev c))) as F2.
  pose proof (updateDigit_digit_effects Mins
    (floor_div (rem (floor_div (sub target (Int now)) 1000) 3600) 60) (m (prev c))) as F3.
  pose proof (updateDigit_digit_effects Secs
    (rem (floor_div (sub target (Int now)) 1000) 60) (s (prev c))) as F4.
  rewrite E1 in F1. rewrite E2 in F2. rewrite E3 in F3. rewrite E4 in F4.
  cbn [snd] in F1, F2, F3, F4.
  repeat (apply Forall_app; split); assumption.
Qed.

Lemma get_with_timers (el : slot) (ivs : list nat) (nx : nat) (c : closure)
    (k : nat) (w : world) :
  get el (with_timers ivs nx c k w) = get el w.
Proof. destruct el; reflexivity. Qed.

Lemma run_tick_unfinished (target : num) (now : Z) (w : world) :
  le0 (sub target (Int now)) = false ->
  let w' := run_tick target now w in
  intervals w' = intervals w /\
  nextHandle w' = nextHandle w /\
  ariaLabel w' = ariaLabel w /\
  intervalId (clo w') = intervalId (clo w) /\
  ticks w' = S (ticks w) /\
  clo w' = fst (tick target now (clo w)) /\
  forall el, get el w' = get el (apply_effects (snd (tick target now (clo w))) w).
Proof.
  intros H. destruct (tick_unfinished target now (clo w) H) as (F & Id).
  unfold run_tick. destruct (tick target now (clo w)) as [c' tr] eqn:E.
  cbn [fst snd] in F, Id. cbv zeta.
  destruct (apply_digit_effects tr w F) as (A & B & C & D & T).
  cbn [with_timers intervals nextHandle ariaLabel clo ticks fst snd].
  rewrite A, B, C, T. repeat split; try assumption; try reflexivity.
Qed.

(** ** [init] *)

Lemma tick_finished_any (target : num) (now : Z) (c : closure) :
  le0 (sub target (Int now)) = true -> tick target now c = (c, finish_trace c).
Proof. intros H. unfold tick. rewrite H. reflexivity. Qed.

Lemma init_complete (doc : document) (target : num) (now : Z) (w : world) :
  complete doc = true ->
  init doc target now w =
    (let w1 := run_tick target now w in
     with_timers (nextHandle w1 :: intervals w1) (S (nextHandle w1))
                 {| prev := prev (clo w1); intervalId := Some (nextHandle w1) |}
                 (ticks w1) w1).
Proof.
  unfold complete, init. intros H.
  repeat (apply andb_true_iff in H; destruct H as [H ?]).
  rewrite H, H0, H1, H2, H3. reflexivity.
Qed.

Lemma init_incomplete (doc : document) (target : num) (now : Z) (w : world) :
  complete doc = false -> init doc target now w = w.
Proof.
  intros H. unfold complete in H. unfold init.
  destruct (has_container doc); [|reflexivity].
  destruct (has_days doc), (has_hours doc), (has_mins doc), (has_secs doc);
    try reflexivity; discriminate.
Qed.

Lemma init_complete_loaded (doc : document) (target : num) (now : Z) (txt : string) :
  complete doc = true ->
  let w := init doc target now (loaded txt) in
  ticks w = 1%nat /\ scheduled w /\ nextHandle w = 2%nat /\
  (le0 (sub target (Int now)) = false -> ariaLabel w = None).
Proof.
  intros H w. unfold w. rewrite (init_complete doc target now _ H). cbv zeta.
  destruct (le0 (sub target (Int now))) eqn:F.
  - unfold run_tick. rewrite (tick_finished_any target now _ F).
    repeat split; try reflexivity. discriminate.
  - pose proof (run_tick_unfinished target now (loaded txt) F) as X.
    cbv zeta in X. destruct X as (A & B & C & _ & T & _).
    unfold scheduled. cbn [with_timers intervals nextHandle clo ticks intervalId ariaLabel].
    rewrite A, B, C, T. repeat split; reflexivity.
Qed.

(** X1: [init] does nothing at all when the container or one of the four
    digit elements is missing; with all of them present, on the page as
    loaded, it runs [tick] once immediately and leaves exactly one timer
    scheduled, whose handle is the one [intervalId] holds, whatever the
    target date and the clock are. *)
Theorem init_all_or_nothing (doc : document) (target : num) (now : Z) :
  (complete doc = false -> forall w, init doc target now w = w) /\
  (complete doc = true -> forall txt,
     let w := init doc target now (loaded txt) in
     ticks w = 1%nat /\ scheduled w /\ nextHandle w = 2%nat).
Proof.
  split.
  - intros H w. apply init_incomplete. exact H.
  - intros H txt. pose proof (init_complete_loaded doc target now txt H) as X.
    cbv zeta in *. tauto.
Qed.

Lemma init_all_or_nothing_witness :
  init {| has_container := true; has_days := true; has_hours := false;
          has_mins := true; has_secs := true |} (Int 5000) 0 (loaded "--")
    = loaded "--" /\
  ticks (init full_document NaN 0 (loaded "--")) = 1%nat.
Proof.
  split.
  - apply (proj1 (init_all_or_nothing _ (Int 5000) 0)). reflexivity.
  - apply (proj2 (init_all_or_nothing full_document NaN 0) eq_refl "--").
Defined.

(** ** The end of a session *)

Lemma fire_keeps_outcome (target : num) (now : Z) (w : world) :
  scheduled w \/ launched w ->
  match fire target now w with
  | Some w' => scheduled w' \/ launched w'
  | None => launched w
  end.
Proof.
  intros [[Ei Eh]|L].
  - unfold fire. rewrite Ei.
    destruct (le0 (sub target (Int now))) eqn:F.
    + right. destruct target as [t|]; [|discriminate].
      apply CountdownFacts.finished_iff in F.
      destruct (CountdownFacts.scheduled_finish t now 1%nat w Ei Eh F)
        as (w' & Fi & A & B & C & _).
      unfold fire in Fi. rewrite Ei in Fi. injection Fi as <-.
      repeat split; assumption.
    + left. pose proof (run_tick_unfinished target now w F) as X.
      cbv zeta in X. destruct X as (A & _ & _ & D & _).
      split; [rewrite A; exact Ei|rewrite D; exact Eh].
  - destruct L as (Ei & Et & Ea). unfold fire. rewrite Ei.
    repeat split; assumption.
Qed.

Lemma session_keeps_outcome (clock : list (num * Z)) (w : world) :
  scheduled w \/ launched w ->
  scheduled (session clock w) \/ launched (session clock w).
Proof.
  revert w. induction clock as [|[target now] rest IH]; intros w H; [exact H|].
  simpl. pose proof (fire_keeps_outcome target now w H) as K.
  destruct (fire target now w) as [w'|].
  - apply IH. exact K.
  - apply IH. right. exact K.
Qed.

Lemma session_app (c1 c2 : list (num * Z)) (w : world) :
  session (c1 ++ c2) w = session c2 (session c1 w).
Proof.
  revert w. induction c1 as [|[target now] rest IH]; intros w; [reflexivity|].
  simpl. destruct (fire target now w); apply IH.
Qed.

(** X2: whatever the target attribute and the clock did before, once a
    timer firing finds the target reached, the page is in its final state:
    no timer is scheduled, the four displays read "00", the completion
    label is set, and later firings change nothing. *)
Theorem first_reached_firing_is_final
    (target0 : num) (now0 : Z) (txt : string)
    (before after : list (num * Z)) (t now : Z) :
  t <= now ->
  let w0 := init full_document target0 now0 (loaded txt) in
  let w := session (before ++ [(Int t, now)]) w0 in
  launched w /\ session (before ++ (Int t, now) :: after) w0 = w.
Proof.
  intros H w0 w.
  assert (S0 : scheduled w0).
  { apply (init_complete_loaded full_document target0 now0 txt eq_refl). }
  assert (L : launched w).
  { unfold w. rewrite session_app.
    pose proof (session_keeps_outcome before w0 (or_introl S0)) as K.
    set (w1 := session before w0) in *. simpl.
    destruct K as [[Ei Eh]|L1].
    - destruct (CountdownFacts.scheduled_finish t now 1%nat w1 Ei Eh H)
        as (w' & Fi & A & B & C & _).
      rewrite Fi. repeat split; assumption.
    - destruct L1 as (Ei & Et & Ea). unfold fire. rewrite Ei.
      repeat split; assumption. }
  split; [exact L|].
  change (before ++ (Int t, now) :: after)
    with (before ++ [(Int t, now)] ++ after).
  rewrite app_assoc, session_app. fold w.
  apply CountdownFacts.session_idle. apply L.
Qed.

Lemma first_reached_firing_is_final_witness :
  (* loaded 3 s before the target, the timer fires at 2 s, 1 s, 0 s, then twice more *)
  let w := session [(Int 3000, 1000); (Int 3000, 2000); (Int 3000, 3000);
                    (Int 3000, 4000); (Int 3000, 5000)]
                   (init full_document (Int 3000) 0 (loaded "--")) in
  texts w = ("00", "00", "00", "00") /\ intervals w = [] /\ ticks w = 4%nat.
Proof.
  destruct (first_reached_firing_is_final (Int 3000) 0 "--"
              [(Int 3000, 1000); (Int 3000, 2000)]
              [(Int 3000, 4000); (Int 3000, 5000)] 3000 3000 ltac:(lia))
    as ((Ei & Et & _) & E).
  cbv zeta in E. simpl app in E. cbv zeta. rewrite E.
  split; [exact Et|]. split; [exact Ei|reflexivity].
Defined.

(** ** What the displays show while the countdown runs *)

Lemma strict_ne_false (a b : num) : strict_ne a b = false -> a = b.
Proof.
  destruct a as [x|], b as [y|]; simpl; try discriminate.
  intros H. apply negb_false_iff, Z.eqb_eq in H. congruence.
Qed.

(** The text of an element after a running tick: rewritten if the component
    changed, and otherwise what it was. *)
Lemma text_after_running (el : slot) (t now : Z) (w : world) :
  0 < t - now ->
  let v := component el (spec_components (remaining_secs t now)) in
  textContent (get el (run_tick (Int t) now w)) =
  if strict_ne v (component el (prev (clo w))) then pad2 v
  else textContent (get el w).
Proof.
  intros H v.
  pose proof (run_tick_unfinished (Int t) now w
                (CountdownFacts.running_not_finished t now H)) as X.
  cbv zeta in X. destruct X as (_ & _ & _ & _ & _ & _ & G).
  rewrite G, CountdownFacts.get_apply_effects,
          (CountdownFacts.effects_on_running el t now (clo w) H).
  fold v. unfold updateDigit. cbn [snd].
  destruct (strict_ne v (component el (prev (clo w)))); reflexivity.
Qed.

Lemma running_keeps_in_step (t now : Z) (w : world) :
  0 < t - now ->
  scheduled w -> in_step w -> ariaLabel w = None ->
  let w' := run_tick (Int t) now w in
  scheduled w' /\ in_step w' /\ ariaLabel w' = None /\
  prev (clo w') = spec_components (remaining_secs t now) /\
  ticks w' = S (ticks w).
Proof.
  intros H [Ei Eh] St Ea w'.
  pose proof (run_tick_unfinished (Int t) now w
                (CountdownFacts.running_not_finished t now H)) as X.
  cbv zeta in X. destruct X as (A & _ & C & D & T & Cl & _).
  assert (P : prev (clo w') = spec_components (remaining_secs t now)).
  { unfold w'. rewrite Cl. apply CountdownFacts.tick_running_prev. exact H. }
  split; [split; [unfold w'; rewrite A; exact Ei|unfold w'; rewrite D; exact Eh]|].
  split.
  - intros el. unfold w' at 1. rewrite (text_after_running el t now w H). cbv zeta.
    rewrite P.
    destruct (strict_ne _ _) eqn:N; [reflexivity|].
    apply strict_ne_false in N. rewrite N. apply St.
  - split; [unfold w'; rewrite C; exact Ea|]. split; [exact P|exact T].
Qed.

Lemma init_running_in_step (t now : Z) (txt : string) :
  0 < t - now ->
  let w := init full_document (Int t) now (loaded txt) in
  scheduled w /\ in_step w /\ ariaLabel w = None /\
  prev (clo w) = spec_components (remaining_secs t now) /\ ticks w = 1%nat.
Proof.
  intros H w.
  pose proof (CountdownFacts.running_not_finished t now H) as F.
  pose proof (init_complete_loaded full_document (Int t) now txt eq_refl) as X.
  cbv zeta in X. destruct X as (T & Sc & _ & Ar). fold w in T, Sc, Ar.
  assert (P : prev (clo w) = spec_components (remaining_secs t now)).
  { unfold w. rewrite (init_complete full_document (Int t) now _ eq_refl). cbv zeta.
    cbn [with_timers clo prev].
    pose proof (run_tick_unfinished (Int t) now (loaded txt) F) as X.
    cbv zeta in X. destruct X as (_ & _ & _ & _ & _ & Cl & _).
    rewrite Cl. apply CountdownFacts.tick_running_prev. exact H. }
  split; [exact Sc|]. split.
  - intros el. rewrite P. unfold w.
    rewrite (init_complete full_document (Int t) now _ eq_refl). cbv zeta.
    rewrite get_with_timers, (text_after_running el t now (loaded txt) H). cbv zeta.
    cbn [loaded clo closure0 prev].
    replace (component el {| d := Int (-1); h := Int (-1); m := Int (-1); s := Int (-1) |})
      with (Int (-1)) by (destruct el; reflexivity).
    rewrite (CountdownFacts.spec_component_nonneg el _
               (CountdownFacts.remaining_nonneg t now H)).
    reflexivity.
  - split; [exact (Ar F)|]. split; [exact P|exact T].
Qed.

Lemma last_cons {A : Type} (x y : A) (l : list A) : last (x :: l) y = last l x.
Proof.
  revert x y. induction l as [|z l IH]; intros x y; [reflexivity|].
  change (last (x :: z :: l) y) with (last (z :: l) y).
  rewrite !IH. reflexivity.
Qed.

Lemma session_running (clock : list (Z * Z)) (r0 : Z * Z) (w : world) :
  Forall running clock ->
  scheduled w -> in_step w -> ariaLabel w = None ->
  prev (clo w) = spec_components (remaining_secs (fst r0) (snd r0)) ->
  let w' := session (valid_readings clock) w in
  let r := last clock r0 in
  scheduled w' /\ in_step w' /\ ariaLabel w' = None /\
  prev (clo w') = spec_components (remaining_secs (fst r) (snd r)) /\
  ticks w' = (ticks w + List.length clock)%nat.
Proof.
  cbv zeta. revert r0 w.
  induction clock as [|[t now] rest IH]; intros r0 w F Sc St Ea P.
  - simpl. repeat split; try assumption; try apply Sc. lia.
  - inversion F as [|r' rest' Hr Hrest]; subst. unfold running in Hr. simpl in Hr.
    pose proof (running_keeps_in_step t now w Hr Sc St Ea) as X.
    cbv zeta in X. destruct X as (Sc1 & St1 & Ea1 & P1 & T1).
    rewrite last_cons.
    change (valid_readings ((t, now) :: rest)) with ((Int t, now) :: valid_readings rest).
    cbn [session].
    unfold fire. destruct Sc as [Ei Eh]. rewrite Ei.
    destruct (IH (t, now) (run_tick (Int t) now w) Hrest Sc1 St1 Ea1 P1)
      as (A & B & C & D & E).
    split; [exact A|]. split; [exact B|]. split; [exact C|].
    split; [exact D|]. rewrite E, T1. simpl. lia.
Qed.

(** X3: as long as every tick finds time left, the displays are never
    stale: after any number of timer firings the four elements show the
    two-digit texts of the days, hours, minutes and seconds left at the
    latest tick, although each of them is only written to when its value
    changes; the timer is still scheduled, the completion label is not set,
    and [tick] has run once per firing plus once at load. *)
Theorem displays_follow_the_clock
    (t0 now0 : Z) (txt : string) (clock : list (Z * Z)) :
  0 < t0 - now0 ->
  Forall running clock ->
  let w := session (valid_readings clock)
                   (init full_document (Int t0) now0 (loaded txt)) in
  let r := last clock (t0, now0) in
  texts w = shown (spec_components (remaining_secs (fst r) (snd r))) /\
  scheduled w /\ ariaLabel w = None /\
  ticks w = S (List.length clock).
Proof.
  intros H F w r.
  pose proof (init_running_in_step t0 now0 txt H) as X. cbv zeta in X.
  destruct X as (Sc & St & Ea & P & T).
  pose proof (session_running clock (t0, now0) _ F Sc St Ea P) as Y.
  cbv zeta in Y. fold w in Y. fold r in Y. destruct Y as (A & B & C & D & E).
  split.
  - unfold texts, shown.
    rewrite <- D.
    pose proof (B Days) as B1. pose proof (B Hours) as B2.
    pose proof (B Mins) as B3. pose proof (B Secs) as B4.
    cbn [get component] in B1, B2, B3, B4.
    rewrite B1, B2, B3, B4. reflexivity.
  - split; [exact A|]. split; [exact C|]. rewrite E, T. reflexivity.
Qed.

Lemma displays_follow_the_clock_witness :
  (* 61 s left at load, then the timer fires twice *)
  texts (session (valid_readings [(61000, 1000); (61000, 2000)])
                 (init full_document (Int 61000) 0 (loaded "--")))
    = ("00", "00", "00", "59").
Proof.
  destruct (displays_follow_the_clock 61000 0 "--" [(61000, 1000); (61000, 2000)]
              ltac:(lia)) as (E & _).
  - repeat constructor.
  - cbv zeta in E. rewrite E. reflexivity.
Defined.

(** ** [pad2] *)

Lemma length_zeros (k : nat) : String.length (zeros k) = k.
Proof. induction k as [|k IH]; simpl; [reflexivity|]. rewrite IH. reflexivity. Qed.

Lemma length_append (a b : string) :
  String.length (a ++ b) = (String.length a + String.length b)%nat.
Proof. induction a as [|c a IH]; simpl; [reflexivity|]. rewrite IH. reflexivity. Qed.

Lemma pad2_small (n : Z) :
  0 <= n < 100 -> String.length (pad2 (Int n)) = 2%nat.
Proof.
  intros H.
  assert (K : forallb (fun k => Nat.eqb (String.length (pad2 (Int (Z.of_nat k)))) 2)
                      (seq 0 100) = true) by (vm_compute; reflexivity).
  rewrite forallb_forall in K.
  specialize (K (Z.to_nat n)). rewrite Z2Nat.id in K by lia.
  apply Nat.eqb_eq, K, in_seq. lia.
Qed.

(** X4: [pad2] never cuts a number short: its result ends with [String(n)]
    and has at least two characters, as many as [String(n)] when that has
    two or more.  On a running tick the hours, minutes and seconds written
    are exactly two characters long, and so are the days below 100. *)
Theorem pad2_width :
  (forall n, exists z, pad2 n = (zeros z ++ String_ n)%string /\
     String.length (pad2 n) = Nat.max 2 (String.length (String_ n))) /\
  (forall t now el,
     0 < t - now ->
     el <> Days \/ remaining_secs t now < 8640000 ->
     String.length
       (pad2 (component el (spec_components (remaining_secs t now)))) = 2%nat).
Proof.
  split.
  - intros n. exists (2 - String.length (String_ n))%nat. split; [reflexivity|].
    unfold pad2, padStart. rewrite length_append, length_zeros. lia.
  - intros t now el H Hel.
    pose proof (CountdownFacts.remaining_nonneg t now H) as HR.
    destruct (CountdownFacts.spec_components_ranges _ HR)
      as (dd & hh & mm & ss & E & Hd & Hh & Hm & Hs & Sum).
    rewrite E. destruct el; cbn [component d h m s]; apply pad2_small; try lia.
    destruct Hel as [N|L]; [congruence|]. lia.
Qed.

Lemma pad2_width_witness :
  String.length (pad2 (component Hours (spec_components (remaining_secs 90061999 0))))
    = 2%nat.
Proof.
  apply (proj2 pad2_width 90061999 0 Hours); [lia|].
  left. discriminate.
Defined.

End CountdownExtra.

(* ================================================================== *)
(** * What the countdown shows *)
(* ================================================================== *)

Module CountdownRender.
Import Countdown CountdownSessions CountdownRendering.

Local Open Scope string_scope.
Local Open Scope list_scope.
Local Open Scope Z_scope.

(** ** [pad2] against the specification's two digits *)

Lemma length_string_of_uint (u : Decimal.uint) :
  String.length (NilEmpty.string_of_uint u) = Decimal.nb_digits u.
Proof. induction u; simpl; congruence. Qed.

(** A numeral of fewer than two digits is worth less than ten. *)
Lemma short_numeral (u : Decimal.uint) :
  (Decimal.nb_digits u < 2)%nat -> (N.of_uint u <= 9)%N.
Proof.
  intros H.
  destruct u as [|v|v|v|v|v|v|v|v|v|v]; simpl in H;
    try (destruct v; simpl in H; try lia; vm_compute; discriminate).
  vm_compute. discriminate.
Qed.

Lemma String_long (n : Z) : 10 <= n -> (2 <= String.length (String_ (Int n)))%nat.
Proof.
  intros H. destruct n as [|p|p]; try lia.
  unfold String_, Z.to_int, NilZero.string_of_int, NilZero.string_of_uint.
  pose proof (DecimalPos.Unsigned.of_to p) as E.
  destruct (Nat.lt_ge_cases (Decimal.nb_digits (Pos.to_uint p)) 2) as [S|L].
  - apply short_numeral in S. unfold N.of_uint in S. rewrite E in S. lia.
  - destruct (Pos.to_uint p) eqn:U; [simpl in L; lia| ..];
      rewrite length_string_of_uint; exact L.
Qed.

Lemma pad2_below_100 (n : Z) : 0 <= n < 100 -> pad2 (Int n) = two_digits n.
Proof.
  intros H.
  assert (K : forallb (fun k => String.eqb (pad2 (Int (Z.of_nat k)))
                                           (two_digits (Z.of_nat k)))
                      (seq 0 100) = true) by (vm_compute; reflexivity).
  rewrite forallb_forall in K.
  specialize (K (Z.to_nat n)). rewrite Z2Nat.id in K by lia.
  apply String.eqb_eq, K, in_seq. lia.
Qed.

(** [pad2] writes a number that is not negative as the specification's
    two digits. *)
Lemma pad2_two_digits (n : Z) : 0 <= n -> pad2 (Int n) = two_digits n.
Proof.
  intros H. destruct (Z.lt_ge_cases n 100) as [S|L].
  - apply pad2_below_100. lia.
  - unfold two_digits. replace (n <? 100) with false by (symmetry; apply Z.ltb_ge; exact L).
    unfold pad2, padStart.
    pose proof (String_long n ltac:(lia)) as Len.
    replace (2 - String.length (String_ (Int n)))%nat with 0%nat by lia.
    reflexivity.
Qed.

Lemma shown_spec_display (R : Z) :
  0 <= R -> shown (spec_components R) = spec_display R.
Proof.
  intros HR.
  destruct (CountdownFacts.spec_components_ranges R HR)
    as (dd & hh & mm & ss & E & Hd & Hh & Hm & Hs & _).
  unfold spec_components in E. injection E as Ed Eh Em Es.
  unfold shown, spec_display, spec_components. cbn [d h m s].
  rewrite !pad2_two_digits by lia. reflexivity.
Qed.

(** ** Ticks keep the displays and the closure together *)

Lemma not_minus_one (el : slot) (R : Z) :
  0 <= R -> component el (spec_components R) <> Int (-1).
Proof.
  intros HR E. pose proof (CountdownFacts.spec_component_nonneg el R HR) as N.
  rewrite E in N. discriminate N.
Qed.

(** After a running tick every element shows its component, whether the
    tick had to write to it or not. *)
Lemma running_tick_shows (t now : Z) (w : world) :
  0 < t - now ->
  synced w ->
  let w' := run_tick (Int t) now w in
  prev (clo w') = spec_components (remaining_secs t now) /\
  forall el, textContent (get el w') =
             pad2 (component el (spec_components (remaining_secs t now))).
Proof.
  intros H Sy w'.
  pose proof (CountdownExtra.run_tick_unfinished (Int t) now w
                (CountdownFacts.running_not_finished t now H)) as X.
  cbv zeta in X. destruct X as (_ & _ & _ & _ & _ & Cl & _).
  split.
  - unfold w'. rewrite Cl. apply CountdownFacts.tick_running_prev. exact H.
  - intros el. unfold w'. rewrite (CountdownExtra.text_after_running el t now w H).
    cbv zeta. destruct (strict_ne _ _) eqn:N; [reflexivity|].
    apply CountdownExtra.strict_ne_false in N.
    destruct (Sy el) as [M|T].
    + exfalso. rewrite <- N in M.
      apply (not_minus_one el _ (CountdownFacts.remaining_nonneg t now H) M).
    + rewrite T, N. reflexivity.
Qed.

Lemma unfinished_tick_synced (target : num) (now : Z) (w : world) :
  le0 (sub target (Int now)) = false ->
  synced w -> synced (run_tick target now w).
Proof.
  intros F Sy. destruct target as [t|].
  - assert (H : 0 < t - now) by (simpl in F; apply Z.leb_gt in F; exact F).
    pose proof (running_tick_shows t now w H Sy) as X. cbv zeta in X.
    destruct X as (P & T). intros el. right. rewrite P. apply T.
  - intros el. right. destruct w. destruct el; reflexivity.
Qed.

Lemma init_settled (target : num) (now : Z) (txt : string) :
  settled (init full_document target now (loaded txt)).
Proof.
  left.
  pose proof (CountdownExtra.init_complete_loaded full_document target now txt eq_refl) as X.
  cbv zeta in X. destruct X as (_ & Sc & _).
  split; [exact Sc|].
  rewrite (CountdownExtra.init_complete full_document target now _ eq_refl). cbv zeta.
  assert (S1 : synced (run_tick target now (loaded txt))).
  { destruct (le0 (sub target (Int now))) eqn:F.
    - unfold run_tick. rewrite (CountdownExtra.tick_finished_any target now _ F).
      intros el. left. destruct el; reflexivity.
    - apply unfinished_tick_synced; [exact F|].
      intros el. left. destruct el; reflexivity. }
  intros el. specialize (S1 el).
  rewrite CountdownExtra.get_with_timers. cbn [with_timers clo prev]. exact S1.
Qed.

Lemma fire_settled (target : num) (now : Z) (w : world) :
  settled w ->
  match fire target now w with
  | Some w' => settled w'
  | None => launched w
  end.
Proof.
  intros [[[Ei Eh] Sy]|L].
  - unfold fire. rewrite Ei.
    destruct (le0 (sub target (Int now))) eqn:F.
    + right. destruct target as [t|]; [|discriminate].
      apply CountdownFacts.finished_iff in F.
      destruct (CountdownFacts.scheduled_finish t now 1%nat w Ei Eh F)
        as (w' & Fi & A & B & C & _).
      unfold fire in Fi. rewrite Ei in Fi. injection Fi as <-.
      repeat split; assumption.
    + left. pose proof (CountdownExtra.run_tick_unfinished target now w F) as X.
      cbv zeta in X. destruct X as (A & _ & _ & D & _).
      split; [split; [rewrite A; exact Ei|rewrite D; exact Eh]|].
      apply unfinished_tick_synced; assumption.
  - pose proof L as (Ei & _). unfold fire. rewrite Ei. exact L.
Qed.

Lemma session_settled (clock : list (num * Z)) (w : world) :
  settled w -> settled (session clock w).
Proof.
  revert w. induction clock as [|[target now] rest IH]; intros w H; [exact H|].
  simpl. pose proof (fire_settled target now w H) as K.
  destruct (fire target now w) as [w'|].
  - apply IH. exact K.
  - apply IH. right. exact K.
Qed.

Lemma texts_of_elements (w : world) (p : prev_t) :
  (forall el, textContent (get el w) = pad2 (component el p)) ->
  texts w = shown p.
Proof.
  intros T. unfold texts, shown.
  pose proof (T Days) as T1. pose proof (T Hours) as T2.
  pose proof (T Mins) as T3. pose proof (T Secs) as T4.
  cbn [get component] in T1, T2, T3, T4. rewrite T1, T2, T3, T4. reflexivity.
Qed.

(** ** C1 *)

(** C1: on every tick in the Running state, with [R] the floored number of
    seconds between the clock and the target, [tick] computes
    days = R/86400, hours = (R mod 86400)/3600, minutes = (R mod 3600)/60
    and seconds = R mod 60 by floored integer division, and the four
    displays then show these numbers, each zero-padded to two digits.
    This holds for the immediate tick of [init] and for every tick the
    timer runs, whatever the earlier clock readings and target dates were;
    R = 90061 shows 01, 01, 01, 01. *)
Theorem tick_decomposition
    (target0 : num) (now0 : Z) (txt : string) (before : list (num * Z)) (t now : Z) :
  0 < t - now ->
  let R := remaining_secs t now in
  let computed := {| d := Int (R / 86400);
                     h := Int ((R mod 86400) / 3600);
                     m := Int ((R mod 3600) / 60);
                     s := Int (R mod 60) |} in
  let w1 := session before (init full_document target0 now0 (loaded txt)) in
  let w0 := init full_document (Int t) now (loaded txt) in
  (intervals w1 <> [] ->
     exists w, fire (Int t) now w1 = Some w /\
               prev (clo w) = computed /\ texts w = spec_display R) /\
  (prev (clo w0) = computed /\ texts w0 = spec_display R) /\
  (R = 90061 -> texts w0 = ("01", "01", "01", "01")).
Proof.
  intros H R computed w1 w0.
  pose proof (CountdownFacts.remaining_nonneg t now H) as HR. fold R in HR.
  assert (Shown : forall w, synced w ->
            prev (clo (run_tick (Int t) now w)) = computed /\
            texts (run_tick (Int t) now w) = spec_display R).
  { intros w Sy. pose proof (running_tick_shows t now w H Sy) as X.
    cbv zeta in X. fold R in X. destruct X as (P & T).
    split; [exact P|].
    rewrite (texts_of_elements _ _ T). apply shown_spec_display. exact HR. }
  assert (First : prev (clo w0) = computed /\ texts w0 = spec_display R).
  { unfold w0. rewrite (CountdownExtra.init_complete full_document (Int t) now _ eq_refl).
    cbv zeta.
    destruct (Shown (loaded txt)) as (P & T).
    { intros el. left. destruct el; reflexivity. }
    split; [cbn [with_timers clo prev]; exact P|].
    unfold texts in *. cbn [with_timers daysEl hoursEl minsEl secsEl]. exact T. }
  split; [|split; [exact First|]].
  - intros Run.
    pose proof (session_settled before _ (init_settled target0 now0 txt)) as St.
    fold w1 in St. destruct St as [[[Ei Eh] Sy]|(Ei & _)]; [|contradiction].
    exists (run_tick (Int t) now w1). split.
    + unfold fire. rewrite Ei. reflexivity.
    + apply Shown. exact Sy.
  - intros E. destruct First as (_ & T). rewrite T, E. reflexivity.
Qed.

Lemma tick_decomposition_witness :
  (* loaded with an unparseable date, which is then replaced; at the second
     timer firing 90061 s are left *)
  let w1 := session [(NaN, 1000)] (init full_document NaN 0 (loaded "--")) in
  exists w, fire (Int 90063999) 2000 w1 = Some w /\
            texts w = ("01", "01", "01", "01").
Proof.
  intros w1.
  destruct (tick_decomposition NaN 0 "--" [(NaN, 1000)] 90063999 2000 ltac:(lia))
    as (T & _ & _).
  destruct T as (w & F & _ & X); [discriminate|].
  exists w. split; [exact F|]. rewrite X. reflexivity.
Defined.

End CountdownRender.

(* ================================================================== *)
(** * More about the parallax field *)
(* ================================================================== *)

Module ParallaxExtra.
Import JS ParallaxField ParallaxSessions.

Local Open Scope list_scope.
Local Open Scope Q_scope.

(** ** Pointer positions *)

Lemma sign_pos (q : Q) : 0 < q -> sign q = Gt.
Proof. intros H. unfold sign. apply Qgt_alt. exact H. Qed.

Lemma div_Fin_pos (a b : Q) : 0 < b -> div (Fin a) (Fin b) = Fin (a / b).
Proof. intros H. unfold div. rewrite (sign_pos b H). reflexivity. Qed.

Lemma existsb_listener (l : listener) (ls : list listener) :
  existsb (listener_eqb l) ls = true <-> In l ls.
Proof.
  rewrite existsb_exists. split.
  - intros (x & I & E). apply ParallaxFacts.listener_eqb_eq in E. subst. exact I.
  - intros I. exists l. split; [exact I|]. apply ParallaxFacts.listener_eqb_eq. reflexivity.
Qed.

(** X5: with the listeners registered, a resize to a window of positive
    size followed by a pointer move inside that window sets the target
    offset to [(coord - centre) / centre] on each axis, with the centre at
    half the new size; both components lie between -1 and 1; the current
    offset, the nodes and the pending frame requests are not affected. *)
Theorem pointer_is_normalised (w : world) (wd ht x y : Q) :
  attached w ->
  0 < wd -> 0 < ht ->
  0 <= x <= wd -> 0 <= y <= ht ->
  exists w',
    run [Resize (Fin wd) (Fin ht); MouseMove (Fin x) (Fin y)] w = Done w' /\
    cx w' = Fin (wd / 2) /\ cy w' = Fin (ht / 2) /\
    targetX w' = Fin ((x - wd / 2) / (wd / 2)) /\
    targetY w' = Fin ((y - ht / 2) / (ht / 2)) /\
    normalised (targetX w') /\ normalised (targetY w') /\
    currentX w' = currentX w /\ currentY w' = currentY w /\
    nodes w' = nodes w /\ frames w' = frames w /\ rafId w' = rafId w.
Proof.
  intros [Am Ar] Hw Hh Hx Hy.
  apply existsb_listener in Am. apply existsb_listener in Ar.
  assert (Cw : 0 < wd / 2) by (apply Qlt_shift_div_l; lra).
  assert (Ch : 0 < ht / 2) by (apply Qlt_shift_div_l; lra).
  destruct w; cbn [mousemove resize] in Am, Ar.
  eexists. split.
  { cbn [run step bind set_size resize mousemove onResize set_centre innerWidth innerHeight].
    rewrite Ar. cbn [bind mousemove set_centre onResize set_size]. rewrite Am. reflexivity. }
  cbn [onMouseMove onResize set_target set_centre set_size cx cy targetX targetY
       currentX currentY nodes frames rafId innerWidth innerHeight].
  rewrite !(div_Fin_pos _ 2) by reflexivity.
  cbn [sub add neg]. rewrite !div_Fin_pos by assumption.
  split; [reflexivity|]. split; [reflexivity|].
  split; [reflexivity|]. split; [reflexivity|].
  split.
  { eexists. split; [reflexivity|].
    split; [apply Qle_shift_div_l|apply Qle_shift_div_r]; try assumption;
      assert (E : wd == wd / 2 * 2) by (field); lra. }
  split.
  { eexists. split; [reflexivity|].
    split; [apply Qle_shift_div_l|apply Qle_shift_div_r]; try assumption;
      assert (E : ht == ht / 2 * 2) by (field); lra. }
  repeat split; reflexivity.
Qed.

Lemma pointer_is_normalised_witness :
  (* a 1000 x 800 window resized to 800 x 600, the pointer then at (200, 600) *)
  let w0 := loaded (Fin 1000) (Fin 800) false
                   [{| depth_attr := Some (js "0.08"); transform := "" |}] in
  let w1 := after (init w0) w0 in
  exists w',
    run [Resize (Fin 800) (Fin 600); MouseMove (Fin 200) (Fin 600)] w1 = Done w' /\
    targetX w' = Fin ((200 - 800 / 2) / (800 / 2)) /\
    targetY w' = Fin ((600 - 600 / 2) / (600 / 2)).
Proof.
  intros w0 w1.
  destruct (pointer_is_normalised w1 800 600 200 600)
    as (w' & R & _ & _ & TX & TY & _).
  - split; left; reflexivity.
  - reflexivity.
  - reflexivity.
  - split; discriminate.
  - split; discriminate.
  - exists w'. split; [exact R|]. split; [exact TX|exact TY].
Defined.

(** ** The offsets stay bounded *)

Lemma lerpQ_between (a b t : Q) :
  0 <= t <= 1 -> -1 <= a <= 1 -> -1 <= b <= 1 -> -1 <= lerpQ a b t <= 1.
Proof. unfold lerpQ. intros Ht Ha Hb. split; nra. Qed.

Lemma lerpQ_iter_between (n : nat) (a b t : Q) :
  0 <= t <= 1 -> -1 <= a <= 1 -> -1 <= b <= 1 -> -1 <= lerpQ_iter n a b t <= 1.
Proof.
  intros Ht Ha Hb. induction n as [|n IH]; [exact Ha|].
  simpl. apply lerpQ_between; assumption.
Qed.

(** X6: while the target offset is a number between -1 and 1, so is the
    current offset after any number of frames, on both axes; an element of
    depth [dpt >= 0] is therefore never moved by more than [80 * dpt] pixels
    on either axis. *)
Theorem offsets_are_bounded (n : nat) (w : world) :
  looping w ->
  normalised (currentX w) -> normalised (currentY w) ->
  normalised (targetX w) -> normalised (targetY w) ->
  exists w',
    frames_run n w = Done w' /\
    normalised (currentX w') /\ normalised (currentY w') /\
    forall el dpt, depth_of el = Fin dpt -> 0 <= dpt ->
      exists ox oy,
        offset (currentX w') el = Fin ox /\ offset (currentY w') el = Fin oy /\
        Qabs ox <= 80 * dpt /\ Qabs oy <= 80 * dpt.
Proof.
  intros L (a & Ea & Ha) (b & Eb & Hb) (ta & Eta & Hta) (tb & Etb & Htb).
  destruct (ParallaxFacts.frames_run_looping n w L) as (w' & R & _ & X & Y & _).
  rewrite Ea, Eta in X. rewrite Eb, Etb in Y.
  unfold LERP in X, Y. rewrite ParallaxFacts.lerp_iter_Fin in X, Y.
  assert (T : 0 <= 65 # 1000 <= 1) by lra.
  pose proof (lerpQ_iter_between n a ta _ T Ha Hta) as Bx.
  pose proof (lerpQ_iter_between n b tb _ T Hb Htb) as By.
  exists w'. split; [exact R|].
  split; [eexists; split; [exact X|exact Bx]|].
  split; [eexists; split; [exact Y|exact By]|].
  intros el dpt Ed Hd. unfold offset. rewrite X, Y, Ed. cbn [mul].
  do 2 eexists. split; [reflexivity|]. split; [reflexivity|].
  split; apply Qabs_Qle_condition; split; nra.
Qed.

Lemma offsets_are_bounded_witness :
  (* a page with one orb of depth 0.5, the pointer at the right edge *)
  let w0 := loaded (Fin 1000) (Fin 800) false
                   [{| depth_attr := Some (js "0.5"); transform := "" |}] in
  let w1 := after (step (MouseMove (Fin 1000) (Fin 400)) (after (init w0) w0)) w0 in
  exists w', frames_run 3 w1 = Done w' /\ normalised (currentX w').
Proof.
  intros w0 w1.
  assert (L : looping w1) by (exists 1%nat, [0%nat]; repeat split; reflexivity).
  assert (Z0 : normalised (Fin 0)) by (exists 0; split; [reflexivity|lra]).
  assert (TX : normalised (targetX w1)).
  { eexists. split; [reflexivity|]. split; [discriminate|].
    apply Qle_bool_iff. reflexivity. }
  assert (TY : normalised (targetY w1)).
  { eexists. split; [reflexivity|]. split; [discriminate|].
    apply Qle_bool_iff. reflexivity. }
  destruct (offsets_are_bounded 3 w1 L Z0 Z0 TX TY) as (w' & R & NX & _).
  exists w'. split; [exact R|exact NX].
Defined.

(** ** What a session leaves alone *)

Lemma map_update_nth {A B : Type} (g : A -> B) (f : A -> A) (i : nat) (l : list A) :
  (forall x, g (f x) = g x) -> map g (update_nth i f l) = map g l.
Proof.
  intros H. revert i. induction l as [|x l IH]; intros i; [destruct i; reflexivity|].
  destruct i; simpl; [rewrite H|rewrite IH]; reflexivity.
Qed.

Lemma map_fold_update {A B : Type} (g : A -> B) (f : A -> A) (idx : list nat) (l : list A) :
  (forall x, g (f x) = g x) ->
  map g (fold_left (fun acc i => update_nth i f acc) idx l) = map g l.
Proof.
  intros H. revert l. induction idx as [|i idx IH]; intros l; simpl; [reflexivity|].
  rewrite IH. apply map_update_nth. exact H.
Qed.

Lemma tagged_from_attrs (k : nat) (l l' : list element) :
  map depth_attr l = map depth_attr l' -> tagged_from k l = tagged_from k l'.
Proof.
  revert k l'. induction l as [|x l IH]; intros k [|x' l'] E; try discriminate;
    [reflexivity|].
  simpl in E. injection E as Ex El. simpl. rewrite Ex, (IH (S k) l' El). reflexivity.
Qed.

Lemma untagged_not_selected (ns : list element) (i : nat) (el : element) :
  nth_error ns i = Some el -> depth_attr el = None ->
  existsb (Nat.eqb i) (tagged_from 0 ns) = false.
Proof.
  intros E D. destruct (existsb _ _) eqn:X; [|reflexivity].
  apply existsb_exists in X. destruct X as (j & I & Ej).
  apply Nat.eqb_eq in Ej. subst j.
  apply ParallaxFacts.tagged_from_spec in I. destruct I as (el' & _ & E' & D').
  rewrite Nat.sub_0_r in E'. congruence.
Qed.

Lemma animate_keeps_scene (ns : list element) (w w' : world) :
  scene_kept ns w -> animate w = Done w' -> scene_kept ns w'.
Proof.
  intros (M & S & U) A.
  destruct (elements w) as [idx|] eqn:Ee.
  - destruct (ParallaxFacts.animate_runs w idx Ee)
      as (w1 & A1 & _ & _ & _ & _ & El & _ & _ & _ & _ & _ & Nd).
    rewrite A in A1. injection A1 as <-.
    split; [|split].
    + rewrite Nd. rewrite map_fold_update; [exact M|reflexivity].
    + intros idx' E'. rewrite El in E'. injection E' as <-. apply S. reflexivity.
    + intros i el E D. rewrite Nd.
      rewrite (ParallaxFacts.nth_error_fold_update _ idx
                 (ParallaxFacts.place_idempotent _ _)).
      rewrite (S idx eq_refl), (untagged_not_selected ns i el E D).
      apply U; assumption.
  - unfold animate in A. cbn [elements set_current] in A. rewrite Ee in A. discriminate.
Qed.

Lemma step_keeps_scene (ns : list element) (ev : event) (w w' : world) :
  scene_kept ns w -> step ev w = Done w' -> scene_kept ns w'.
Proof.
  intros K E. destruct ev as [|x y|wd ht|]; simpl in E.
  - destruct (pending_animate w) as [hd|].
    + eapply animate_keeps_scene; [|exact E]. exact K.
    + injection E as <-. exact K.
  - destruct (existsb _ _); injection E as <-; exact K.
  - destruct (existsb _ _); injection E as <-; exact K.
  - unfold destroy in E. injection E as <-.
    destruct (rafId w); exact K.
Qed.

Lemma run_keeps_scene (ns : list element) (evs : list event) (w w' : world) :
  scene_kept ns w -> run evs w = Done w' -> scene_kept ns w'.
Proof.
  revert w. induction evs as [|ev evs IH]; intros w K E.
  - injection E as <-. exact K.
  - simpl in E. destruct (step ev w) as [w1|e] eqn:S1; [|discriminate].
    apply (IH w1); [|exact E]. apply (step_keeps_scene ns ev w); assumption.
Qed.

Lemma init_keeps_scene (ns : list element) (w w' : world) :
  scene_kept ns w -> init w = Done w' -> scene_kept ns w'.
Proof.
  intros (M & S & U) E.
  assert (T : tagged_from 0 (nodes w) = tagged_from 0 ns)
    by (apply tagged_from_attrs; exact M).
  unfold init in E. rewrite T in E.
  assert (K : forall w1, nodes w1 = nodes w ->
                         elements w1 = Some (tagged_from 0 ns) -> scene_kept ns w1).
  { intros w1 N El. split; [rewrite N; exact M|]. split.
    - intros idx Ei. congruence.
    - intros i el Hi Hd. rewrite N. apply U; assumption. }
  destruct (tagged_from 0 ns) as [|i idx] eqn:Et.
  - injection E as <-. apply K; reflexivity.
  - cbn [isTouchOnly hover_none set_scene] in E.
    destruct (hover_none w); injection E as <-; apply K; reflexivity.
Qed.

(** X7: in any session, the nodes keep their depth attributes, and a node
    without the attribute is never written to: it ends the session exactly
    as the page loaded it. *)
Theorem untagged_nodes_untouched
    (boot : bool) (evs : list event) (wd ht : num) (touch : bool)
    (ns : list element) (w : world) :
  session boot evs (loaded wd ht touch ns) = Done w ->
  map depth_attr (nodes w) = map depth_attr ns /\
  List.length (nodes w) = List.length ns /\
  forall i el, nth_error ns i = Some el -> depth_attr el = None ->
               nth_error (nodes w) i = Some el.
Proof.
  intros E.
  assert (K0 : scene_kept ns (loaded wd ht touch ns)).
  { split; [reflexivity|]. split; [discriminate|]. intros i el Hi _. exact Hi. }
  assert (K : scene_kept ns w).
  { unfold session in E. destruct boot.
    - destruct (init (loaded wd ht touch ns)) as [w1|e] eqn:Ei; [|discriminate].
      cbn [bind] in E.
      apply (run_keeps_scene ns evs w1); [|exact E].
      apply (init_keeps_scene ns _ w1 K0 Ei).
    - apply (run_keeps_scene ns evs _ w K0 E). }
  destruct K as (M & _ & U). split; [exact M|]. split; [|exact U].
  rewrite <- (length_map depth_attr (nodes w)), M. apply length_map.
Qed.

Lemma untagged_nodes_untouched_witness :
  let plain := {| depth_attr := None; transform := "" |} in
  let ns := [{| depth_attr := Some (js "0.08"); transform := "" |}; plain] in
  exists w,
    session true [MouseMove (Fin 900) (Fin 100); Frame; Frame]
            (loaded (Fin 1000) (Fin 800) false ns) = Done w /\
    nth_error (nodes w) 1 = Some plain.
Proof.
  intros plain ns.
  destruct (session true [MouseMove (Fin 900) (Fin 100); Frame; Frame]
                    (loaded (Fin 1000) (Fin 800) false ns)) as [w|e] eqn:E.
  - exists w. split; [reflexivity|].
    exact (proj2 (proj2 (untagged_nodes_untouched _ _ _ _ _ ns w E))
                 1%nat plain eq_refl eq_refl).
  - exfalso. vm_compute in E. discriminate E.
Defined.

(** ** Starting and stopping *)

(** X8: on the page as loaded, [init] starts the effect exactly when some
    node carries a depth attribute and the device can hover: it then
    registers its two listeners and requests one frame, whose handle it
    keeps; otherwise it registers nothing and requests nothing.  In both
    cases it records the tagged nodes in [elements]. *)
Theorem init_starts_or_stays_idle (wd ht : num) (touch : bool) (ns : list element) :
  exists w,
    init (loaded wd ht touch ns) = Done w /\
    elements w = Some (tagged_from 0 ns) /\
    nodes w = ns /\
    (tagged_from 0 ns <> [] /\ touch = false ->
       mousemove w = [OnMouseMove] /\ resize w = [OnResize] /\
       frames w = [(1%nat, Animate)] /\ rafId w = Some 1%nat) /\
    (tagged_from 0 ns = [] \/ touch = true ->
       mousemove w = [] /\ resize w = [] /\ frames w = [] /\ rafId w = None).
Proof.
  unfold init. cbn [nodes loaded].
  destruct (tagged_from 0 ns) as [|i idx] eqn:Et.
  - eexists. split; [reflexivity|]. split; [reflexivity|]. split; [reflexivity|].
    split.
    + intros [N _]. congruence.
    + intros _. repeat split; reflexivity.
  - cbn [isTouchOnly hover_none set_scene]. destruct touch.
    + eexists. split; [reflexivity|]. split; [reflexivity|]. split; [reflexivity|].
      split.
      * intros [_ N]. discriminate.
      * intros _. repeat split; reflexivity.
    + eexists. split; [reflexivity|]. split; [reflexivity|]. split; [reflexivity|].
      split.
      * intros _. repeat split; reflexivity.
      * intros [N|N]; discriminate.
Qed.

Lemma init_starts_or_stays_idle_witness :
  exists w,
    init (loaded (Fin 1000) (Fin 800) false
                 [{| depth_attr := Some (js "0.08"); transform := "" |}]) = Done w /\
    frames w = [(1%nat, Animate)].
Proof.
  destruct (init_starts_or_stays_idle (Fin 1000) (Fin 800) false
              [{| depth_attr := Some (js "0.08"); transform := "" |}])
    as (w & E & _ & _ & S & _).
  exists w. split; [exact E|]. apply S. split; [discriminate|reflexivity].
Defined.

Lemma init_starts (w : world) (i : nat) (idx : list nat) :
  tagged_from 0 (nodes w) = i :: idx ->
  hover_none w = false ->
  init w = Done (started (i :: idx) w).
Proof.
  intros Et H. unfold init. rewrite Et.
  cbn [isTouchOnly hover_none set_scene]. rewrite H. reflexivity.
Qed.

Lemma destroy_next_frame (w w' : world) :
  destroy w = Done w' -> next_frame w' = next_frame w.
Proof.
  unfold destroy. intros E. injection E as <-. destruct (rafId w); reflexivity.
Qed.

(** A frame with a single request for [animate] pending runs it and leaves
    a single fresh request. *)
Lemma frame_runs_animate (w : world) (hd : nat) (idx : list nat) :
  frames w = [(hd, Animate)] -> elements w = Some idx ->
  exists w',
    step Frame w = Done w' /\
    frames w' = [(next_frame w, Animate)] /\ rafId w' = Some (next_frame w).
Proof.
  intros Ef Ee. unfold step, pending_animate. rewrite Ef.
  cbn [filter is_animate snd fst]. rewrite Nat.eqb_refl. cbn [negb].
  destruct (ParallaxFacts.animate_runs (set_frames [] (next_frame w) w) idx Ee)
    as (w' & Ea & _ & _ & _ & _ & _ & Fr & Rf & _).
  exists w'. split; [exact Ea|]. split; assumption.
Qed.

(** X9: [init] is not idempotent.  Called twice on a page where the effect
    starts, it registers each listener once but requests a second frame and
    forgets the handle of the first; a [destroy] after that removes the
    listeners and cancels the second request only, so the frame loop goes
    on running. *)
Theorem second_init_leaks_a_loop (wd ht : num) (ns : list element) :
  tagged_from 0 ns <> [] ->
  exists w1 w2 w3 w4,
    init (loaded wd ht false ns) = Done w1 /\
    init w1 = Done w2 /\
    mousemove w2 = [OnMouseMove] /\ resize w2 = [OnResize] /\
    frames w2 = [(1%nat, Animate); (2%nat, Animate)] /\ rafId w2 = Some 2%nat /\
    destroy w2 = Done w3 /\
    mousemove w3 = [] /\ resize w3 = [] /\
    frames w3 = [(1%nat, Animate)] /\
    step Frame w3 = Done w4 /\
    frames w4 = [(3%nat, Animate)] /\ rafId w4 = Some 3%nat.
Proof.
  intros N.
  destruct (tagged_from 0 ns) as [|i idx] eqn:Et; [congruence|].
  pose (w1 := started (i :: idx) (loaded wd ht false ns)).
  pose (w2 := started (i :: idx) w1).
  assert (E1 : init (loaded wd ht false ns) = Done w1)
    by (apply init_starts; [exact Et|reflexivity]).
  assert (E2 : init w1 = Done w2) by (apply init_starts; [exact Et|reflexivity]).
  assert (M2 : mousemove w2 = [OnMouseMove]) by reflexivity.
  assert (R2 : resize w2 = [OnResize]) by reflexivity.
  assert (F2 : frames w2 = [(1%nat, Animate); (2%nat, Animate)]) by reflexivity.
  assert (Rf2 : rafId w2 = Some 2%nat) by reflexivity.
  assert (El2 : elements w2 = Some (i :: idx)) by reflexivity.
  assert (Nx2 : next_frame w2 = 3%nat) by reflexivity.
  clearbody w2. clearbody w1.
  destruct (ParallaxFacts.destroy_effect w2) as (w3 & D & M3 & R3 & F3 & _ & El3 & _).
  pose proof (destroy_next_frame w2 w3 D) as Nx3.
  rewrite M2 in M3. rewrite R2 in R3. rewrite Rf2, F2 in F3.
  cbn in M3, R3, F3. rewrite El2 in El3. rewrite Nx2 in Nx3.
  destruct (frame_runs_animate w3 1%nat (i :: idx) F3 El3) as (w4 & S4 & F4 & Rf4).
  rewrite Nx3 in F4, Rf4.
  exists w1, w2, w3, w4. repeat split; assumption.
Qed.

Lemma second_init_leaks_a_loop_witness :
  exists w1 w2 w3,
    init (loaded (Fin 1000) (Fin 800) false
                 [{| depth_attr := Some (js "0.08"); transform := "" |}]) = Done w1 /\
    init w1 = Done w2 /\ destroy w2 = Done w3 /\
    pending_animate w3 = Some 1%nat.
Proof.
  destruct (second_init_leaks_a_loop (Fin 1000) (Fin 800)
              [{| depth_attr := Some (js "0.08"); transform := "" |}])
    as (w1 & w2 & w3 & w4 & A & B & _ & _ & _ & _ & C & _ & _ & F & _).
  - discriminate.
  - exists w1, w2, w3. split; [exact A|]. split; [exact B|]. split; [exact C|].
    unfold pending_animate. rewrite F. reflexivity.
Defined.

Lemma removed_not_found (l : listener) (ls : list listener) :
  existsb (listener_eqb l) (remove_listener l ls) = false.
Proof.
  destruct (existsb _ _) eqn:E; [|reflexivity].
  apply existsb_listener, ParallaxFacts.remove_listener_spec in E.
  destruct E as [_ N]. congruence.
Qed.

(** X10: after [destroy], pointer moves no longer change the target offset
    and resizes no longer change the stored centre: the module's state is
    the same after such events, whatever the state [destroy] was called
    in. *)
Theorem destroy_detaches (w w' : world) (evs : list event) :
  destroy w = Done w' ->
  Forall (fun ev => match ev with MouseMove _ _ | Resize _ _ => True | _ => False end) evs ->
  exists w'',
    run evs w' = Done w'' /\
    targetX w'' = targetX w' /\ targetY w'' = targetY w' /\
    cx w'' = cx w' /\ cy w'' = cy w' /\
    currentX w'' = currentX w' /\ currentY w'' = currentY w' /\
    nodes w'' = nodes w' /\ frames w'' = frames w' /\
    mousemove w'' = mousemove w' /\ resize w'' = resize w'.
Proof.
  intros D F.
  destruct (ParallaxFacts.destroy_effect w) as (w1 & D1 & M & R & _).
  rewrite D in D1. injection D1 as <-.
  assert (Am : existsb (listener_eqb OnMouseMove) (mousemove w') = false)
    by (rewrite M; apply removed_not_found).
  assert (Ar : existsb (listener_eqb OnResize) (resize w') = false)
    by (rewrite R; apply removed_not_found).
  clear D M R w. revert w' Am Ar.
  induction F as [|ev evs Hev _ IH]; intros w' Am Ar.
  - exists w'. repeat split; reflexivity.
  - destruct ev as [|x y|wd ht|]; try contradiction.
    + cbn [run step]. rewrite Am. cbn [bind]. apply IH; assumption.
    + cbn [run step]. cbn [resize set_size]. rewrite Ar. cbn [bind].
      destruct (IH (set_size wd ht w') Am Ar)
        as (w'' & E & A1 & A2 & A3 & A4 & A5 & A6 & A7 & A8 & A9 & A10).
      exists w''. split; [exact E|]. repeat split; assumption.
Qed.

Lemma destroy_detaches_witness :
  let w0 := loaded (Fin 1000) (Fin 800) false
                   [{| depth_attr := Some (js "0.08"); transform := "" |}] in
  let w1 := after (destroy (after (init w0) w0)) w0 in
  exists w'', run [MouseMove (Fin 900) (Fin 100); Resize (Fin 500) (Fin 400)] w1 = Done w'' /\
              targetX w'' = Fin 0 /\ cx w'' = Fin (1000 / 2).
Proof.
  intros w0 w1.
  destruct (destroy_detaches (after (init w0) w0) w1
              [MouseMove (Fin 900) (Fin 100); Resize (Fin 500) (Fin 400)] eq_refl)
    as (w'' & E & TX & _ & CX & _).
  - repeat constructor.
  - exists w''. split; [exact E|]. split; [rewrite TX|rewrite CX]; reflexivity.
Defined.

(** ** Values that are not numbers *)

Lemma lerp_NaN_current (b t : num) : lerp NaN b t = NaN.
Proof. reflexivity. Qed.

Lemma step_keeps_NaN (ev : event) (w w' : world) :
  currentX w = NaN -> step ev w = Done w' -> currentX w' = NaN.
Proof.
  intros C E. destruct ev as [|x y|wd ht|]; simpl in E.
  - destruct (pending_animate w) as [hd|]; [|injection E as <-; exact C].
    unfold animate in E. cbn [elements set_current set_frames] in E.
    destruct (elements w); [|discriminate].
    injection E as <-. cbn. rewrite C. reflexivity.
  - destruct (existsb _ _); injection E as <-; exact C.
  - destruct (existsb _ _); injection E as <-; exact C.
  - unfold destroy in E. injection E as <-. destruct (rafId w); exact C.
Qed.

(** X11: a current offset that has become [NaN] never recovers: whatever
    the later frames, pointer moves and resizes, it is still [NaN], and every
    frame writes [NaNpx] for that axis to every tagged element.  A pointer
    event at coordinate 0 in a window of width 0 is one way to get there:
    it sets the target to [0 / 0], and the next frame makes the current
    offset [NaN]. *)
Theorem NaN_offset_is_permanent :
  (forall evs w w', currentX w = NaN -> run evs w = Done w' -> currentX w' = NaN) /\
  (forall el y, toFixed 2 (offset NaN el) = "NaN"%string /\
     exists rest, transform (place NaN y el) = append "translate3d(NaNpx, " rest) /\
  (forall w c y, In OnMouseMove (mousemove w) -> cx w = Fin c -> c == 0 ->
     exists w', step (MouseMove (Fin 0) y) w = Done w' /\ targetX w' = NaN /\
       forall cur, lerp cur (targetX w') LERP = NaN).
Proof.
  split; [|split].
  - intros evs. induction evs as [|ev evs IH]; intros w w' C E.
    + injection E as <-. exact C.
    + simpl in E. destruct (step ev w) as [w1|e] eqn:S1; [|discriminate].
      apply (IH w1 w'); [|exact E]. apply (step_keeps_NaN ev w w1 C S1).
  - intros el y. split; [reflexivity|]. eexists. reflexivity.
  - intros w c y Am C Z. apply existsb_listener in Am.
    assert (T : div (sub (Fin 0) (Fin c)) (Fin c) = NaN).
    { unfold sub, neg, add, div, sign.
      rewrite (proj1 (Qeq_alt c 0) Z).
      assert (E : 0 + - c == 0) by lra.
      unfold inf_times, sign. rewrite (proj1 (Qeq_alt _ 0) E). reflexivity. }
    eexists. split; [simpl; rewrite Am; reflexivity|].
    cbn [onMouseMove set_target targetX]. rewrite C, T.
    split; [reflexivity|]. intros cur. destruct cur; reflexivity.
Qed.

Lemma NaN_offset_is_permanent_witness :
  (* the current offset is NaN; a resize, a pointer move and a frame follow *)
  let w0 := loaded (Fin 1000) (Fin 800) false
                   [{| depth_attr := Some (js "0.08"); transform := "" |}] in
  let w1 := set_current NaN (Fin 0) (after (init w0) w0) in
  let evs := [Resize (Fin 1000) (Fin 800); MouseMove (Fin 500) (Fin 400); Frame] in
  exists w, run evs w1 = Done w /\ currentX w = NaN.
Proof.
  intros w0 w1 evs.
  destruct (run evs w1) as [w|e] eqn:E.
  - exists w. split; [reflexivity|].
    exact (proj1 NaN_offset_is_permanent evs w1 w eq_refl E).
  - exfalso. vm_compute in E. discriminate E.
Defined.

End ParallaxExtra.

(* ================================================================== *)
(** * More about the utilities and the subscribe form *)
(* ================================================================== *)

Module UtilsExtra.
Import JS Utils.

Local Open Scope list_scope.

(** ** [randBetween] *)

(** X12: for a draw in [0, 1] and representable bounds [min <= max] with
    a representable difference, under any rounding that keeps the order
    [randBetween] returns a value between [min] and [max], both included:
    [min] is returned for the draw 0, and on doubles [randBetween(10, 26)]
    returns 26 for the largest draw below 1; a larger draw never gives a
    smaller value.  In exact arithmetic, which is one such rounding, a draw
    below 1 stays below [max]. *)
Theorem randBetween_in_range (rnd : Q -> Q) (u lo hi : Q) :
  Rounded.faithful rnd ->
  Rounded.representable rnd lo -> Rounded.representable rnd hi ->
  Rounded.representable rnd (hi - lo) ->
  (0 <= u)%Q -> (u <= 1)%Q -> (lo <= hi)%Q ->
  (lo <= Rounded.randBetween rnd u lo hi)%Q /\
  (Rounded.randBetween rnd u lo hi <= hi)%Q /\
  (Rounded.randBetween rnd 0 lo hi == lo)%Q /\
  (forall u', (u <= u')%Q ->
     (Rounded.randBetween rnd u lo hi <= Rounded.randBetween rnd u' lo hi)%Q) /\
  Rounded.randBetween Rounded.exact u lo hi = randBetween u lo hi /\
  ((u < 1)%Q -> (lo < hi)%Q -> (randBetween u lo hi < hi)%Q) /\
  (PrimFloat.ltb Binary64.largest_draw PrimFloat.one = true /\
   Binary64.randBetween Binary64.largest_draw Binary64.ten Binary64.twenty_six
     = Binary64.twenty_six /\
   Binary64.randBetween PrimFloat.zero Binary64.ten Binary64.twenty_six = Binary64.ten).
Proof.
  intros F Rlo Rhi Rw U0 U1 L.
  destruct (OrbFacts.rounded_randBetween_range rnd F lo hi Rlo Rhi Rw L u) as [A B];
    [split; assumption|].
  split; [exact A|]. split; [exact B|].
  split; [apply (OrbFacts.rounded_randBetween_at_0 rnd F lo hi Rlo)|].
  split.
  { intros u' Hu. apply (OrbFacts.rounded_randBetween_mono rnd F lo hi Rw L u u' Hu). }
  split; [reflexivity|].
  split.
  { intros U L'. unfold randBetween. nra. }
  destruct OrbFacts.largest_draw_samples as (P & Q1 & _ & Q2).
  split; [exact P|]. split; [exact Q1 | exact Q2].
Qed.

Lemma randBetween_in_range_witness :
  (10 <= randBetween (1 # 2) 10 26)%Q /\ (randBetween (1 # 2) 10 26 <= 26)%Q /\
  (randBetween (1 # 2) 10 26 < 26)%Q.
Proof.
  destruct (randBetween_in_range Rounded.exact (1 # 2) 10 26 OrbFacts.exact_rounding)
    as (A & B & _ & _ & _ & C & _);
    try reflexivity; try discriminate.
  split; [exact A|]. split; [exact B|]. apply C; reflexivity.
Defined.

(** ** What an accepted address looks like *)

Lemma not_space_at_count (l : jsstring) :
  forallb not_space_at l = true ->
  count_occ N.eq_dec l 64%N = 0%nat /\
  forallb (fun c => negb (is_space c)) l = true.
Proof.
  induction l as [|c l IH]; simpl; [split; reflexivity|].
  intros H. apply andb_true_iff in H. destruct H as [Hc Hl].
  destruct (IH Hl) as [A B]. unfold not_space_at in Hc.
  apply andb_true_iff in Hc. destruct Hc as [Hs Ha].
  rewrite Hs, B. split; [|reflexivity].
  destruct (N.eq_dec c 64) as [->|N]; [discriminate Ha|exact A].
Qed.

(** X13: an accepted address, once trimmed, contains exactly one [@] and
    no whitespace, and is at least six characters long; and trimming the
    argument beforehand makes no difference to the check. *)
Theorem accepted_address_facts (email : jsstring) :
  isValidEmail (trim email) = isValidEmail email /\
  (isValidEmail email = true ->
     count_occ N.eq_dec (trim email) 64%N = 1%nat /\
     forallb (fun c => negb (is_space c)) (trim email) = true /\
     (6 <= List.length (trim email))%nat).
Proof.
  split; [apply UtilsFacts.isValidEmail_trim|].
  intros V. apply UtilsFacts.isValidEmail_shape in V.
  destruct V as (lo & dom & rest & E & Flo & Fdom & Frest & Nlo & Ndom & Lrest).
  rewrite E.
  destruct (not_space_at_count lo Flo) as [A1 B1].
  destruct (not_space_at_count dom Fdom) as [A2 B2].
  destruct (not_space_at_count rest Frest) as [A3 B3].
  split; [|split].
  - rewrite !count_occ_app, A1, A2, A3. reflexivity.
  - rewrite !forallb_app, B1, B2, B3. reflexivity.
  - rewrite !length_app. simpl.
    destruct lo; [congruence|]. destruct dom; [congruence|]. simpl. lia.
Qed.

Lemma accepted_address_facts_witness :
  count_occ N.eq_dec (trim (js " a@b.co ")) 64%N = 1%nat.
Proof.
  apply (proj2 (accepted_address_facts (js " a@b.co "))). reflexivity.
Defined.

(** ** Whitespace around the input *)

Lemma trimStart_spaces (sp l : jsstring) :
  forallb is_space sp = true -> trimStart (sp ++ l) = trimStart l.
Proof.
  induction sp as [|c sp IH]; simpl; [reflexivity|].
  intros H. apply andb_true_iff in H. destruct H as [Hc Hs].
  rewrite Hc. apply IH. exact Hs.
Qed.

Lemma trimStart_nil_spaces (l : jsstring) :
  trimStart l = [] -> forallb is_space l = true.
Proof.
  induction l as [|c l IH]; simpl; [reflexivity|].
  destruct (is_space c); [exact IH|discriminate].
Qed.

Lemma forallb_rev {A : Type} (p : A -> bool) (l : list A) :
  forallb p l = true -> forallb p (rev l) = true.
Proof.
  rewrite !forallb_forall. intros H x I. apply H, in_rev. exact I.
Qed.

Lemma trimEnd_spaces (l sp : jsstring) :
  forallb is_space sp = true -> trimEnd (l ++ sp) = trimEnd l.
Proof.
  intros H. unfold trimEnd. rewrite rev_app_distr, trimStart_spaces; [reflexivity|].
  apply forallb_rev. exact H.
Qed.

Lemma trimStart_app (l sp : jsstring) :
  trimStart l <> [] -> trimStart (l ++ sp) = trimStart l ++ sp.
Proof.
  induction l as [|c l IH]; simpl; [congruence|].
  destruct (is_space c); [exact IH|reflexivity].
Qed.

Lemma trim_surrounded (sp1 l sp2 : jsstring) :
  forallb is_space sp1 = true -> forallb is_space sp2 = true ->
  trim (sp1 ++ l ++ sp2) = trim l.
Proof.
  intros H1 H2. unfold trim. rewrite (trimStart_spaces sp1 _ H1).
  destruct (trimStart l) as [|c tl] eqn:E.
  - pose proof (trimStart_nil_spaces l E) as Sl.
    rewrite (trimStart_spaces l sp2 Sl).
    replace (trimStart sp2) with (@nil N); [reflexivity|].
    symmetry. rewrite <- (app_nil_r sp2), (trimStart_spaces sp2 [] H2). reflexivity.
  - rewrite trimStart_app by congruence. rewrite E. apply trimEnd_spaces. exact H2.
Qed.

(** X14: whitespace before and after the address does not matter to the
    check: an input and the same input with whitespace added at either end
    are accepted or rejected alike. *)
Theorem surrounding_whitespace_ignored (sp1 email sp2 : jsstring) :
  forallb is_space sp1 = true ->
  forallb is_space sp2 = true ->
  trim (sp1 ++ email ++ sp2) = trim email /\
  isValidEmail (sp1 ++ email ++ sp2) = isValidEmail email.
Proof.
  intros H1 H2. pose proof (trim_surrounded sp1 email sp2 H1 H2) as T.
  split; [exact T|]. unfold isValidEmail. rewrite T. reflexivity.
Qed.

Lemma surrounding_whitespace_ignored_witness :
  isValidEmail ([9%N; 32%N] ++ js "a@b.co" ++ [160%N; 10%N]) = isValidEmail (js "a@b.co").
Proof.
  apply (surrounding_whitespace_ignored [9%N; 32%N] (js "a@b.co") [160%N; 10%N]);
    reflexivity.
Defined.

End UtilsExtra.

Module FormExtra.
Import JS Utils SubscribeForm.

Local Open Scope list_scope.

(** ** The outcomes of a submission *)

(** X15: with an accepted address, what the form shows afterwards depends
    only on how the remote call ends.  A success result marks the field
    valid, shows the result's message as a success and empties the input; a
    failure result marks the field as erroneous, shows the result's message
    as an error and keeps the input; a rejected or throwing call does the
    same with the connection message.  In all three cases exactly one call
    was made, with the trimmed address. *)
Theorem submission_outcomes (remote : jsstring -> reply) (st : form) :
  isValidEmail (value (emailInput st)) = true ->
  let email := trim (value (emailInput st)) in
  let st' := onSubmit remote st in
  sent st' = email :: sent st /\
  (forall msg, remote email = Resolved true msg ->
     fieldWrap st' = {| is_valid := true; is_error := false |} /\
     messageEl st' = {| text := msg; modifier := Some Success; visible := true |} /\
     value (emailInput st') = []) /\
  (forall msg, remote email = Resolved false msg ->
     fieldWrap st' = {| is_valid := false; is_error := true |} /\
     messageEl st' = {| text := msg; modifier := Some Error; visible := true |} /\
     value (emailInput st') = value (emailInput st)) /\
  (remote email = Rejected \/ remote email = Threw ->
     fieldWrap st' = {| is_valid := false; is_error := true |} /\
     messageEl st' = {| text := msg_connection; modifier := Some Error; visible := true |} /\
     value (emailInput st') = value (emailInput st)).
Proof.
  intros V email st'.
  destruct (FormFacts.onSubmit_valid remote st V) as (N & E).
  fold email in E. fold st' in E. rewrite E.
  split; [destruct (remote email) as [[|] msg| |]; reflexivity|].
  split; [|split].
  - intros msg R. rewrite R. repeat split; reflexivity.
  - intros msg R. rewrite R. repeat split; reflexivity.
  - intros [R|R]; rewrite R; repeat split; reflexivity.
Qed.

Lemma submission_outcomes_witness :
  let st' := onSubmit (fun _ => Resolved true (js "ok")) (fresh (js " a@b.co") msg_notify) in
  value (emailInput st') = [] /\ sent st' = [js "a@b.co"].
Proof.
  destruct (submission_outcomes (fun _ => Resolved true (js "ok"))
              (fresh (js " a@b.co") msg_notify) eq_refl) as (S & Ok & _).
  destruct (Ok (js "ok") eq_refl) as (_ & _ & V).
  cbv zeta. split; [exact V|exact S].
Defined.

(** ** What holds after every submission *)

Lemma onSubmit_cases (remote : jsstring -> reply) (st : form) :
  let v := value (emailInput st) in
  (trim v = [] /\ onSubmit remote st = reject_input msg_empty (resetState st)) \/
  (trim v <> [] /\ isValidEmail v = false /\
     onSubmit remote st = reject_input msg_invalid (resetState st)) \/
  (isValidEmail v = true /\
     onSubmit remote st =
       cleanup (handle (remote (trim v)) (loading (trim v) (resetState st)))).
Proof.
  cbv zeta. destruct (isValidEmail (value (emailInput st))) eqn:V.
  - right. right. split; [reflexivity|].
    apply (FormFacts.onSubmit_valid remote st V).
  - destruct (trim (value (emailInput st))) as [|c tl] eqn:E.
    + left. split; [reflexivity|]. apply FormFacts.onSubmit_empty. exact E.
    + right. left. split; [discriminate|]. split; [reflexivity|].
      apply FormFacts.onSubmit_invalid; [rewrite E; discriminate|exact V].
Qed.

(** X16: whatever the form showed before and whatever the remote does, a
    submission ends with a visible message that is either a success or an
    error, with the field marked valid exactly when it is a success and
    erroneous exactly when it is an error (never both); it makes a remote
    call exactly when the address is accepted, and then a single one; and
    nothing of the previous attempt's marks or message survives: the result
    is the same as on a form whose marks and message were cleared first. *)
Theorem submission_invariants (remote : jsstring -> reply) (st : form) :
  let st' := onSubmit remote st in
  visible (messageEl st') = true /\
  (modifier (messageEl st') = Some Success \/ modifier (messageEl st') = Some Error) /\
  (is_valid (fieldWrap st') = true <-> modifier (messageEl st') = Some Success) /\
  (is_error (fieldWrap st') = true <-> modifier (messageEl st') = Some Error) /\
  sent st' = (if isValidEmail (value (emailInput st))
              then trim (value (emailInput st)) :: sent st else sent st) /\
  (forall f m, onSubmit remote (with_field f (with_message m st)) = st').
Proof.
  cbv zeta.
  destruct (onSubmit_cases remote st) as [(T & E)|[(_ & V & E)|(V & E)]].
  - assert (V : isValidEmail (value (emailInput st)) = false).
    { unfold isValidEmail. rewrite T. reflexivity. }
    rewrite V, E. repeat split; try reflexivity; try discriminate; auto.
  - rewrite V, E. repeat split; try reflexivity; try discriminate; auto.
  - rewrite V, E.
    destruct (remote (trim (value (emailInput st)))) as [[|] msg| |];
      repeat split; try reflexivity; try discriminate; auto.
Qed.

Lemma submission_invariants_witness :
  let st := fresh (js "a@b") msg_notify in
  onSubmit (fun _ => Threw)
           (with_field {| is_valid := true; is_error := false |}
              (with_message {| text := js "old"; modifier := Some Success; visible := true |} st))
    = onSubmit (fun _ => Threw) st /\
  is_valid (fieldWrap (onSubmit (fun _ => Threw) st)) = false.
Proof.
  cbv zeta.
  destruct (submission_invariants (fun _ => Threw) (fresh (js "a@b") msg_notify))
    as (_ & _ & _ & _ & _ & R).
  split; [apply R|reflexivity].
Defined.

(** ** The shipped mock *)

(** X17: the mock shipped as [sendToApi] always resolves: it reports
    success exactly when the random draw exceeds 0.05, and its success
    message quotes the address it was given.  With it in place of the
    remote, a submission never ends on the connection message, and an
    accepted address is lost from the input exactly when the draw exceeds
    0.05. *)
Theorem mock_always_resolves (u : Q) (st : form) :
  (forall email, exists ok msg,
     sendToApi u email = Resolved ok msg /\
     ok = negb (Qle_bool u (5 # 100)) /\
     (ok = true -> exists pre post, msg = pre ++ email ++ post)) /\
  text (messageEl (onSubmit (sendToApi u) st)) <> msg_connection /\
  (isValidEmail (value (emailInput st)) = true ->
     value (emailInput (onSubmit (sendToApi u) st)) =
       if Qle_bool u (5 # 100) then value (emailInput st) else []).
Proof.
  split; [|split].
  - intros email. unfold sendToApi. destruct (Qle_bool u (5 # 100)).
    + do 2 eexists. split; [reflexivity|]. split; [reflexivity|discriminate].
    + do 2 eexists. split; [reflexivity|]. split; [reflexivity|].
      intros _. do 2 eexists. reflexivity.
  - destruct (onSubmit_cases (sendToApi u) st) as [(_ & E)|[(_ & _ & E)|(_ & E)]];
      rewrite E; try discriminate.
    unfold sendToApi. destruct (Qle_bool u (5 # 100)); discriminate.
  - intros V. destruct (FormFacts.onSubmit_valid (sendToApi u) st V) as (_ & E).
    rewrite E. unfold sendToApi. destruct (Qle_bool u (5 # 100)); reflexivity.
Qed.

Lemma mock_always_resolves_witness :
  value (emailInput (onSubmit (sendToApi (1 # 100)) (fresh (js "a@b.co") msg_notify)))
    = js "a@b.co".
Proof.
  apply (proj2 (proj2 (mock_always_resolves (1 # 100) (fresh (js "a@b.co") msg_notify)))).
  reflexivity.
Defined.

End FormExtra.

(* ================================================================== *)
(** * The panel switcher and the boot sequence *)
(* ================================================================== *)

Module GearFacts.
Import JS GearSwitcher.

Local Open Scope list_scope.

Lemma jsstring_eqb_eq (a b : jsstring) : jsstring_eqb a b = true <-> a = b.
Proof.
  revert b. induction a as [|x a IH]; intros [|y b]; simpl;
    try (split; [discriminate|discriminate]); [split; reflexivity|].
  rewrite andb_true_iff, N.eqb_eq, IH. split.
  - intros [-> ->]. reflexivity.
  - intros E. injection E as -> ->. split; reflexivity.
Qed.

(** ** Events *)

Lemma set_aria_ready (a b : jsstring) (st : state) :
  has_btn st = true -> has_panel st = true ->
  set_aria a b st = Done (set_hidden b (set_expanded a st)).
Proof. intros Hb Hp. unfold set_aria. rewrite Hb. cbn [set_expanded has_panel]. rewrite Hp. reflexivity. Qed.

Lemma toggle_ready (st : state) :
  ready st ->
  exists st', toggle st = Done st' /\ ready st' /\ mirrored st' /\
              is_open st' = negb (is_open st) /\ links st' = links st.
Proof.
  intros (Hb & Hp & L1 & L2 & L3). unfold toggle.
  rewrite set_aria_ready by assumption.
  eexists. split; [reflexivity|]. repeat split; assumption.
Qed.

Lemma close_ready (st : state) :
  ready st ->
  exists st', close st = Done st' /\ ready st' /\ mirrored st' /\
              is_open st' = false /\ links st' = links st.
Proof.
  intros (Hb & Hp & L1 & L2 & L3). unfold close.
  rewrite set_aria_ready by assumption.
  eexists. split; [reflexivity|]. repeat split; assumption.
Qed.

Lemma dispatch_ready (ev : event) (st : state) :
  ready st ->
  exists st',
    dispatch ev st = Done st' /\ ready st' /\
    is_open st' = next_open (is_open st) ev /\
    links st' = links st /\
    (effective ev -> mirrored st') /\
    (mirrored st -> mirrored st').
Proof.
  intros R. pose proof R as (Hb & Hp & L1 & L2 & L3).
  destruct ev as [[ob isw]|key]; unfold dispatch, next_open, effective;
    cbn [on_button in_switcher]; rewrite ?L1, ?L2, ?L3.
  - destruct ob; cbn [andb].
    + destruct (toggle_ready st R) as (st' & E & R' & M & O & Lk).
      exists st'. split; [exact E|]. split; [exact R'|]. split; [exact O|].
      split; [exact Lk|]. split; intros _; exact M.
    + destruct isw; cbn [negb].
      * exists st. split; [reflexivity|]. split; [exact R|]. split; [reflexivity|].
        split; [reflexivity|]. split; [intros [F|F]; discriminate|intros M; exact M].
      * destruct (close_ready st R) as (st' & E & R' & M & O & Lk).
        exists st'. split; [exact E|]. split; [exact R'|]. split; [exact O|].
        split; [exact Lk|]. split; intros _; exact M.
  - destruct (jsstring_eqb key (js "Escape")) eqn:K.
    + destruct (close_ready st R) as (st' & E & R' & M & O & Lk).
      exists st'. split; [exact E|]. split; [exact R'|]. split; [exact O|].
      split; [exact Lk|]. split; intros _; exact M.
    + exists st. split; [reflexivity|]. split; [exact R|]. split; [reflexivity|].
      split; [reflexivity|]. split; [discriminate|intros M; exact M].
Qed.

Lemma run_ready (evs : list event) (st : state) :
  ready st ->
  ready (run evs st) /\
  is_open (run evs st) = fold_left next_open evs (is_open st) /\
  links (run evs st) = links st /\
  (mirrored st \/ Exists effective evs -> mirrored (run evs st)).
Proof.
  revert st. induction evs as [|ev evs IH]; intros st R.
  - simpl. split; [exact R|]. split; [reflexivity|]. split; [reflexivity|].
    intros [M|X]; [exact M|inversion X].
  - destruct (dispatch_ready ev st R) as (st1 & E & R1 & O1 & L1 & Ef & Mk).
    simpl. rewrite E. cbn [after].
    destruct (IH st1 R1) as (R' & O' & L' & M').
    split; [exact R'|]. split; [rewrite O', O1; reflexivity|].
    split; [rewrite L'; exact L1|].
    intros [M|X].
    + apply M'. left. apply Mk. exact M.
    + inversion X as [? ? Hev|? ? Hrest]; subst.
      * apply M'. left. apply Ef. exact Hev.
      * apply M'. right. exact Hrest.
Qed.

(** X18: once [init] has wired a complete switcher, no event makes a
    listener throw; the panel's open state follows the specification's
    rule (a click in the button flips it, also when the button lies outside
    the switcher's root; a click outside the root and the Escape key close
    it; a click elsewhere inside and any other key leave it); the links are
    not touched; and from the first button click, outside click or Escape
    on, [aria-expanded] and [aria-hidden] say what the [is-open] class
    says. *)
Theorem panel_follows_events (evs : list event) (st : state) :
  ready st ->
  (forall ev, exists st1, dispatch ev st = Done st1) /\
  ready (run evs st) /\
  is_open (run evs st) = fold_left next_open evs (is_open st) /\
  links (run evs st) = links st /\
  (mirrored st \/ Exists effective evs -> mirrored (run evs st)).
Proof.
  intros R. split; [|apply run_ready; exact R].
  intros ev. destruct (dispatch_ready ev st R) as (st1 & E & _).
  exists st1. exact E.
Qed.

Lemma panel_follows_events_witness :
  let st := after (init true (js "/") (markup None None [])) in
  let evs := [Click {| on_button := true; in_switcher := false |};
              KeyDown (js "a");
              Click {| on_button := false; in_switcher := true |}] in
  is_open (run evs st) = true /\ mirrored (run evs st).
Proof.
  intros st evs.
  assert (R : ready st) by (repeat split; reflexivity).
  destruct (panel_follows_events evs st R) as (_ & _ & O & _ & M).
  split; [rewrite O; reflexivity|].
  apply M. right. constructor. left. reflexivity.
Defined.

(** ** Highlighting the current page *)

Lemma mark_complete (cur : jsstring) (ls : list link) :
  Forall (fun l => href l <> None) ls ->
  snd (mark cur ls) = false /\
  map href (fst (mark cur ls)) = map href ls /\
  map is_active (fst (mark cur ls)) =
    map (fun l => match link_file l with
                  | Some f => jsstring_eqb f cur
                  | None => false
                  end) ls.
Proof.
  induction ls as [|l ls IH]; intros F; [repeat split|].
  inversion F as [|l' ls' Hl Hls]; subst.
  destruct (IH Hls) as (A & B & C).
  simpl. unfold link_file. destruct (href l) as [target|] eqn:E; [|congruence].
  destruct (mark cur ls) as [rest threw]. cbn [fst snd] in *.
  cbn [href is_active map option_map]. rewrite B, C. repeat split. exact A.
Qed.

Lemma mark_incomplete (cur : jsstring) (ls : list link) :
  Exists (fun l => href l = None) ls -> snd (mark cur ls) = true.
Proof.
  induction ls as [|l ls IH]; intros X; [inversion X|].
  simpl. destruct (href l) as [target|] eqn:E; [|reflexivity].
  inversion X as [? ? Hl|? ? Hls]; subst; [congruence|].
  specialize (IH Hls). destruct (mark cur ls) as [rest threw]. exact IH.
Qed.

Lemma one_match_at_most {A : Type} (f : A -> option jsstring) (cur : jsstring)
    (ls : list A) :
  NoDup (map f ls) ->
  (List.length (filter (fun b : bool => b)
     (map (fun l => match f l with
                    | Some g => jsstring_eqb g cur
                    | None => false
                    end) ls)) <= 1)%nat.
Proof.
  induction ls as [|l ls IH]; intros N; [simpl; lia|].
  inversion N as [|x xs Hnot Hnd]; subst. specialize (IH Hnd).
  simpl. destruct (f l) as [g|] eqn:E; [|exact IH].
  destruct (jsstring_eqb g cur) eqn:G; [|exact IH].
  apply jsstring_eqb_eq in G. subst g.
  assert (Z : filter (fun b : bool => b)
                (map (fun l0 => match f l0 with
                                | Some g => jsstring_eqb g cur
                                | None => false
                                end) ls) = []).
  { clear IH N Hnd. induction ls as [|k ls IH]; [reflexivity|].
    simpl. assert (Hk : f k <> Some cur).
    { intros K. apply Hnot. left. exact K. }
    assert (Hrest : ~ In (Some cur) (map f ls)).
    { intros K. apply Hnot. right. exact K. }
    destruct (f k) as [g|] eqn:Ek.
    - destruct (jsstring_eqb g cur) eqn:G.
      + apply jsstring_eqb_eq in G. congruence.
      + apply IH. exact Hrest.
    - apply IH. exact Hrest. }
  simpl. rewrite Z. simpl. lia.
Qed.

Lemma last_segment_slash (str : jsstring) : last_segment (str ++ [47%N]) = [].
Proof.
  induction str as [|c str IH]; [reflexivity|].
  simpl. replace (existsb (N.eqb 47) (str ++ [47%N])) with true; [exact IH|].
  symmetry. apply existsb_exists. exists 47%N. split; [|reflexivity].
  apply in_or_app. right. left. reflexivity.
Qed.

(** X19: with the panel present and an [href] on every link,
    [highlightCurrentPage] marks a link active exactly when the part of its
    [href] after the last slash equals the current file, whatever was
    marked before; the current file is the part of the path after its last
    slash, and 'index-01.html' when the path ends with a slash; if no two
    links point to the same file, at most one is marked.  A link without
    [href] makes it throw. *)
Theorem highlight_marks_current_file (pathname : jsstring) (st : state) :
  has_panel st = true ->
  (Forall (fun l => href l <> None) (links st) ->
     exists st',
       highlightCurrentPage pathname st = Done st' /\
       map href (links st') = map href (links st) /\
       map is_active (links st') =
         map (fun l => match link_file l with
                       | Some f => jsstring_eqb f (current_file pathname)
                       | None => false
                       end) (links st) /\
       is_open st' = is_open st /\
       (NoDup (map link_file (links st)) ->
          (List.length (filter (fun b : bool => b) (map is_active (links st'))) <= 1)%nat)) /\
  (Exists (fun l => href l = None) (links st) ->
     exists st', highlightCurrentPage pathname st = Throws st') /\
  (forall dir, current_file (dir ++ js "/") = js "index-01.html") /\
  (forall c rest, last_segment pathname = c :: rest ->
     current_file pathname = last_segment pathname).
Proof.
  intros Hp. split; [|split; [|split]].
  - intros F. destruct (mark_complete (current_file pathname) (links st) F)
      as (A & B & C).
    unfold highlightCurrentPage. rewrite Hp.
    destruct (mark (current_file pathname) (links st)) as [ls threw].
    cbn [fst snd] in A, B, C. subst threw.
    eexists. split; [reflexivity|]. cbn [set_links links is_open].
    split; [exact B|]. split; [exact C|]. split; [reflexivity|].
    intros N. rewrite C. apply one_match_at_most. exact N.
  - intros X. pose proof (mark_incomplete (current_file pathname) (links st) X) as T.
    unfold highlightCurrentPage. rewrite Hp.
    destruct (mark (current_file pathname) (links st)) as [ls threw].
    cbn [snd] in T. subst threw. eexists. reflexivity.
  - intros dir. unfold current_file.
    change (js "/") with [47%N]. rewrite last_segment_slash. reflexivity.
  - intros c rest E. unfold current_file. rewrite E. reflexivity.
Qed.


Lemma highlight_marks_current_file_witness :
  let ls := [{| href := Some (js "index-01.html"); is_active := true |};
             {| href := Some (js "./index-02.html"); is_active := false |}] in
  exists st',
    highlightCurrentPage (js "/demo/index-02.html") (markup None None ls) = Done st' /\
    map is_active (links st') = [false; true].
Proof.
  intros ls.
  destruct (highlight_marks_current_file (js "/demo/index-02.html")
              (markup None None ls) eq_refl) as (H & _).
  destruct H as (st' & E & _ & A & _).
  - repeat constructor; discriminate.
  - exists st'. split; [exact E|]. rewrite A. reflexivity.
Defined.

(** ** When elements are missing *)

(** X20: [GearSwitcher.init] does nothing without the switcher's root.
    With the root but without the button it throws before any listener is
    registered.  With root and button but without the panel it throws
    after registering all three listeners, and a later click in the button
    then throws as well, after flipping the [is-open] class and setting
    [aria-expanded], with [aria-hidden] left as it was. *)
Theorem init_with_missing_parts (pathname : jsstring) (st : state) :
  init false pathname st = Done st /\
  (has_btn st = false -> init true pathname st = Throws st) /\
  (has_btn st = true -> has_panel st = false ->
     init true pathname st = Throws (set_wired true true true st) /\
     forall c, on_button c = true ->
       exists st',
         dispatch (Click c) (set_wired true true true st) = Throws st' /\
         is_open st' = negb (is_open st) /\
         aria_expanded st' = Some (String_bool (negb (is_open st))) /\
         aria_hidden st' = aria_hidden st).
Proof.
  split; [reflexivity|]. split.
  - intros Hb. unfold init. cbn [negb]. rewrite Hb. reflexivity.
  - intros Hb Hp. split.
    + unfold init. cbn [negb]. rewrite Hb. cbn [negb].
      unfold highlightCurrentPage. cbn [set_wired has_panel]. rewrite Hp. reflexivity.
    + intros c Hc. unfold dispatch. rewrite Hc.
      destruct st as [hb hp op ae ah ls bc dc dk]. cbn [has_btn has_panel] in Hb, Hp.
      subst hb hp. eexists. split; [reflexivity|]. repeat split; reflexivity.
Qed.

Lemma init_with_missing_parts_witness :
  let st := {| has_btn := true; has_panel := false; is_open := false;
               aria_expanded := None; aria_hidden := Some (js "true"); links := [];
               btn_click := false; doc_click := false; doc_keydown := false |} in
  init true (js "/") st = Throws (set_wired true true true st).
Proof.
  intros st.
  apply (proj2 (proj2 (init_with_missing_parts (js "/") st)) eq_refl eq_refl).
Defined.

End GearFacts.

Module BootFacts.
Import JS Boot.

Local Open Scope list_scope.





End BootFacts.

